(** * arborist: the in-memory authorization engine

    A shallow embedding of [AuthEngine] and its operations, the second
    half of server.go (from line 514), and of the server's builder
    (server.go:20-57).  Go pointers are indices into
    per-type arenas (the Go heap); the engine's registries are finite maps
    from identifiers to such pointers, as in the source.  Go functions that
    mutate the engine are state transformers over [World] (heap and
    engine); their Go return values, errors and run-time panics are the
    [result]. *)

From Stdlib Require Import Strings.Byte.
From stdpp Require Import gmap strings list fin_maps.

(** ** Pointers and heap objects *)

(** A pointer is an index into the arena of its type; [None] in an
    [option] pointer is Go's [nil]. *)
Abbreviation role_ptr := nat (only parsing).
Abbreviation perm_ptr := nat (only parsing).
Abbreviation res_ptr := nat (only parsing).
Abbreviation svc_ptr := nat (only parsing).

(** [Constraints]: a mapping string->string (server.go:863, spec section 3). *)
Abbreviation Constraints := (gmap string string) (only parsing).

(** Modelled from the spec: the declaration of the [Resource] struct is
    missing from the sources; the engine reads only its [ID]
    (server.go:871). *)
Record Resource := mkResource { Resource_ID : string }.

(** Modelled from the spec: the declaration of the [Service] struct is
    missing from the sources; the engine uses [ID] and [uriToResource]
    (server.go:821,825). *)
Record Service := mkService {
  Service_ID : string;
  uriToResource : gmap string res_ptr
}.

(** Modelled from the spec: the declaration of the [Action] struct is
    missing from the sources; its fields are those assigned at
    server.go:805-807. *)
Record Action := mkAction {
  Action_Service : option svc_ptr;
  Action_Resource : option res_ptr;
  Action_Method : string
}.

(** Modelled from the spec: the declaration of the [Permission] struct is
    missing from the sources; fields as used at server.go:763-764,776-777. *)
Record Permission := mkPermission {
  Permission_ID : string;
  Permission_Action : Action;
  Permission_Constraints : Constraints;
  rolesGranting : gset role_ptr
}.

(** Modelled from the spec: the declaration of the [Role] struct is missing
    from the sources; fields as used at server.go:679,715,724,733,738,742.
    [Permissions] and [Subroles] are Go maps keyed by pointer, used as
    sets. *)
Record Role := mkRole {
  Role_ID : string;
  Tags : gmap string string;
  Permissions : gset perm_ptr;
  Subroles : gset role_ptr;
  Parent : option role_ptr
}.

(** server.go:524-542 *)
Record AuthEngine := mkAuthEngine {
  root_role : role_ptr;
  roles : gmap string role_ptr;
  resources : gmap string res_ptr;
  permissions : gmap string perm_ptr;
  services : gmap string svc_ptr
}.

(** The Go heap: one arena per struct type. Allocation appends, so a new
    pointer never aliases an old one; objects are never freed. *)
Record Heap := mkHeap {
  role_heap : list Role;
  perm_heap : list Permission;
  res_heap : list Resource;
  svc_heap : list Service
}.

Record World := mkWorld {
  heap : Heap;
  engine : AuthEngine
}.

(** ** Results of Go calls *)

(** The error values of the engine. [RoleAlreadyExists] is
    [errors.New("role already exists")] (server.go:705); the two others are
    returned by [NewRole] and [validateFields], which are missing from the
    sources, and named as in the spec's taxonomy. [UnmarshalError] is whatever
    [json.Unmarshal] returns. *)
Inductive error :=
  | RoleAlreadyExists
  | InvalidIdentifier
  | InvalidAction
  | UnmarshalError.

(** Go run-time panics that the engine's code can raise. *)
Inductive panic :=
  | NilDereference
  | CloseOfClosedChannel
  | SendOnClosedChannel.

Inductive result (A : Type) :=
  | Ok (a : A)
  | Err (e : error)
  | Panicked (p : panic).
Arguments Ok {A} a.
Arguments Err {A} e.
Arguments Panicked {A} p.

#[global] Instance error_eq_dec : EqDecision error.
Proof. solve_decision. Defined.
#[global] Instance panic_eq_dec : EqDecision panic.
Proof. solve_decision. Defined.

(** A Go function over the engine: it always leaves a world behind, also
    when it returns an error (mutations made before the error stay). *)
Definition M (A : Type) : Type := World → result A * World.

Definition ret {A} (a : A) : M A := λ w, (Ok a, w).
Definition fail {A} (e : error) : M A := λ w, (Err e, w).
Definition bind {A B} (m : M A) (k : A → M B) : M B :=
  λ w, match m w with
       | (Ok a, w') => k a w'
       | (Err e, w') => (Err e, w')
       | (Panicked p, w') => (Panicked p, w')
       end.

Notation "'let*' x := m 'in' k" := (bind m (λ x, k))
  (at level 10, x name, m at level 100, k at level 200).
Notation "m ;;; k" := (bind m (λ _, k))
  (at level 100, k at level 200, right associativity).

(** ** Heap access *)

Definition set_role_heap (f : list Role → list Role) (h : Heap) : Heap :=
  mkHeap (f (role_heap h)) (perm_heap h) (res_heap h) (svc_heap h).
Definition set_perm_heap (f : list Permission → list Permission) (h : Heap) : Heap :=
  mkHeap (role_heap h) (f (perm_heap h)) (res_heap h) (svc_heap h).
Definition set_res_heap (f : list Resource → list Resource) (h : Heap) : Heap :=
  mkHeap (role_heap h) (perm_heap h) (f (res_heap h)) (svc_heap h).
Definition set_svc_heap (f : list Service → list Service) (h : Heap) : Heap :=
  mkHeap (role_heap h) (perm_heap h) (res_heap h) (f (svc_heap h)).

Definition on_heap (f : Heap → Heap) (w : World) : World :=
  mkWorld (f (heap w)) (engine w).
Definition on_engine (f : AuthEngine → AuthEngine) (w : World) : World :=
  mkWorld (heap w) (f (engine w)).

Definition set_roles (f : gmap string role_ptr → gmap string role_ptr)
    (e : AuthEngine) : AuthEngine :=
  mkAuthEngine (root_role e) (f (roles e)) (resources e) (permissions e) (services e).
Definition set_permissions (f : gmap string perm_ptr → gmap string perm_ptr)
    (e : AuthEngine) : AuthEngine :=
  mkAuthEngine (root_role e) (roles e) (resources e) (f (permissions e)) (services e).
Definition set_services (f : gmap string svc_ptr → gmap string svc_ptr)
    (e : AuthEngine) : AuthEngine :=
  mkAuthEngine (root_role e) (roles e) (resources e) (permissions e) (f (services e)).

Definition set_Tags (f : gmap string string → gmap string string) (r : Role) : Role :=
  mkRole (Role_ID r) (f (Tags r)) (Permissions r) (Subroles r) (Parent r).
Definition set_Permissions (f : gset perm_ptr → gset perm_ptr) (r : Role) : Role :=
  mkRole (Role_ID r) (Tags r) (f (Permissions r)) (Subroles r) (Parent r).
Definition set_Subroles (f : gset role_ptr → gset role_ptr) (r : Role) : Role :=
  mkRole (Role_ID r) (Tags r) (Permissions r) (f (Subroles r)) (Parent r).
Definition set_Parent (p : option role_ptr) (r : Role) : Role :=
  mkRole (Role_ID r) (Tags r) (Permissions r) (Subroles r) p.

(** [new(T)]: allocate at the end of the arena. *)
Definition alloc_role (r : Role) : M role_ptr :=
  λ w, (Ok (length (role_heap (heap w))), on_heap (set_role_heap (λ l, l ++ [r])) w).
Definition alloc_perm (p : Permission) : M perm_ptr :=
  λ w, (Ok (length (perm_heap (heap w))), on_heap (set_perm_heap (λ l, l ++ [p])) w).
Definition alloc_res (r : Resource) : M res_ptr :=
  λ w, (Ok (length (res_heap (heap w))), on_heap (set_res_heap (λ l, l ++ [r])) w).
Definition alloc_svc (s : Service) : M svc_ptr :=
  λ w, (Ok (length (svc_heap (heap w))), on_heap (set_svc_heap (λ l, l ++ [s])) w).

(** A store through a pointer: the object at [p] becomes [f] of itself. A
    pointer outside the arena does not occur in Go; a store through it is
    treated as a store through nil, a nil dereference. *)
Definition modify_role (p : role_ptr) (f : Role → Role) : M unit :=
  λ w, match role_heap (heap w) !! p with
       | Some _ => (Ok tt, on_heap (set_role_heap (alter f p)) w)
       | None => (Panicked NilDereference, w)
       end.
Definition modify_svc (p : svc_ptr) (f : Service → Service) : M unit :=
  λ w, match svc_heap (heap w) !! p with
       | Some _ => (Ok tt, on_heap (set_svc_heap (alter f p)) w)
       | None => (Panicked NilDereference, w)
       end.
Definition modify_perm (p : perm_ptr) (f : Permission → Permission) : M unit :=
  λ w, match perm_heap (heap w) !! p with
       | Some _ => (Ok tt, on_heap (set_perm_heap (alter f p)) w)
       | None => (Panicked NilDereference, w)
       end.

(** A load through a pointer; a pointer outside the arena does not occur
    in Go and is treated as a nil dereference. *)
Definition read_role (p : role_ptr) : M Role :=
  λ w, match role_heap (heap w) !! p with
       | Some r => (Ok r, w)
       | None => (Panicked NilDereference, w)
       end.

Definition modify_engine (f : AuthEngine → AuthEngine) : M unit :=
  λ w, (Ok tt, on_engine f w).
Definition get_engine : M AuthEngine := λ w, (Ok (engine w), w).
Definition raise {A} (p : panic) : M A := λ w, (Panicked p, w).

(** ** Wire-format descriptions

    Modelled from the spec: the declarations of [ActionJSON],
    [PermissionJSON], [RoleJSON] and [ServiceJSON] are missing from the
    sources; their fields are those the engine reads
    (server.go:703-728,771-777,798-807,816-819) with the shapes of the
    spec's section 6. *)
Record ActionJSON := mkActionJSON {
  ActionJSON_Service : string;
  ActionJSON_Resource : string;
  ActionJSON_Method : string
}.

Record PermissionJSON := mkPermissionJSON {
  PermissionJSON_ID : string;
  PermissionJSON_Action : ActionJSON;
  PermissionJSON_Constraints : Constraints
}.

#[local] Unset Elimination Schemes.
Inductive RoleJSON :=
  | mkRoleJSON (ID : string) (tags : gmap string string)
      (perms : list PermissionJSON) (subroles : list RoleJSON).
#[local] Set Elimination Schemes.

Definition RoleJSON_ID (r : RoleJSON) : string :=
  match r with mkRoleJSON ID _ _ _ => ID end.
Definition RoleJSON_Subroles (r : RoleJSON) : list RoleJSON :=
  match r with mkRoleJSON _ _ _ subroles => subroles end.
Definition RoleJSON_Permissions (r : RoleJSON) : list PermissionJSON :=
  match r with mkRoleJSON _ _ perms _ => perms end.

Record ServiceJSON := mkServiceJSON {
  ServiceJSON_ID : string;
  URIsToResources : gmap string string
}.

(** A [for ... range] loop over a slice, stopping at the first error. *)
Definition for_each {A} (l : list A) (body : A → M unit) : M unit :=
  (fix loop (l : list A) : M unit :=
     match l with
     | [] => ret tt
     | x :: l' => body x ;;; loop l'
     end) l.

(** server.go:860-864. [Roles] is a slice of role pointers; the action's
    [Service] and [Resource] are pointers as well. *)
Record authRequest := mkAuthRequest {
  authRequest_Roles : list (option role_ptr);
  authRequest_Action : Action;
  authRequest_Constraints : Constraints
}.

(** server.go:880-896. [Role_ID] is a [*string]: nil or the address of a
    role's [ID], read here as that identifier. *)
Record authResponse := mkAuthResponse {
  Auth : bool;
  authResponse_Role_ID : option string;
  PermissionGranting : option perm_ptr;
  PermissionsMismatching : list perm_ptr
}.

Section Model.

(** Modelled from the spec: which role identifiers [NewRole] rejects as
    malformed is decided by code missing from the sources and left open by
    the spec. *)
Context (malformed : string → bool).

(** [json.Unmarshal(body, request)] on a zero [authRequest], from Go's
    encoding/json: the request as filled in (the structs behind its
    pointers allocated on the heap) and the error returned. *)
Context (Unmarshal : list byte → World → (authRequest * option error) * World).

(** Modelled from the spec: what [role.validate] does when its receiver is
    nil is decided by code missing from the sources and left open by the
    spec: [None] when it panics on the nil pointer, or else the response
    it returns. *)
Context (validate_nil : option authResponse).

(** ** Constructors missing from the sources *)

(** Modelled from the spec: [NewRole] is missing from the sources; it
    "fails with InvalidIdentifier if the identifier is empty or malformed"
    and otherwise makes a role with that identifier, empty tags,
    permissions and subroles, and no parent. *)
Definition NewRole (ID : string) : M role_ptr :=
  if bool_decide (ID = EmptyString) || malformed ID then fail InvalidIdentifier
  else alloc_role (mkRole ID ∅ ∅ ∅ None).

(** Modelled from the spec: [newAction] is missing from the sources; the
    zero [Action], filled in by its caller. *)
Definition newAction : Action := mkAction None None EmptyString.

(** Modelled from the spec: [newPermission] is missing from the sources; a
    permission with the identifier and nothing else: no granting role. *)
Definition newPermission (ID : string) : M perm_ptr :=
  alloc_perm (mkPermission ID newAction ∅ ∅).

(** Modelled from the spec: [NewService] is missing from the sources; a
    service with the identifier and an empty alias table. *)
Definition NewService (ID : string) : M svc_ptr :=
  alloc_svc (mkService ID ∅).

(** Modelled from the spec: [NewResource] is missing from the sources; a
    floating resource with the given path. *)
Definition NewResource (ID : string) : M res_ptr :=
  alloc_res (mkResource ID).

(** Modelled from the spec: [ActionJSON.validateFields] is missing from the
    sources; it "fails with InvalidAction if service/resource/method
    identifiers are missing". *)
Definition validateFields (a : ActionJSON) : M unit :=
  if bool_decide (ActionJSON_Service a = EmptyString)
     || bool_decide (ActionJSON_Resource a = EmptyString)
     || bool_decide (ActionJSON_Method a = EmptyString)
  then fail InvalidAction else ret tt.

(** ** The engine *)

(** server.go:546-570 *)
Definition NewAuthEngine : result World :=
  let empty := mkWorld (mkHeap [] [] [] []) (mkAuthEngine 0 ∅ ∅ ∅ ∅) in
  match NewRole "root"%string empty with
  | (Ok root_role, w) =>
      Ok (mkWorld (heap w)
            (mkAuthEngine root_role {[ "root"%string := root_role ]} ∅ ∅ ∅))
  | (Err e, _) => Err e
  | (Panicked p, _) => Panicked p
  end.

(** server.go:573-579. Go ranges over a map in an order of its own:
    [order] is the order in which [range] yields the entries of
    [engine.roles], a permutation of the map's entries. *)
Definition ListRoleNames (order : list (string * role_ptr)) : M (list string) :=
  ret (order.*1).

(** server.go:583-589, with the entries of [engine.services] in [order]. *)
Definition ListServiceNames (order : list (string * svc_ptr)) : M (list string) :=
  ret (order.*1).

(** server.go:593-599, with the entries of [engine.resources] in [order]. *)
Definition ListResourceNames (order : list (string * res_ptr)) : M (list string) :=
  ret (order.*1).

(** server.go:602-608, with the entries of [engine.resources] in [order]. *)
Definition allResources (order : list (string * res_ptr)) : M (list res_ptr) :=
  ret (order.*2).

(** server.go:611-613; the looked-up pointer is nil when the key is absent. *)
Definition findResource (resourceID : string) : M (option res_ptr) :=
  let* e := get_engine in ret (resources e !! resourceID).

(** server.go:617-623, with the entries of [engine.roles] in [order]. *)
Definition allRoles (order : list (string * role_ptr)) : M (list role_ptr) :=
  ret (order.*2).

(** server.go:631-636: the loop over the roles, left at the first role
    that satisfies the predicate; [predicate] is called on the role
    object itself. *)
Fixpoint findRole_loop (predicate : Role → bool) (roles : list role_ptr)
    : M (option role_ptr) :=
  match roles with
  | [] => ret None
  | role :: roles' =>
      let* r := read_role role in
      if predicate r then ret (Some role) else findRole_loop predicate roles'
  end.

(** server.go:627-639; the error returned is always nil. *)
Definition findRole (predicate : Role → bool) (order : list (string * role_ptr))
    : M (option role_ptr) :=
  let* roles := allRoles order in
  findRole_loop predicate roles.

(** server.go:643-645 *)
Definition FindRoleNamed (ID : string) : M (option role_ptr) :=
  let* e := get_engine in ret (roles e !! ID).

(** server.go:648-650 *)
Definition FindServiceNamed (id : string) : M (option svc_ptr) :=
  let* e := get_engine in ret (services e !! id).

(** server.go:654-662 *)
Definition findOrCreateService (id : string) : M svc_ptr :=
  let* e := get_engine in
  match services e !! id with
  | Some service => ret service
  | None =>
      let* service := NewService id in
      modify_engine (set_services (<[id := service]>)) ;;;
      ret service
  end.

(** server.go:668-676: the new resource is returned, and not stored in
    [engine.resources]. *)
Definition findOrCreateResource (resourceID : string) : M res_ptr :=
  let* e := get_engine in
  match resources e !! resourceID with
  | Some resource => ret resource
  | None => NewResource resourceID
  end.

(** server.go:678-680 *)
Definition addNewRootNode (role : role_ptr) : M unit :=
  let* e := get_engine in
  modify_role (root_role e) (set_Subroles (λ s, {[role]} ∪ s)).

(** server.go:788-810 *)
Definition actionFromJSON (actionJSON : ActionJSON) : M Action :=
  validateFields actionJSON ;;;
  let action := newAction in
  let* service := findOrCreateService (ActionJSON_Service actionJSON) in
  let* resource := findOrCreateResource (ActionJSON_Resource actionJSON) in
  ret (mkAction (Some service) (Some resource) (ActionJSON_Method actionJSON)).

(** server.go:770-780: the permission is allocated first, then the action
    is resolved; nothing is written to [engine.permissions]. *)
Definition LoadPermissionFromJSON (permissionJSON : PermissionJSON) : M perm_ptr :=
  let* permission := newPermission (PermissionJSON_ID permissionJSON) in
  let* action := actionFromJSON (PermissionJSON_Action permissionJSON) in
  modify_perm permission (λ p,
    mkPermission (Permission_ID p) action
      (PermissionJSON_Constraints permissionJSON) (rolesGranting p)) ;;;
  ret permission.

(** server.go:700-745 *)
Fixpoint recursivelyLoadRoleFromJSON (roleJSON : RoleJSON) : M role_ptr :=
  match roleJSON with
  | mkRoleJSON ID tags perms subroles =>
    let* e := get_engine in
    match roles e !! ID with
    | Some _ => fail RoleAlreadyExists
    | None =>
      let* role := NewRole ID in
      modify_role role (set_Tags (λ t,
        map_fold (λ tag value t, <[tag := value]> t) t tags)) ;;;
      for_each perms (λ permissionJSON,
        let* permission := LoadPermissionFromJSON permissionJSON in
        modify_role role (set_Permissions (λ s, {[permission]} ∪ s))) ;;;
      for_each subroles (λ subroleJSON,
        let* subrole := recursivelyLoadRoleFromJSON subroleJSON in
        modify_role role (set_Subroles (λ s, {[subrole]} ∪ s))) ;;;
      let* r := read_role role in
      for_each (elements (Subroles r)) (λ subrole,
        modify_role subrole (set_Parent (Some role))) ;;;
      (* [role.ID] is the identifier [NewRole] was given *)
      modify_engine (set_roles (<[ID := role]>)) ;;;
      ret role
    end
  end.

(** server.go:684-693 *)
Definition LoadRoleFromJSON (roleJSON : RoleJSON) : M unit :=
  let* role := recursivelyLoadRoleFromJSON roleJSON in
  addNewRootNode role.

(** Modelled from the spec: [Role.update] is missing from the sources; it
    merges "another role's tags, permissions, and subroles into an existing
    role in place", "additive only": what the role has stays (also the
    value of a tag both roles have); the role joins the [rolesGranting] of
    the permissions it gains ("which roles currently include this
    permission", section 3 of the spec) and becomes the parent of the
    subroles it gains. The spec does not say what a call on a nil role
    does: as a Go method that writes the fields of its receiver, it is
    taken to dereference it. *)
Definition update (role : option role_ptr) (other : role_ptr) : M unit :=
  match role with
  | None => raise NilDereference
  | Some role =>
      let* o := read_role other in
      modify_role role (λ r,
        mkRole (Role_ID r) (Tags r ∪ Tags o) (Permissions r ∪ Permissions o)
          (Subroles r ∪ Subroles o) (Parent r)) ;;;
      for_each (elements (Permissions o)) (λ permission,
        modify_perm permission (λ p,
          mkPermission (Permission_ID p) (Permission_Action p)
            (Permission_Constraints p) ({[role]} ∪ rolesGranting p))) ;;;
      for_each (elements (Subroles o)) (λ subrole,
        modify_role subrole (set_Parent (Some role)))
  end.

(** server.go:749-757 *)
Definition updateRoleWithJSON (roleID : string) (additionJSON : RoleJSON) : M unit :=
  let* role := FindRoleNamed roleID in
  let* roleAdditions := recursivelyLoadRoleFromJSON additionJSON in
  update role roleAdditions.

(** server.go:762-766 *)
Definition dropPermissionIfOrphaned (permission : perm_ptr) : M unit :=
  λ w, match perm_heap (heap w) !! permission with
       | None => (Panicked NilDereference, w)
       | Some p =>
           if decide (size (rolesGranting p) = 0)
           then modify_engine (set_permissions (delete (Permission_ID p))) w
           else (Ok tt, w)
       end.

(** server.go:815-828. Go ranges over the map in an unspecified order; the
    order only decides which pointer each new resource gets. [service.ID]
    is the identifier [NewService] was given. *)
Definition LoadServiceFromJSON (serviceJSON : ServiceJSON) : M svc_ptr :=
  let* service := NewService (ServiceJSON_ID serviceJSON) in
  for_each (map_to_list (URIsToResources serviceJSON)) (λ kv,
    let* resource := findOrCreateResource kv.2 in
    modify_svc service (λ s,
      mkService (Service_ID s) (<[kv.1 := resource]> (uriToResource s)))) ;;;
  modify_engine (set_services (<[ServiceJSON_ID serviceJSON := service]>)) ;;;
  ret service.

(** server.go:832-839. The root role has no parent: detaching it
    dereferences nil. *)
Definition detachRole (role : role_ptr) : M unit :=
  let* r := read_role role in
  match Parent r with
  | None => raise NilDereference
  | Some parent =>
      modify_role parent (set_Subroles (λ s, s ∖ {[role]})) ;;;
      modify_engine (set_roles (delete (Role_ID r)))
  end.

(** Modelled from the spec: [Role.allSubroles] is missing from the sources;
    it "compute[s] a role's full descendant set". The descent is bounded
    by the number of roles on the heap, the depth of any tree in it. *)
Fixpoint descendants (fuel : nat) (h : list Role) (role : role_ptr) : list role_ptr :=
  match fuel with
  | 0 => []
  | S fuel =>
      match h !! role with
      | None => []
      | Some r =>
          flat_map (λ sub, sub :: descendants fuel h sub) (elements (Subroles r))
      end
  end.

(** Modelled from the spec: [Role.allSubroles], the descendants of the
    role in the heap as it is. *)
Definition allSubroles (role : role_ptr) : M (list role_ptr) :=
  λ w, (Ok (descendants (length (role_heap (heap w))) (role_heap (heap w)) role), w).

(** server.go:843-848 *)
Definition detachRoleRecursively (role : role_ptr) : M unit :=
  detachRole role ;;;
  let* subs := allSubroles role in
  for_each subs (λ subrole,
    let* s := read_role subrole in
    modify_engine (set_roles (delete (Role_ID s)))).

(** ** Parsing an authorization request *)

Definition with_Resource (r : option res_ptr) (request : authRequest) : authRequest :=
  mkAuthRequest (authRequest_Roles request)
    (mkAction (Action_Service (authRequest_Action request)) r
       (Action_Method (authRequest_Action request)))
    (authRequest_Constraints request).

(** server.go:866-876. The error of [json.Unmarshal] is not looked at
    before [request.Action.Resource.ID] is read, and is returned next to
    the request at the end. *)
Definition ParseRequest (body : list byte) : M (authRequest * option error) :=
  let* u := (λ w, let '(u, w') := Unmarshal body w in (Ok u, w')) in
  let request := u.1 in
  let err := u.2 in
  match Action_Resource (authRequest_Action request) with
  | None => raise NilDereference
  | Some p =>
      let* resourceID := (λ w, match res_heap (heap w) !! p with
                               | Some res => (Ok (Resource_ID res), w)
                               | None => (Panicked NilDereference, w)
                               end) in
      let* found := findResource resourceID in
      ret (with_Resource found request, err)
  end.

(** ** The evaluator of one role *)

(** Modelled from the spec: the match rule of [Role.validate], missing from
    the sources. The requested path matches the permission's path when the
    two are equal or the requested one extends it by a "/" and more. *)
Definition resource_matches (perm_path req_path : string) : bool :=
  bool_decide (perm_path = req_path)
  || String.prefix (perm_path +:+ "/") req_path.

(** Modelled from the spec: "Service identifiers equal, Method strings
    equal, and Resource match"; an action with a pointer that is nil
    matches nothing. *)
Definition action_matches (h : Heap) (p a : Action) : bool :=
  match Action_Service p ≫= (svc_heap h !!.), Action_Service a ≫= (svc_heap h !!.),
        Action_Resource p ≫= (res_heap h !!.), Action_Resource a ≫= (res_heap h !!.) with
  | Some sp, Some sa, Some rp, Some ra =>
      bool_decide (Service_ID sp = Service_ID sa)
      && bool_decide (Action_Method p = Action_Method a)
      && resource_matches (Resource_ID rp) (Resource_ID ra)
  | _, _, _, _ => false
  end.

(** Modelled from the spec: "every key in the Permission's Constraints
    mapping must be present in the request's Constraints mapping with an
    equal value". *)
Definition constraints_satisfied (required offered : Constraints) : bool :=
  bool_decide (map_Forall (λ k v, offered !! k = Some v) required).

(** Modelled from the spec: the two shapes of a role's verdict, "permit"
    with the granting role and permission, "deny" with the mismatching
    permissions. *)
Definition granted (ID : string) (p : perm_ptr) : authResponse :=
  mkAuthResponse true (Some ID) (Some p) [].
Definition denied (mismatching : list perm_ptr) : authResponse :=
  mkAuthResponse false None None mismatching.

(** Modelled from the spec: the permissions of one role, in turn. The
    first one that satisfies the request, or else those whose action
    matched and whose constraints did not ("recorded as mismatching"). *)
Fixpoint check_permissions (h : Heap) (ps : list perm_ptr) (action : Action)
    (constraints : Constraints) : option perm_ptr * list perm_ptr :=
  match ps with
  | [] => (None, [])
  | p :: ps' =>
      match perm_heap h !! p with
      | None => check_permissions h ps' action constraints
      | Some perm =>
          if action_matches h (Permission_Action perm) action then
            if constraints_satisfied (Permission_Constraints perm) constraints
            then (Some p, [])
            else let '(g, ms) := check_permissions h ps' action constraints in
                 (g, p :: ms)
          else check_permissions h ps' action constraints
      end
  end.

(** Modelled from the spec: [Role.validate] is missing from the sources.
    It looks for a satisfying permission in the role's own permission set
    and then in its subroles' subtrees ("traversal order within a role's
    subtree is unspecified") and reports the first one found, or else the
    mismatching permissions met. The descent is bounded as in
    [descendants]. *)
Fixpoint validate_from (fuel : nat) (h : Heap) (role : role_ptr) (action : Action)
    (constraints : Constraints) : authResponse :=
  match fuel with
  | 0 => denied []
  | S fuel =>
      match role_heap h !! role with
      | None => denied []
      | Some r =>
          match check_permissions h (elements (Permissions r)) action constraints with
          | (Some p, _) => granted (Role_ID r) p
          | (None, ms) =>
              foldr (λ sub acc,
                       let here := validate_from fuel h sub action constraints in
                       if Auth here then here
                       else if Auth acc then acc
                       else denied (PermissionsMismatching here
                                      ++ PermissionsMismatching acc))
                    (denied ms) (elements (Subroles r))
          end
      end
  end.

(** Modelled from the spec: [Role.validate] on a role that is not nil, the
    descent bounded by the number of roles on the heap. *)
Definition validate (h : Heap) (role : role_ptr) (action : Action)
    (constraints : Constraints) : authResponse :=
  validate_from (length (role_heap h)) h role action constraints.

(** ** CheckAuth: the fan-out over goroutines (server.go:900-972)

    [CheckAuth] starts one goroutine per entry of its [roles] slice and one
    that waits for them; the goroutines and [CheckAuth] itself share two
    channels, a wait group and [default_response]. Each goroutine is a
    small program counter, a step of one goroutine is atomic, and a
    schedule names the goroutine that steps next. *)

(** server.go:911-914. [order] is the order in which [range] yields the
    keys of [root_role.Subroles]; [make] gives a slice of that many nil
    pointers, to which the roles are appended. *)
Definition CheckAuth_roles (subroles : gset role_ptr) (order : list role_ptr)
    : list (option role_ptr) :=
  replicate (size subroles) None ++ (Some <$> order).

(** The goroutine of one role, server.go:943-961. *)
Inductive worker_pc :=
  | WValidate                           (* line 944: about to call role.validate *)
  | WSend (response : authResponse)     (* line 950: about to send the response *)
  | WLoad (ms : list perm_ptr)          (* line 958: about to read [*ps] *)
  | WStore (appended : list perm_ptr)   (* line 958: about to write [*ps] *)
  | WDone                               (* line 960: about to call wg.Done() *)
  | WExit.

(** The goroutine of server.go:937-940. *)
Inductive waiter_pc :=
  | WaitAll        (* line 938: in wg.Wait() *)
  | WaitClose      (* line 939: about to close done_channel *)
  | WaitExit.

(** [CheckAuth] itself from its [select] on (server.go:966-971), with the
    two deferred calls of lines 933 and 924, run in that order: the
    response to return, and before the second deferred call also the
    panic that the first one raised. *)
Inductive main_pc :=
  | MSelect
  | MDeferDone (r : authResponse)
  | MDeferResponse (r : authResponse + panic)
  | MReturned (r : authResponse)
  | MPanicked (p : panic).

Record cstate := mkCstate {
  main : main_pc;
  waiter : waiter_pc;
  workers : list worker_pc;
  response_channel : option authResponse;   (* the buffer of capacity 1 *)
  response_closed : bool;
  done_closed : bool;
  wg : nat;
  default_mismatching : list perm_ptr;      (* default_response.PermissionsMismatching *)
  crashed : option panic                    (* a panic in a spawned goroutine ends the process *)
}.

(** Who steps next. At the [select], when both channels are ready Go picks
    one case at random: [TMain b] prefers [done_channel] when [b] holds. *)
Inductive tid :=
  | TMain (prefer_done : bool)
  | TWaiter
  | TWorker (i : nat).

Definition CheckAuth_init (slice : list (option role_ptr)) : cstate :=
  mkCstate MSelect WaitAll (replicate (length slice) WValidate)
    None false false (length slice) [] None.

Definition set_main (m : main_pc) (s : cstate) : cstate :=
  mkCstate m (waiter s) (workers s) (response_channel s) (response_closed s)
    (done_closed s) (wg s) (default_mismatching s) (crashed s).
Definition set_waiter (x : waiter_pc) (s : cstate) : cstate :=
  mkCstate (main s) x (workers s) (response_channel s) (response_closed s)
    (done_closed s) (wg s) (default_mismatching s) (crashed s).
Definition set_worker (i : nat) (x : worker_pc) (s : cstate) : cstate :=
  mkCstate (main s) (waiter s) (<[i := x]> (workers s)) (response_channel s)
    (response_closed s) (done_closed s) (wg s) (default_mismatching s) (crashed s).
Definition set_response_channel (b : option authResponse) (s : cstate) : cstate :=
  mkCstate (main s) (waiter s) (workers s) b (response_closed s)
    (done_closed s) (wg s) (default_mismatching s) (crashed s).
Definition set_response_closed (b : bool) (s : cstate) : cstate :=
  mkCstate (main s) (waiter s) (workers s) (response_channel s) b
    (done_closed s) (wg s) (default_mismatching s) (crashed s).
Definition set_done_closed (b : bool) (s : cstate) : cstate :=
  mkCstate (main s) (waiter s) (workers s) (response_channel s) (response_closed s)
    b (wg s) (default_mismatching s) (crashed s).
Definition set_wg (n : nat) (s : cstate) : cstate :=
  mkCstate (main s) (waiter s) (workers s) (response_channel s) (response_closed s)
    (done_closed s) n (default_mismatching s) (crashed s).
Definition set_default_mismatching (ms : list perm_ptr) (s : cstate) : cstate :=
  mkCstate (main s) (waiter s) (workers s) (response_channel s) (response_closed s)
    (done_closed s) (wg s) ms (crashed s).
Definition crash (p : panic) (s : cstate) : cstate :=
  mkCstate (main s) (waiter s) (workers s) (response_channel s) (response_closed s)
    (done_closed s) (wg s) (default_mismatching s) (Some p).

(** server.go:904-909 with the mismatching permissions gathered so far. *)
Definition default_response (s : cstate) : authResponse :=
  mkAuthResponse false None None (default_mismatching s).

(** [role.validate(action, constraints)] as [CheckAuth] calls it on the
    entries of its slice (server.go:944), nil entries included: the
    response, or [None] when the call panics. *)
Definition Role_validate (h : Heap) (role : option role_ptr) (action : Action)
    (constraints : Constraints) : option authResponse :=
  match role with
  | None => validate_nil
  | Some p => Some (validate h p action constraints)
  end.

(** server.go:944-959: the call of [validate] and the branch on its result.
    In the granting branch [&role.ID] dereferences the role. *)
Definition worker_validate (h : Heap) (request : authRequest)
    (role : option role_ptr) : result worker_pc :=
  match Role_validate h role (authRequest_Action request)
          (authRequest_Constraints request) with
  | None => Panicked NilDereference
  | Some role_response =>
      if Auth role_response then
        match role ≫= (role_heap h !!.) with
        | None => Panicked NilDereference
        | Some r =>
            Ok (WSend (mkAuthResponse true (Some (Role_ID r))
                         (PermissionGranting role_response) []))
        end
      else Ok (WLoad (PermissionsMismatching role_response))
  end.

Definition step_worker (h : Heap) (request : authRequest)
    (slice : list (option role_ptr)) (i : nat) (s : cstate) : cstate :=
  match workers s !! i, slice !! i with
  | Some WValidate, Some role =>
      match worker_validate h request role with
      | Ok pc => set_worker i pc s
      | _ => crash NilDereference s
      end
  | Some (WSend response), _ =>
      if response_closed s then crash SendOnClosedChannel s
      else match response_channel s with
           | None => set_worker i WDone (set_response_channel (Some response) s)
           | Some _ => s                       (* buffer full: blocked *)
           end
  | Some (WLoad ms), _ => set_worker i (WStore (default_mismatching s ++ ms)) s
  | Some (WStore appended), _ => set_worker i WDone (set_default_mismatching appended s)
  | Some WDone, _ => set_worker i WExit (set_wg (pred (wg s)) s)
  | _, _ => s
  end.

Definition step_waiter (s : cstate) : cstate :=
  match waiter s with
  | WaitAll => if decide (wg s = 0) then set_waiter WaitClose s else s
  | WaitClose =>
      if done_closed s then crash CloseOfClosedChannel s
      else set_waiter WaitExit (set_done_closed true s)
  | WaitExit => s
  end.

Definition step_main (prefer_done : bool) (s : cstate) : cstate :=
  match main s with
  | MSelect =>
      match response_channel s, done_closed s with
      | Some response, true =>
          if prefer_done then set_main (MDeferDone (default_response s)) s
          else set_main (MDeferDone response) (set_response_channel None s)
      | Some response, false =>
          set_main (MDeferDone response) (set_response_channel None s)
      | None, true => set_main (MDeferDone (default_response s)) s
      | None, false => s                       (* nothing ready: blocked *)
      end
  | MDeferDone r =>
      (* line 933, deferred: close(done_channel) *)
      if done_closed s then set_main (MDeferResponse (inr CloseOfClosedChannel)) s
      else set_main (MDeferResponse (inl r)) (set_done_closed true s)
  | MDeferResponse r =>
      (* line 924, deferred: close(response_channel); it runs also while
         the panic of the first deferred call unwinds *)
      set_response_closed true
        (set_main (match r with
                   | inl r => MReturned r
                   | inr p => MPanicked p
                   end) s)
  | MReturned _ | MPanicked _ => s
  end.

Definition step (h : Heap) (request : authRequest)
    (slice : list (option role_ptr)) (t : tid) (s : cstate) : cstate :=
  match crashed s with
  | Some _ => s
  | None =>
      match t with
      | TMain b => step_main b s
      | TWaiter => step_waiter s
      | TWorker i => step_worker h request slice i s
      end
  end.

Definition run (h : Heap) (request : authRequest)
    (slice : list (option role_ptr)) (sched : list tid) (s : cstate) : cstate :=
  foldl (λ s t, step h request slice t s) s sched.

(** server.go:900-972: [CheckAuth] under a schedule, for the order in which
    the subroles of the root are ranged over. The root role is read through
    [engine.root_role]. *)
Definition CheckAuth (order : list role_ptr) (sched : list tid)
    (request : authRequest) (w : World) : option cstate :=
  r ← role_heap (heap w) !! root_role (engine w);
  let slice := CheckAuth_roles (Subroles r) order in
  Some (run (heap w) request slice sched (CheckAuth_init slice)).

(** What the caller of [CheckAuth] gets: nothing yet, a response, or the
    panic that unwinds [CheckAuth]. *)
Definition returned (s : cstate) : option (result authResponse) :=
  match main s with
  | MReturned r => Some (Ok r)
  | MPanicked p => Some (Panicked p)
  | _ => None
  end.

(** ** Sequences of load operations *)

Inductive load_op :=
  | OpLoadRole (roleJSON : RoleJSON)
  | OpUpdateRole (roleID : string) (additionJSON : RoleJSON)
  | OpLoadService (serviceJSON : ServiceJSON)
  | OpLoadPermission (permissionJSON : PermissionJSON).

(** The world a load operation leaves behind, whatever it returns. *)
Definition apply_op (op : load_op) (w : World) : World :=
  match op with
  | OpLoadRole r => (LoadRoleFromJSON r w).2
  | OpUpdateRole roleID r => (updateRoleWithJSON roleID r w).2
  | OpLoadService s => (LoadServiceFromJSON s w).2
  | OpLoadPermission p => (LoadPermissionFromJSON p w).2
  end.

Definition apply_ops (ops : list load_op) (w : World) : World :=
  foldl (λ w op, apply_op op w) w ops.

(** ** Sequences of engine operations *)

Inductive engine_op :=
  | OpLoad (op : load_op)
  | OpDetachRole (role : role_ptr)
  | OpDetachRoleRecursively (role : role_ptr)
  | OpDropPermissionIfOrphaned (permission : perm_ptr).

(** The world an operation leaves behind, whatever it returns and also
    when it panics. *)
Definition run_op (op : engine_op) (w : World) : World :=
  match op with
  | OpLoad op => apply_op op w
  | OpDetachRole role => (detachRole role w).2
  | OpDetachRoleRecursively role => (detachRoleRecursively role w).2
  | OpDropPermissionIfOrphaned permission => (dropPermissionIfOrphaned permission w).2
  end.

Definition run_ops (ops : list engine_op) (w : World) : World :=
  foldl (λ w op, run_op op w) w ops.

(** The operations that go through [Role.update], the one method among
    those an operation calls on existing objects that is missing from the
    sources. *)
Definition updates (op : engine_op) : bool :=
  match op with
  | OpLoad (OpUpdateRole _ _) => true
  | _ => false
  end.

(** ** Descriptions that pass every check but the name check *)

Definition valid_ID (ID : string) : bool :=
  negb (bool_decide (ID = EmptyString) || malformed ID).

Definition valid_action (a : ActionJSON) : bool :=
  negb (bool_decide (ActionJSON_Service a = EmptyString)
        || bool_decide (ActionJSON_Resource a = EmptyString)
        || bool_decide (ActionJSON_Method a = EmptyString)).

Fixpoint valid_description (roleJSON : RoleJSON) : bool :=
  match roleJSON with
  | mkRoleJSON ID _ perms subroles =>
      valid_ID ID
      && forallb (λ p, valid_action (PermissionJSON_Action p)) perms
      && forallb valid_description subroles
  end.

End Model.

(** The identifiers of all the nodes of a role description. *)
Fixpoint role_ids (roleJSON : RoleJSON) : list string :=
  match roleJSON with
  | mkRoleJSON ID _ _ subroles => ID :: flat_map role_ids subroles
  end.

(** The first failure among the subroles of a node, loaded in order: each
    is checked against the names the index held when the node was entered
    and the names of the siblings loaded before it (server.go:728-734). *)
Definition siblings_failure (node_failure : gset string → RoleJSON → option error)
    : list RoleJSON → gset string → option error :=
  fix go subroles names :=
    match subroles with
    | [] => None
    | subroleJSON :: subroles' =>
        match node_failure names subroleJSON with
        | Some e => Some e
        | None => go subroles' (names ∪ list_to_set (role_ids subroleJSON))
        end
    end.

(** The first check that fails when [recursivelyLoadRoleFromJSON] visits a
    description, [names] being the keys of [engine.roles]: at each node the
    name check (server.go:703-707), then the identifier check of [NewRole]
    (709-712), then the actions of the node's permissions in order
    (719-725), then the subroles in order (728-734). A node is registered
    after its subroles (742), so its own name is not among the names its
    subtree is checked against. *)
Fixpoint first_failure (malformed : string → bool) (names : gset string)
    (roleJSON : RoleJSON) : option error :=
  match roleJSON with
  | mkRoleJSON ID _ perms subroles =>
      if bool_decide (ID ∈ names) then Some RoleAlreadyExists
      else if negb (valid_ID malformed ID) then Some InvalidIdentifier
      else if negb (forallb (λ p, valid_action (PermissionJSON_Action p)) perms)
      then Some InvalidAction
      else siblings_failure (first_failure malformed) subroles names
  end.

(** * The server and its builder (server.go:20-57)

    The database handle, the JWT application and the logger are objects of
    other packages: handles, nil or not. *)
Abbreviation handle := nat (only parsing).

(** The [LogHandler] that [WithLogger] wraps the logger in
    (server.go:31). *)
Record LogHandler := mkLogHandler { LogHandler_logger : option handle }.

(** server.go:20-24 *)
Record Server := mkServer {
  db : option handle;
  jwtApp : option handle;
  logger : option LogHandler
}.

(** server.go:26-28 *)
Definition NewServer : Server := mkServer None None None.

(** server.go:30-33: the field is set to a new [LogHandler], whatever the
    logger given. *)
Definition WithLogger (l : option handle) (server : Server) : Server :=
  mkServer (db server) (jwtApp server) (Some (mkLogHandler l)).

(** server.go:35-38 *)
Definition WithJWTApp (j : option handle) (server : Server) : Server :=
  mkServer (db server) j (logger server).

(** server.go:40-43 *)
Definition WithDB (d : option handle) (server : Server) : Server :=
  mkServer d (jwtApp server) (logger server).

(** server.go:45-57: the server itself, or the message of the error. *)
Definition Init (server : Server) : Server + string :=
  match db server with
  | None => inr "arborist server initialized without database"%string
  | Some _ =>
      match jwtApp server with
      | None => inr "arborist server initialized without JWT app"%string
      | Some _ =>
          match logger server with
          | None => inr "arborist server initialized without logger"%string
          | Some _ => inl server
          end
      end
  end.

(** A chain of builder calls on a new server. *)
Inductive builder_call :=
  | CallWithLogger (l : option handle)
  | CallWithJWTApp (j : option handle)
  | CallWithDB (d : option handle).

Definition call (c : builder_call) (server : Server) : Server :=
  match c with
  | CallWithLogger l => WithLogger l server
  | CallWithJWTApp j => WithJWTApp j server
  | CallWithDB d => WithDB d server
  end.

Definition build (calls : list builder_call) : Server :=
  foldl (λ server c, call c server) NewServer calls.

(** The argument of the last call of one builder in the chain, nil when
    the chain has no such call. *)
Definition last_arg (sel : builder_call → option (option handle))
    (calls : list builder_call) : option handle :=
  default None (last (omap sel calls)).
Definition db_arg (c : builder_call) : option (option handle) :=
  match c with CallWithDB d => Some d | _ => None end.
Definition jwtApp_arg (c : builder_call) : option (option handle) :=
  match c with CallWithJWTApp j => Some j | _ => None end.
Definition logger_called (c : builder_call) : bool :=
  match c with CallWithLogger _ => true | _ => false end.

(** ** What a load may change

    [extends w w']: every object of [w]'s heap is unchanged in [w'], which
    may hold more objects; the root pointer and the permission and resource
    registries are the same; the role and service registries of [w'] hold
    every entry of [w]'s, unchanged. *)
Definition heap_extends (h h' : Heap) : Prop :=
  role_heap h `prefix_of` role_heap h'
  ∧ perm_heap h `prefix_of` perm_heap h'
  ∧ res_heap h `prefix_of` res_heap h'
  ∧ svc_heap h `prefix_of` svc_heap h'.

Definition registries_grow (e e' : AuthEngine) : Prop :=
  root_role e' = root_role e
  ∧ roles e ⊆ roles e'
  ∧ resources e' = resources e
  ∧ permissions e' = permissions e
  ∧ services e ⊆ services e'.

Definition extends (w w' : World) : Prop :=
  heap_extends (heap w) (heap w') ∧ registries_grow (engine w) (engine w').

(** The result and the final world of a call satisfy [Q]. *)
Definition wp {A} (m : M A) (w : World) (Q : result A → World → Prop) : Prop :=
  Q (m w).1 (m w).2.

(** A call never writes [engine.permissions]. *)
Definition keeps_permissions {A} (m : M A) : Prop :=
  ∀ w, permissions (engine (m w).2) = permissions (engine w).

(** What [recursivelyLoadRoleFromJSON] guarantees when started in [w]: the
    world only grows, the call does not panic, and a role it returns is a
    new object. *)
Definition load_post (w : World) (r : result role_ptr) (w' : World) : Prop :=
  extends w w'
  ∧ match r with
    | Ok p => length (role_heap (heap w)) ≤ p < length (role_heap (heap w'))
    | Err _ => True
    | Panicked _ => False
    end.

(** While the node allocated at [n] is being built from [w]: the world has
    only grown, and the subroles of the node are objects of the heap, newer
    than the node. *)
Definition building (w : World) (n : role_ptr) (w' : World) : Prop :=
  extends w w'
  ∧ length (role_heap (heap w)) ≤ n
  ∧ ∃ r, role_heap (heap w') !! n = Some r
         ∧ ∀ s, s ∈ Subroles r → n ≤ s < length (role_heap (heap w')).

(** Every response on its way to the caller of [CheckAuth] is a grant,
    except a denial picked up after [done_channel] was closed. *)
Definition main_ok (m : main_pc) (closed : bool) : Prop :=
  match m with
  | MSelect => True
  | MDeferDone r => Auth r = false → closed = true
  | MDeferResponse (inl r) => Auth r = true
  | MDeferResponse (inr p) => p = CloseOfClosedChannel
  | MReturned r => Auth r = true
  | MPanicked p => p = CloseOfClosedChannel
  end.

Definition grants_only (s : cstate) : Prop :=
  (∀ r, response_channel s = Some r → Auth r = true)
  ∧ (∀ i r, workers s !! i = Some (WSend r) → Auth r = true)
  ∧ main_ok (main s) (done_closed s).

(** ** Example data *)

Definition no_malformed : string → bool := λ _, false.

(** The engine as [NewAuthEngine] makes it when "root" is a valid name. *)
Definition fresh_engine : World :=
  mkWorld (mkHeap [mkRole "root" ∅ ∅ ∅ None] [] [] [])
    (mkAuthEngine 0 {[ "root"%string := 0 ]} ∅ ∅ ∅).

(** The spec's end-to-end scenario: role "analyst" with permission "p1". *)
Definition p1_JSON : PermissionJSON :=
  mkPermissionJSON "p1" (mkActionJSON "data" "/studies/1" "read") ∅.
Definition analyst_JSON : RoleJSON := mkRoleJSON "analyst" ∅ [p1_JSON] [].
Definition analyst_engine : World :=
  (LoadRoleFromJSON no_malformed analyst_JSON fresh_engine).2.

(** A description whose second subrole reuses the name "root". *)
Definition clashing_JSON : RoleJSON :=
  mkRoleJSON "a" ∅ []
    [mkRoleJSON "b" ∅ [p1_JSON] []; mkRoleJSON "root" ∅ [] []].

(** A description whose own permission has no service, above a subrole
    that reuses the name "root". *)
Definition invalid_action_JSON : RoleJSON :=
  mkRoleJSON "a" ∅ [mkPermissionJSON "p" (mkActionJSON EmptyString "/r" "read") ∅]
    [mkRoleJSON "root" ∅ [] []].

(** A description whose subrole has the name of its parent, the engine
    after it is loaded, and that engine after the subrole is detached. *)
Definition twin_JSON : RoleJSON :=
  mkRoleJSON "A" ∅ [] [mkRoleJSON "A" ∅ [] []].
Definition twin_engine : World :=
  (LoadRoleFromJSON no_malformed twin_JSON fresh_engine).2.
Definition twin_detached : World := (detachRole 2 twin_engine).2.

(** A request that names no role, for "read" on "/studies/1" through
    "data": the service and resource objects of [analyst_engine]. *)
Definition roleless_request : authRequest :=
  mkAuthRequest [] (mkAction (Some 0) (Some 0) "read") ∅.

Definition zero_request : authRequest :=
  mkAuthRequest [] (mkAction None None EmptyString) ∅.

(** A stand-in for [json.Unmarshal]. The empty object "{}" fills in
    nothing. The one-byte body "r" stands for a request whose resource is
    "/nope". The one-byte body "t" stands for a request with the resource
    "/studies/1" and then a field of the wrong type: the decoder fills in
    the resource, goes on, and returns the type error. Every other body
    is not JSON: the decoder returns the syntax error and does not write
    the request. *)
Definition toy_Unmarshal (body : list byte) (w : World)
    : (authRequest * option error) * World :=
  match body with
  | [x7b; x7d] => ((zero_request, None), w)
  | [x72] =>
      ((with_Resource (Some (length (res_heap (heap w)))) zero_request, None),
       on_heap (set_res_heap (λ l, l ++ [mkResource "/nope"])) w)
  | [x74] =>
      ((with_Resource (Some (length (res_heap (heap w)))) zero_request,
        Some UnmarshalError),
       on_heap (set_res_heap (λ l, l ++ [mkResource "/studies/1"])) w)
  | _ => ((zero_request, Some UnmarshalError), w)
  end.

(** ** What a loaded subtree looks like *)

(** Every registry entry points to an object that carries the entry's key
    as its identifier. *)
Definition engine_consistent (w : World) : Prop :=
  (∀ k p, roles (engine w) !! k = Some p →
          Role_ID <$> role_heap (heap w) !! p = Some k)
  ∧ (∀ k s, services (engine w) !! k = Some s →
            Service_ID <$> svc_heap (heap w) !! s = Some k)
  ∧ (∀ k x, resources (engine w) !! k = Some x →
            Resource_ID <$> res_heap (heap w) !! x = Some k)
  ∧ (∀ k q, permissions (engine w) !! k = Some q →
            Permission_ID <$> perm_heap (heap w) !! q = Some k).

(** A consistent engine whose root pointer is a role object. *)
Definition engine_ok (w : World) : Prop :=
  engine_consistent w ∧ root_role (engine w) < length (role_heap (heap w)).

(** A call keeps the engine well formed, whatever its outcome. *)
Definition keeps_ok {A} (m : M A) : Prop :=
  ∀ w, engine_ok w → engine_ok (m w).2.

(** A call never writes [engine.resources]. *)
Definition keeps_resources {A} (m : M A) : Prop :=
  ∀ w, resources (engine (m w).2) = resources (engine w).

(** The permission object at [q] is what [LoadPermissionFromJSON] makes of
    the description [pj]. *)
Definition perm_at (h : Heap) (q : perm_ptr) (pj : PermissionJSON) : Prop :=
  ∃ perm s r,
    perm_heap h !! q = Some perm
    ∧ Permission_ID perm = PermissionJSON_ID pj
    ∧ Permission_Constraints perm = PermissionJSON_Constraints pj
    ∧ rolesGranting perm = ∅
    ∧ Permission_Action perm
      = mkAction (Some s) (Some r) (ActionJSON_Method (PermissionJSON_Action pj))
    ∧ Service_ID <$> svc_heap h !! s
      = Some (ActionJSON_Service (PermissionJSON_Action pj))
    ∧ Resource_ID <$> res_heap h !! r
      = Some (ActionJSON_Resource (PermissionJSON_Action pj)).

(** The role objects at the pointers [p], ..., [hi - 1] are the subtree
    that [recursivelyLoadRoleFromJSON] builds for the description: the
    node itself at [p] with the description's identifier and tags, one
    permission object per permission description, and its subroles laid
    out one subtree after the other, each subrole with the node as its
    parent. *)
Fixpoint tree_in (h : Heap) (roleJSON : RoleJSON) (p hi : nat) : Prop :=
  match roleJSON with
  | mkRoleJSON ID tags perms subroles =>
      ∃ r ps ss,
        role_heap h !! p = Some r
        ∧ Role_ID r = ID
        ∧ Tags r = tags
        ∧ Permissions r = list_to_set ps
        ∧ NoDup ps
        ∧ Forall2 (perm_at h) ps perms
        ∧ Subroles r = list_to_set ss
        ∧ Forall (λ s, Parent <$> role_heap h !! s = Some (Some p)) ss
        ∧ (fix children (subroles : list RoleJSON) (ss : list nat) (lo : nat) : Prop :=
             match subroles, ss with
             | [], [] => lo = hi
             | subroleJSON :: subroles', s :: ss' =>
                 s = lo ∧ ∃ mid, tree_in h subroleJSON s mid ∧ children subroles' ss' mid
             | _, _ => False
             end) subroles ss (S p)
  end.

(** The subtrees of the descriptions [subroles], at the pointers [ss], laid
    out one after the other from [lo] to [hi]. *)
Fixpoint children_in (h : Heap) (subroles : list RoleJSON) (ss : list nat)
    (lo hi : nat) : Prop :=
  match subroles, ss with
  | [], [] => lo = hi
  | subroleJSON :: subroles', s :: ss' =>
      s = lo ∧ ∃ mid, tree_in h subroleJSON s mid ∧ children_in h subroles' ss' mid hi
  | _, _ => False
  end.

(** Between two heaps, the subtree at [p], ..., [hi - 1] is kept: the role
    objects above [p] are the same, the one at [p] is the same but for its
    parent, and the other objects that existed are the same. *)
Definition subtree_kept (p hi : nat) (h h' : Heap) : Prop :=
  (∀ q, p < q < hi → role_heap h' !! q = role_heap h !! q)
  ∧ (∀ r, role_heap h !! p = Some r →
          ∃ x, role_heap h' !! p = Some (set_Parent x r))
  ∧ perm_heap h `prefix_of` perm_heap h'
  ∧ res_heap h `prefix_of` res_heap h'
  ∧ svc_heap h `prefix_of` svc_heap h'.

(** The role object at [n] while [recursivelyLoadRoleFromJSON] builds it:
    identifier and tags of the description, no parent, the permissions
    [ps] and the subroles [ss] loaded so far. *)
Definition node_at (h : Heap) (n : role_ptr) (ID : string)
    (tags : gmap string string) (ps : list perm_ptr) (ss : list role_ptr) : Prop :=
  ∃ r, role_heap h !! n = Some r
       ∧ Role_ID r = ID
       ∧ Tags r = tags
       ∧ Parent r = None
       ∧ Permissions r = list_to_set ps
       ∧ Subroles r = list_to_set ss.

(** No two subroles of one node use a common name anywhere in their
    subtrees, at every node of the description; a node may have the name
    of a node above it. *)
Fixpoint distinct_siblings (roleJSON : RoleJSON) : bool :=
  match roleJSON with
  | mkRoleJSON _ _ _ subroles =>
      (fix go (subroles : list RoleJSON) (seen : list string) : bool :=
         match subroles with
         | [] => true
         | subroleJSON :: subroles' =>
             distinct_siblings subroleJSON
             && forallb (λ id, bool_decide (id ∉ seen)) (role_ids subroleJSON)
             && go subroles' (seen ++ role_ids subroleJSON)
         end) subroles []
  end.

(** The subtrees of [subroles] use no name of a subtree before them. *)
Definition fresh_siblings (subroles : list RoleJSON) : Prop :=
  ∀ pre subroleJSON post, subroles = pre ++ subroleJSON :: post →
    ∀ id, id ∈ role_ids subroleJSON → id ∉ flat_map role_ids pre.

(** ** The goroutines of [CheckAuth] taken together *)

Definition exited (pc : worker_pc) : bool :=
  match pc with WExit => true | _ => false end.

(** The role goroutines that have not called [wg.Done()] yet. *)
Fixpoint pending (ws : list worker_pc) : nat :=
  match ws with
  | [] => 0
  | pc :: ws' => (if exited pc then 0 else 1) + pending ws'
  end.

(** [CheckAuth] has run its deferred [close(done_channel)] and the close
    went through. *)
Definition main_closed_done (m : main_pc) : bool :=
  match m with
  | MDeferResponse (inl _) | MReturned _ => true
  | _ => false
  end.

(** What holds of the wait group and the two closes of [done_channel] in
    every state of a run. *)
Definition barrier (slice : list (option role_ptr)) (s : cstate) : Prop :=
  length (workers s) = length slice
  ∧ wg s = pending (workers s)
  ∧ (waiter s ≠ WaitAll → wg s = 0)
  ∧ (waiter s = WaitExit → done_closed s = true ∧ main_closed_done (main s) = false)
  ∧ (main_closed_done (main s) = true → done_closed s = true)
  ∧ (∀ r, main s = MReturned r → response_closed s = true)
  ∧ (main s = MSelect → done_closed s = true → waiter s = WaitExit).

(** No goroutine can take a step that changes the state. *)
Definition quiescent (validate_nil : option authResponse) (h : Heap)
    (request : authRequest) (slice : list (option role_ptr)) (s : cstate) : Prop :=
  ∀ t, step validate_nil h request slice t s = s.

(** A role with a tag and a permission over two subroles, the second with
    a subrole of its own, and the engine after it is loaded. *)
Definition team_JSON : RoleJSON :=
  mkRoleJSON "team" {[ "kind"%string := "group"%string ]} [p1_JSON]
    [mkRoleJSON "lead" ∅ [] [];
     mkRoleJSON "member" ∅ [p1_JSON] [mkRoleJSON "guest" ∅ [] []]].
Definition team_engine : World :=
  (LoadRoleFromJSON no_malformed team_JSON fresh_engine).2.

(** A service with one alias, and a role to add to "analyst". *)
Definition data_JSON : ServiceJSON :=
  mkServiceJSON "data" {[ "/s1"%string := "/studies/1"%string ]}.
Definition extra_JSON : RoleJSON := mkRoleJSON "extra" ∅ [] [].

(** The run of [CheckAuth] in the engine without roles: the waiting
    goroutine closes [done_channel], then [CheckAuth] takes that case of
    its select and runs its two deferred closes. *)
Definition idle_schedule : list tid :=
  [TWaiter; TWaiter; TMain false; TMain false; TMain false].
Definition idle_run : cstate :=
  run None (heap fresh_engine) zero_request (CheckAuth_roles ∅ [])
    idle_schedule (CheckAuth_init (CheckAuth_roles ∅ [])).

(** A run of [CheckAuth] in the engine with the role "analyst", where
    validate on nil is taken to deny: the goroutine of the nil entry and
    the one of "analyst" both find the empty request denied and run to
    their end, and only then does the waiting goroutine get past
    [wg.Wait()] and close [done_channel]. *)
Definition busy_schedule : list tid :=
  [TWorker 0; TWorker 0; TWorker 0; TWorker 0;
   TWorker 1; TWorker 1; TWorker 1; TWorker 1; TWaiter; TWaiter].
Definition busy_run : cstate :=
  run (Some (denied [])) (heap analyst_engine) zero_request
    (CheckAuth_roles {[1]} [1]) busy_schedule
    (CheckAuth_init (CheckAuth_roles {[1]} [1])).

(** A call keeps [I], whatever its outcome. *)
Definition keeps_inv {A} (I : World → Prop) (m : M A) : Prop :=
  ∀ w, I w → I (m w).2.

(** No permission is registered and no permission object has a granting
    role. *)
Definition unowned (w : World) : Prop :=
  permissions (engine w) = ∅
  ∧ Forall (λ p, rolesGranting p = ∅) (perm_heap (heap w)).

(** * Properties *)

Section Properties.

Context (malformed : string → bool).
Context (Unmarshal : list byte → World → (authRequest * option error) * World).
Context (validate_nil : option authResponse).

(** ** Rules for calls *)

Lemma wp_bind {A B} (m : M A) (k : A → M B) w (Q : result B → World → Prop) :
  wp m w (λ r w', match r with
                  | Ok a => wp (k a) w' Q
                  | Err e => Q (Err e) w'
                  | Panicked p => Q (Panicked p) w'
                  end) →
  wp (bind m k) w Q.
Proof.
  unfold wp, bind. destruct (m w) as [[a|e|p] w']; simpl; auto.
Qed.

Lemma wp_mono {A} (m : M A) w (Q Q' : result A → World → Prop) :
  wp m w Q → (∀ r w', Q r w' → Q' r w') → wp m w Q'.
Proof. unfold wp. auto. Qed.

(** A store through a pointer: it goes through when the pointer is an
    object of the arena, and is a nil dereference otherwise. *)
Lemma wp_modify_role p f w (Q : result unit → World → Prop) :
  (∀ r, role_heap (heap w) !! p = Some r →
        Q (Ok tt) (on_heap (set_role_heap (alter f p)) w)) →
  (role_heap (heap w) !! p = None → Q (Panicked NilDereference) w) →
  wp (modify_role p f) w Q.
Proof.
  intros Hsome Hnone. unfold wp, modify_role.
  destruct (role_heap (heap w) !! p) as [r|] eqn:Hp; simpl; eauto.
Qed.

Lemma modify_role_Some p f w r :
  role_heap (heap w) !! p = Some r →
  modify_role p f w = (Ok tt, on_heap (set_role_heap (alter f p)) w).
Proof. intros Hp. unfold modify_role. by rewrite Hp. Qed.

(** A store leaves the world as it was, or changes the one object. *)
Lemma modify_role_world p f w :
  (modify_role p f w).2 = w
  ∨ (modify_role p f w).2 = on_heap (set_role_heap (alter f p)) w.
Proof. unfold modify_role. destruct (_ !! _); simpl; auto. Qed.

Lemma modify_perm_world p f w :
  (modify_perm p f w).2 = w
  ∨ (modify_perm p f w).2 = on_heap (set_perm_heap (alter f p)) w.
Proof. unfold modify_perm. destruct (_ !! _); simpl; auto. Qed.

Lemma modify_svc_world p f w :
  (modify_svc p f w).2 = w
  ∨ (modify_svc p f w).2 = on_heap (set_svc_heap (alter f p)) w.
Proof. unfold modify_svc. destruct (_ !! _); simpl; auto. Qed.

(** The store to an object that was just allocated goes through. *)
Lemma modify_new_role r f w :
  modify_role (length (role_heap (heap w))) f
    (on_heap (set_role_heap (λ l, l ++ [r])) w)
  = (Ok tt, on_heap (set_role_heap (alter f (length (role_heap (heap w)))))
              (on_heap (set_role_heap (λ l, l ++ [r])) w)).
Proof. apply (modify_role_Some _ _ _ r). simpl. by apply list_lookup_middle. Qed.

Lemma modify_perm_Some p f w x :
  perm_heap (heap w) !! p = Some x →
  modify_perm p f w = (Ok tt, on_heap (set_perm_heap (alter f p)) w).
Proof. intros Hp. unfold modify_perm. by rewrite Hp. Qed.

Lemma modify_svc_Some p f w x :
  svc_heap (heap w) !! p = Some x →
  modify_svc p f w = (Ok tt, on_heap (set_svc_heap (alter f p)) w).
Proof. intros Hp. unfold modify_svc. by rewrite Hp. Qed.

Lemma addNewRootNode_unfold role w :
  addNewRootNode role w
  = match role_heap (heap w) !! root_role (engine w) with
    | Some _ =>
        (Ok tt, on_heap (set_role_heap (alter (set_Subroles (λ s, {[role]} ∪ s))
                                          (root_role (engine w)))) w)
    | None => (Panicked NilDereference, w)
    end.
Proof. reflexivity. Qed.

(** A loop with invariant [I]: an iteration that returns keeps [I], one
    that fails or panics ends the loop with its outcome. *)
Lemma wp_for_each {A} (I : World → Prop) (Q : result unit → World → Prop)
    (l : list A) (body : A → M unit) w :
  I w →
  (∀ x w, x ∈ l → I w →
     wp (body x) w (λ r w', match r with
                            | Ok _ => I w'
                            | Err e => Q (Err e) w'
                            | Panicked p => Q (Panicked p) w'
                            end)) →
  (∀ w, I w → Q (Ok tt) w) →
  wp (for_each l body) w Q.
Proof.
  revert w. induction l as [|x l IH]; intros w Hw Hbody Hend.
  - apply Hend, Hw.
  - change (for_each (x :: l) body) with (bind (body x) (λ _, for_each l body)).
    apply wp_bind. eapply wp_mono; [apply (Hbody x w); [left | exact Hw]|].
    intros [[]|e|p] w' H; simpl in *; auto.
    apply IH; auto. intros y w'' Hy. apply Hbody. by right.
Qed.

(** A loop with an invariant over the part of the slice gone through. *)
Lemma wp_for_each_prefix {A} (I : list A → World → Prop)
    (Q : result unit → World → Prop) (l : list A) (body : A → M unit) w :
  I [] w →
  (∀ pre x post w, l = pre ++ x :: post → I pre w →
     wp (body x) w (λ r w', match r with
                            | Ok _ => I (pre ++ [x]) w'
                            | Err e => Q (Err e) w'
                            | Panicked p => Q (Panicked p) w'
                            end)) →
  (∀ w, I l w → Q (Ok tt) w) →
  wp (for_each l body) w Q.
Proof.
  intros H0 Hbody Hend.
  cut (∀ rest pre w, l = pre ++ rest → I pre w → wp (for_each rest body) w Q).
  { intros H. by apply (H l [] w). }
  clear w H0. induction rest as [|x rest IH]; intros pre w Hl Hpre.
  - rewrite app_nil_r in Hl. subst pre. by apply Hend.
  - change (for_each (x :: rest) body) with (bind (body x) (λ _, for_each rest body)).
    apply wp_bind. eapply wp_mono; [by apply (Hbody pre x rest w)|].
    intros [[]|e|p] w' H; simpl in *; auto.
    apply (IH (pre ++ [x])); [|done]. by rewrite <- app_assoc.
Qed.

(** ** The permission registry is never written by a load *)

Lemma keeps_permissions_bind {A B} (m : M A) (k : A → M B) :
  keeps_permissions m → (∀ a, keeps_permissions (k a)) →
  keeps_permissions (bind m k).
Proof.
  intros Hm Hk w. unfold bind. specialize (Hm w).
  destruct (m w) as [[a|e|p] w']; simpl in *; auto.
  by rewrite Hk.
Qed.

Lemma keeps_permissions_for_each {A} (l : list A) (body : A → M unit) :
  (∀ x, keeps_permissions (body x)) → keeps_permissions (for_each l body).
Proof.
  intros Hbody. induction l as [|x l IH]; [done|].
  change (for_each (x :: l) body) with (bind (body x) (λ _, for_each l body)).
  apply keeps_permissions_bind; auto.
Qed.

Lemma keeps_permissions_ret {A} (a : A) : keeps_permissions (ret a).
Proof. done. Qed.
Lemma keeps_permissions_fail {A} e : keeps_permissions (@fail A e).
Proof. done. Qed.
Lemma keeps_permissions_raise {A} p : keeps_permissions (@raise A p).
Proof. done. Qed.
Lemma keeps_permissions_get_engine : keeps_permissions get_engine.
Proof. done. Qed.
Lemma keeps_permissions_read_role p : keeps_permissions (read_role p).
Proof. intros w. unfold read_role. by destruct (_ !! _). Qed.
Lemma keeps_permissions_modify_role p f : keeps_permissions (modify_role p f).
Proof. intros w. unfold modify_role. by destruct (_ !! _). Qed.
Lemma keeps_permissions_modify_perm p f : keeps_permissions (modify_perm p f).
Proof. intros w. unfold modify_perm. by destruct (_ !! _). Qed.
Lemma keeps_permissions_modify_svc p f : keeps_permissions (modify_svc p f).
Proof. intros w. unfold modify_svc. by destruct (_ !! _). Qed.
Lemma keeps_permissions_alloc_role r : keeps_permissions (alloc_role r).
Proof. done. Qed.
Lemma keeps_permissions_alloc_perm r : keeps_permissions (alloc_perm r).
Proof. done. Qed.
Lemma keeps_permissions_alloc_res r : keeps_permissions (alloc_res r).
Proof. done. Qed.
Lemma keeps_permissions_alloc_svc r : keeps_permissions (alloc_svc r).
Proof. done. Qed.
Lemma keeps_permissions_set_roles f : keeps_permissions (modify_engine (set_roles f)).
Proof. done. Qed.
Lemma keeps_permissions_set_services f :
  keeps_permissions (modify_engine (set_services f)).
Proof. done. Qed.

Create HintDb keeps discriminated.
#[local] Hint Resolve keeps_permissions_ret keeps_permissions_fail
  keeps_permissions_raise keeps_permissions_get_engine keeps_permissions_read_role
  keeps_permissions_modify_role keeps_permissions_modify_perm
  keeps_permissions_modify_svc keeps_permissions_alloc_role
  keeps_permissions_alloc_perm keeps_permissions_alloc_res
  keeps_permissions_alloc_svc keeps_permissions_set_roles
  keeps_permissions_set_services : keeps.

(** Walks down a call: binds, loops, and the branches on looked-up data. *)
Ltac keeps :=
  repeat first
    [ progress auto with keeps
    | apply keeps_permissions_bind; [|intros ?]
    | apply keeps_permissions_for_each; intros ?
    | match goal with
      | |- keeps_permissions (match ?x with _ => _ end) => destruct x
      | |- keeps_permissions (if ?x then _ else _) => destruct x
      end ].

Lemma keeps_permissions_NewRole ID : keeps_permissions (NewRole malformed ID).
Proof. unfold NewRole. keeps. Qed.

Lemma keeps_permissions_findOrCreateService id :
  keeps_permissions (findOrCreateService id).
Proof. unfold findOrCreateService, NewService. keeps. Qed.

Lemma keeps_permissions_findOrCreateResource id :
  keeps_permissions (findOrCreateResource id).
Proof. unfold findOrCreateResource, NewResource. keeps. Qed.

#[local] Hint Resolve keeps_permissions_NewRole keeps_permissions_findOrCreateService
  keeps_permissions_findOrCreateResource : keeps.

Lemma keeps_permissions_LoadPermissionFromJSON p :
  keeps_permissions (LoadPermissionFromJSON p).
Proof.
  unfold LoadPermissionFromJSON, newPermission, actionFromJSON, validateFields.
  keeps.
Qed.

#[local] Hint Resolve keeps_permissions_LoadPermissionFromJSON : keeps.

Lemma RoleJSON_ind (P : RoleJSON → Prop) :
  (∀ ID tags perms subroles,
     Forall P subroles → P (mkRoleJSON ID tags perms subroles)) →
  ∀ r, P r.
Proof.
  intros H. fix IH 1. intros [ID tags perms subroles]. apply H.
  induction subroles as [|s l IHl]; constructor; [apply IH | exact IHl].
Qed.

Lemma recursivelyLoadRoleFromJSON_unfold ID tags perms subroles :
  recursivelyLoadRoleFromJSON malformed (mkRoleJSON ID tags perms subroles) =
  (let* e := get_engine in
   match roles e !! ID with
   | Some _ => fail RoleAlreadyExists
   | None =>
     let* role := NewRole malformed ID in
     modify_role role (set_Tags (λ t,
       map_fold (λ tag value t, <[tag := value]> t) t tags)) ;;;
     for_each perms (λ permissionJSON,
       let* permission := LoadPermissionFromJSON permissionJSON in
       modify_role role (set_Permissions (λ s, {[permission]} ∪ s))) ;;;
     for_each subroles (λ subroleJSON,
       let* subrole := recursivelyLoadRoleFromJSON malformed subroleJSON in
       modify_role role (set_Subroles (λ s, {[subrole]} ∪ s))) ;;;
     let* r := read_role role in
     for_each (elements (Subroles r)) (λ subrole,
       modify_role subrole (set_Parent (Some role))) ;;;
     modify_engine (set_roles (<[ID := role]>)) ;;;
     ret role
   end).
Proof. reflexivity. Qed.

Lemma keeps_permissions_recursivelyLoadRoleFromJSON r :
  keeps_permissions (recursivelyLoadRoleFromJSON malformed r).
Proof.
  induction r as [ID tags perms subroles IH] using RoleJSON_ind.
  rewrite recursivelyLoadRoleFromJSON_unfold.
  apply keeps_permissions_bind; [keeps|intros e].
  destruct (roles e !! ID); [keeps|].
  apply keeps_permissions_bind; [keeps|intros role].
  apply keeps_permissions_bind; [keeps|intros _].
  apply keeps_permissions_bind; [keeps|intros _].
  apply keeps_permissions_bind; [|intros _; keeps].
  clear -IH. induction IH as [|s l Hs _ IHl]; [done|].
  change (for_each (s :: l) ?body) with (bind (body s) (λ _, for_each l body)).
  apply keeps_permissions_bind; [|intros _; exact IHl]. keeps.
Qed.

#[local] Hint Resolve keeps_permissions_recursivelyLoadRoleFromJSON : keeps.

Lemma keeps_permissions_apply_op op w :
  permissions (engine (apply_op malformed op w)) = permissions (engine w).
Proof.
  destruct op as [r|roleID r|s|p]; simpl.
  - assert (keeps_permissions (LoadRoleFromJSON malformed r)) as H; [|apply H].
    unfold LoadRoleFromJSON, addNewRootNode. keeps.
  - assert (keeps_permissions (updateRoleWithJSON malformed roleID r)) as H; [|apply H].
    unfold updateRoleWithJSON, FindRoleNamed, update. keeps.
  - assert (keeps_permissions (LoadServiceFromJSON s)) as H; [|apply H].
    unfold LoadServiceFromJSON, NewService. keeps.
  - apply keeps_permissions_LoadPermissionFromJSON.
Qed.

(** C10. Starting from a fresh engine, the permission registry is empty
    after every sequence of load operations (LoadRoleFromJSON,
    updateRoleWithJSON, LoadServiceFromJSON, LoadPermissionFromJSON), and
    LoadPermissionFromJSON in particular returns its permission without
    writing the registry, in any engine. *)
Theorem permissions_registry_stays_empty (w0 : World) (ops : list load_op) :
  NewAuthEngine malformed = Ok w0 →
  permissions (engine (apply_ops malformed ops w0)) = ∅
  ∧ ∀ p w, permissions (engine (LoadPermissionFromJSON p w).2)
           = permissions (engine w).
Proof.
  intros Hnew. split; [|intros p w; apply keeps_permissions_LoadPermissionFromJSON].
  assert (permissions (engine w0) = ∅) as H0.
  { unfold NewAuthEngine, NewRole in Hnew.
    destruct (_ || _); simpl in Hnew; [done|]. by simplify_eq. }
  clear Hnew. revert w0 H0. unfold apply_ops.
  induction ops as [|op ops IH]; intros w0 H0; simpl; [done|].
  apply IH. by rewrite keeps_permissions_apply_op.
Qed.

(** ** Find-or-create *)

(** The service half of find-or-create: the second call returns the
    service the first one registered. *)
Lemma findOrCreateService_shared (id : string) (w : World) :
  ∃ s w1, findOrCreateService id w = (Ok s, w1)
          ∧ findOrCreateService id w1 = (Ok s, w1)
          ∧ services (engine w1) !! id = Some s.
Proof.
  unfold findOrCreateService, bind, get_engine, NewService, alloc_svc,
    modify_engine, ret. simpl.
  destruct (services (engine w) !! id) as [s|] eqn:Hs; simpl.
  - exists s, w. by rewrite Hs.
  - eexists _, _. split; [done|]. simpl. by rewrite lookup_insert_eq.
Qed.

(** C3. The resource half of find-or-create does not hold on the code: for
    an identifier that is not registered, two calls of findOrCreateResource
    return two different objects, and the registry is left as it was. *)
Theorem findOrCreateResource_not_shared (resourceID : string) (w : World) :
  resources (engine w) !! resourceID = None →
  ∃ r1 w1 r2 w2,
    findOrCreateResource resourceID w = (Ok r1, w1)
    ∧ findOrCreateResource resourceID w1 = (Ok r2, w2)
    ∧ r1 ≠ r2
    ∧ resources (engine w2) = resources (engine w).
Proof.
  intros Hnone.
  unfold findOrCreateResource, bind, get_engine, NewResource, alloc_res. simpl.
  rewrite Hnone. eexists _, _, _, _. split; [done|]. simpl. rewrite Hnone.
  split; [done|]. split; [|done].
  simpl. rewrite length_app. simpl. lia.
Qed.

(** ** A load only adds to the world *)

Lemma prefix_alter {A} (f : A → A) (l1 l2 : list A) (i : nat) :
  l1 `prefix_of` l2 → length l1 ≤ i → l1 `prefix_of` alter f i l2.
Proof.
  intros [k ->] Hi. rewrite alter_app_r_alt by done. by eexists.
Qed.

Lemma extends_refl w : extends w w.
Proof. unfold extends, heap_extends, registries_grow. by split_and!. Qed.

Lemma extends_trans w1 w2 w3 : extends w1 w2 → extends w2 w3 → extends w1 w3.
Proof.
  intros ((?&?&?&?)&(?&?&?&?&?)) ((?&?&?&?)&(?&?&?&?&?)).
  unfold extends, heap_extends, registries_grow.
  split_and!; try (etrans; eassumption); congruence.
Qed.

Lemma extends_on_heap w w' (f : Heap → Heap) :
  extends w w' → heap_extends (heap w) (f (heap w')) →
  extends w (on_heap f w').
Proof. intros [_ ?] ?. by split. Qed.

Lemma extends_alloc_role w w' r :
  extends w w' → extends w (on_heap (set_role_heap (λ l, l ++ [r])) w').
Proof.
  intros H. apply extends_on_heap; [done|]. destruct H as [(?&?&?&?) _].
  unfold heap_extends. simpl. split_and!; auto using prefix_app_r.
Qed.

Lemma extends_modify_role w w' p f :
  extends w w' → length (role_heap (heap w)) ≤ p →
  extends w (on_heap (set_role_heap (alter f p)) w').
Proof.
  intros H ?. apply extends_on_heap; [done|]. destruct H as [(?&?&?&?) _].
  unfold heap_extends. simpl. split_and!; auto using prefix_alter.
Qed.

Lemma extends_set_roles w w' ID p :
  extends w w' → roles (engine w) !! ID = None →
  extends w (on_engine (set_roles (<[ID := p]>)) w').
Proof.
  intros [? (?&?&?&?&?)] ?. split; [done|].
  unfold registries_grow. simpl. split_and!; auto.
  by apply insert_subseteq_r.
Qed.

Lemma findOrCreateService_extends id w :
  wp (findOrCreateService id) w (λ r w', extends w w' ∧ ∃ s, r = Ok s).
Proof.
  unfold wp, findOrCreateService, bind, get_engine, NewService, alloc_svc,
    modify_engine, ret. simpl.
  destruct (services (engine w) !! id) as [s|] eqn:Hs; simpl.
  - split; [apply extends_refl | by eexists].
  - split; [|by eexists].
    unfold extends, heap_extends, registries_grow. simpl.
    split_and!; auto using prefix_app_r.
    by apply insert_subseteq.
Qed.

Lemma findOrCreateResource_extends id w :
  wp (findOrCreateResource id) w (λ r w', extends w w' ∧ ∃ s, r = Ok s).
Proof.
  unfold wp, findOrCreateResource, bind, get_engine, NewResource, alloc_res. simpl.
  destruct (resources (engine w) !! id) as [s|] eqn:Hs; simpl.
  - split; [apply extends_refl | by eexists].
  - split; [|by eexists].
    unfold extends, heap_extends, registries_grow. simpl.
    split_and!; auto using prefix_app_r.
Qed.

Lemma actionFromJSON_extends a w :
  wp (actionFromJSON a) w (λ r w', extends w w' ∧ ∀ p, r ≠ Panicked p).
Proof.
  unfold actionFromJSON. apply wp_bind.
  unfold validateFields. destruct (_ || _).
  { split; [apply extends_refl | done]. }
  unfold wp at 1. simpl. apply wp_bind.
  eapply wp_mono; [apply findOrCreateService_extends|].
  intros r w1 [H1 [s ->]]. apply wp_bind.
  eapply wp_mono; [apply findOrCreateResource_extends|].
  intros r w2 [H2 [res ->]]. split; [|done].
  by eapply extends_trans.
Qed.

Lemma LoadPermissionFromJSON_extends p w :
  wp (LoadPermissionFromJSON p) w (λ r w', extends w w' ∧ ∀ x, r ≠ Panicked x).
Proof.
  unfold LoadPermissionFromJSON. apply wp_bind.
  unfold newPermission, alloc_perm, wp at 1. simpl.
  set (w1 := on_heap _ w).
  assert (extends w w1) as H1.
  { unfold extends, heap_extends, registries_grow. simpl.
    split_and!; auto using prefix_app_r. }
  apply wp_bind. eapply wp_mono; [apply actionFromJSON_extends|].
  intros [a|e|x] w2 [H2 Hx]; [| |by destruct (Hx x)].
  - assert (perm_heap (heap w2) !! length (perm_heap (heap w))
            = Some (mkPermission (PermissionJSON_ID p) newAction ∅ ∅)) as Hq.
    { destruct H2 as [(_&Hpp&_) _]. eapply prefix_lookup_Some; [|done].
      subst w1. simpl. by apply list_lookup_middle. }
    unfold wp, bind. rewrite (modify_perm_Some _ _ _ _ Hq).
    unfold ret. simpl. split; [|done].
    apply extends_on_heap; [by eapply extends_trans|].
    destruct (extends_trans _ _ _ H1 H2) as [(?&?&?&?) _].
    unfold heap_extends. simpl. split_and!; auto.
    subst w1. apply prefix_alter; [done|]. simpl. lia.
  - split; [by eapply extends_trans | done].
Qed.

Lemma building_extends w n w1 w2 :
  building w n w1 → extends w1 w2 → building w n w2.
Proof.
  intros (H&Hn&r&Hr&Hs) H12. split; [by eapply extends_trans|].
  split; [done|]. exists r. destruct H12 as [(Hp&_) _].
  split; [by eapply prefix_lookup_Some|].
  intros s Hin. apply prefix_length in Hp. specialize (Hs s Hin). lia.
Qed.

Lemma building_modify_self w n w' (f : Role → Role) :
  building w n w' →
  (∀ r s, s ∈ Subroles (f r) →
          s ∈ Subroles r ∨ n ≤ s < length (role_heap (heap w'))) →
  building w n (on_heap (set_role_heap (alter f n)) w').
Proof.
  intros (H&Hn&r&Hr&Hs) Hf. split; [by apply extends_modify_role|].
  split; [done|]. exists (f r). simpl. rewrite length_alter.
  split; [by rewrite list_lookup_alter_eq, Hr|].
  intros s [Hin|Hin]%Hf; [by apply Hs|done].
Qed.

(** The node that is being built is an object of the heap: a store to it
    goes through. *)
Lemma wp_modify_self w n w' f (Q : result unit → World → Prop) :
  building w n w' →
  Q (Ok tt) (on_heap (set_role_heap (alter f n)) w') →
  wp (modify_role n f) w' Q.
Proof.
  intros (_&_&r&Hr&_) HQ. apply wp_modify_role; [done|]. by rewrite Hr.
Qed.

Lemma recursivelyLoadRoleFromJSON_spec r :
  ∀ w, wp (recursivelyLoadRoleFromJSON malformed r) w (load_post w).
Proof.
  induction r as [ID tags perms subroles IH] using RoleJSON_ind. intros w.
  rewrite recursivelyLoadRoleFromJSON_unfold.
  apply wp_bind. unfold wp at 1, get_engine. simpl.
  destruct (roles (engine w) !! ID) eqn:HID.
  { split; [apply extends_refl | done]. }
  apply wp_bind. unfold NewRole. destruct (_ || _).
  { split; [apply extends_refl | done]. }
  unfold wp at 1, alloc_role. simpl.
  set (n := length (role_heap (heap w))).
  set (w1 := on_heap _ w).
  assert (building w n w1) as Hb.
  { split; [apply extends_alloc_role, extends_refl|]. split; [done|].
    eexists. split; [apply list_lookup_middle; done|]. simpl. set_solver. }
  clearbody w1.
  (* the tags *)
  apply wp_bind. apply (wp_modify_self w); [done|].
  apply (building_modify_self _ _ _
           (set_Tags (λ t, map_fold (λ tag value t, <[tag := value]> t) t tags)))
    in Hb; [|by left].
  revert Hb. generalize (on_heap (set_role_heap (alter (set_Tags (λ t,
    map_fold (λ tag value t, <[tag := value]> t) t tags)) n)) w1).
  clear w1. intros w1 Hb.
  (* the permissions *)
  apply wp_bind. apply (wp_for_each (building w n)); [done| |].
  { intros p w2 _ Hb2. apply wp_bind.
    eapply wp_mono; [apply LoadPermissionFromJSON_extends|].
    intros [q|e|x] w3 [H3 Hx]; [| |by destruct (Hx x)].
    - pose proof (building_extends _ _ _ _ Hb2 H3) as Hb3.
      apply (wp_modify_self w); [done|].
      apply building_modify_self; [done|by left].
    - split; [|done]. eapply extends_trans; [apply Hb2 | done]. }
  clear w1 Hb. intros w1 Hb.
  (* the subroles *)
  apply wp_bind. apply (wp_for_each (building w n)); [done| |].
  { intros s w2 Hs Hb2. apply wp_bind.
    rewrite Forall_forall in IH.
    eapply wp_mono; [apply (IH s Hs w2)|].
    intros [q|e|x] w3 [H3 Hq]; [| |done].
    - pose proof (building_extends _ _ _ _ Hb2 H3) as Hb3.
      apply (wp_modify_self w); [done|].
      apply building_modify_self; [done|].
      intros r s' [->%elem_of_singleton|?]%elem_of_union; [right|by left].
      destruct Hb2 as (_&_&r2&Hr2&_). apply lookup_lt_Some in Hr2. lia.
    - split; [|done]. eapply extends_trans; [apply Hb2 | done]. }
  clear w1 Hb. intros w1 (Hext&Hn&r&Hr&Hsub).
  (* linking the subroles to the node *)
  apply wp_bind. unfold wp at 1, read_role. rewrite Hr. simpl.
  apply wp_bind.
  apply (wp_for_each (λ w', extends w w'
                            ∧ length (role_heap (heap w'))
                              = length (role_heap (heap w1)))).
  { by split. }
  { intros s w2 Hs [H2 Hlen]. apply elem_of_elements, Hsub in Hs.
    apply wp_modify_role.
    - intros _ _. simpl. split; [|by rewrite length_alter].
      apply extends_modify_role; [done|lia].
    - intros Hnone%lookup_ge_None. lia. }
  intros w2 [H2 Hlen].
  (* the name index *)
  apply wp_bind. unfold wp at 1, modify_engine. simpl.
  unfold wp, ret, load_post. simpl. split; [by apply extends_set_roles|].
  apply lookup_lt_Some in Hr. lia.
Qed.

(** C2 (amended). A load that fails leaves the role forest, that is the
    root pointer and every role object that existed, and the permission and
    resource registries exactly as they were, and leaves every entry of the
    role and service registries in place; what it may leave behind are new
    entries in the role and service registries (and new heap objects) for
    the part of the subtree loaded before the failing node. *)
Theorem LoadRoleFromJSON_failure_keeps (roleJSON : RoleJSON) (w : World)
    (e : error) (w' : World) :
  LoadRoleFromJSON malformed roleJSON w = (Err e, w') →
  root_role (engine w') = root_role (engine w)
  ∧ role_heap (heap w) `prefix_of` role_heap (heap w')
  ∧ permissions (engine w') = permissions (engine w)
  ∧ resources (engine w') = resources (engine w)
  ∧ roles (engine w) ⊆ roles (engine w')
  ∧ services (engine w) ⊆ services (engine w')
  ∧ perm_heap (heap w) `prefix_of` perm_heap (heap w')
  ∧ res_heap (heap w) `prefix_of` res_heap (heap w')
  ∧ svc_heap (heap w) `prefix_of` svc_heap (heap w').
Proof.
  unfold LoadRoleFromJSON, bind. intros H.
  pose proof (recursivelyLoadRoleFromJSON_spec roleJSON w) as [Hext Hres].
  destruct (recursivelyLoadRoleFromJSON malformed roleJSON w) as [[p| |] w1];
    simpl in *; [|simplify_eq|done].
  - rewrite addNewRootNode_unfold in H. by destruct (role_heap (heap w1) !! _).
  - destruct Hext as ((?&?&?&?)&(?&?&?&?&?)). by split_and!.
Qed.

(** ** What a load that succeeds leaves behind *)

Lemma recursivelyLoadRoleFromJSON_registers r w :
  wp (recursivelyLoadRoleFromJSON malformed r) w
    (λ res w', ∀ p, res = Ok p → roles (engine w') !! RoleJSON_ID r = Some p).
Proof.
  destruct r as [ID tags perms subroles].
  rewrite recursivelyLoadRoleFromJSON_unfold. simpl RoleJSON_ID.
  apply wp_bind. unfold wp at 1, get_engine. simpl.
  destruct (roles (engine w) !! ID); [done|].
  apply wp_bind. unfold NewRole. destruct (_ || _); [done|].
  unfold wp at 1, alloc_role. simpl.
  apply wp_bind. apply wp_modify_role; [intros _ _|done].
  apply wp_bind. apply (wp_for_each (λ _, True)); [done| |].
  { intros x w1 _ _. unfold wp. by destruct (bind _ _ w1) as [[| |] ?]. }
  intros w1 _.
  apply wp_bind. apply (wp_for_each (λ _, True)); [done| |].
  { intros x w2 _ _. unfold wp. by destruct (bind _ _ w2) as [[| |] ?]. }
  intros w2 _.
  apply wp_bind. unfold wp at 1, read_role.
  destruct (role_heap (heap w2) !! _); simpl; [|done].
  apply wp_bind. apply (wp_for_each (λ _, True)); [done| |].
  { intros x w3 _ _. unfold wp. by destruct (modify_role _ _ w3) as [[| |] ?]. }
  intros w3 _. apply wp_bind. unfold wp at 1. simpl.
  unfold wp, ret. simpl. intros p [= <-]. apply lookup_insert_eq.
Qed.

(** In an engine whose root pointer is a role object a load never
    dereferences nil: LoadRoleFromJSON returns, with or without an error,
    and then the root pointer is still a role object. *)
Theorem LoadRoleFromJSON_returns (roleJSON : RoleJSON) (w : World) :
  is_Some (role_heap (heap w) !! root_role (engine w)) →
  let res := LoadRoleFromJSON malformed roleJSON w in
  (res.1 = Ok tt ∨ ∃ e, res.1 = Err e)
  ∧ is_Some (role_heap (heap res.2) !! root_role (engine res.2)).
Proof.
  intros [root Hroot]. unfold LoadRoleFromJSON, bind.
  pose proof (recursivelyLoadRoleFromJSON_spec roleJSON w) as [Hext Hres].
  destruct (recursivelyLoadRoleFromJSON malformed roleJSON w) as [[p|e|x] w1];
    simpl in *; [| |done].
  - destruct Hext as [(Hpre&_) (Hr&_)].
    rewrite addNewRootNode_unfold, Hr.
    rewrite (prefix_lookup_Some _ _ _ _ Hroot Hpre). simpl.
    split; [by left|]. rewrite Hr, list_lookup_alter_eq.
    by rewrite (prefix_lookup_Some _ _ _ _ Hroot Hpre).
  - destruct Hext as [(Hpre&_) (Hr&_)]. split; [right; by eexists|].
    rewrite Hr. rewrite (prefix_lookup_Some _ _ _ _ Hroot Hpre). by eexists.
Qed.

(** A load that succeeds registers the new role under its identifier and
    adds it, a new object, to the subroles of the root. *)
Theorem LoadRoleFromJSON_success (roleJSON : RoleJSON) (w w' : World) (root : Role) :
  role_heap (heap w) !! root_role (engine w) = Some root →
  LoadRoleFromJSON malformed roleJSON w = (Ok tt, w') →
  ∃ p, roles (engine w') !! RoleJSON_ID roleJSON = Some p
       ∧ length (role_heap (heap w)) ≤ p
       ∧ root_role (engine w') = root_role (engine w)
       ∧ (Subroles <$> role_heap (heap w') !! root_role (engine w'))
         = Some ({[p]} ∪ Subroles root).
Proof.
  intros Hroot. unfold LoadRoleFromJSON, bind.
  pose proof (recursivelyLoadRoleFromJSON_spec roleJSON w) as [Hext Hres].
  pose proof (recursivelyLoadRoleFromJSON_registers roleJSON w) as Hreg.
  unfold wp in Hreg.
  destruct (recursivelyLoadRoleFromJSON malformed roleJSON w) as [[p|e|x] w1];
    simpl in *; [|done..].
  destruct Hext as [(Hpre&_) (Hr&_)].
  rewrite addNewRootNode_unfold, Hr.
  rewrite (prefix_lookup_Some _ _ _ _ Hroot Hpre).
  intros [= <-]. exists p. simpl.
  split_and!; [by apply Hreg|lia|done|].
  rewrite Hr, list_lookup_alter_eq.
  by rewrite (prefix_lookup_Some _ _ _ _ Hroot Hpre).
Qed.

(** ** Name clashes *)

Lemma role_ids_unfold ID tags perms subroles :
  role_ids (mkRoleJSON ID tags perms subroles) = ID :: flat_map role_ids subroles.
Proof. reflexivity. Qed.

Lemma extends_roles_is_Some w w' id :
  extends w w' → is_Some (roles (engine w) !! id) →
  is_Some (roles (engine w') !! id).
Proof. intros [_ (_&?&_)] ?. by eapply lookup_weaken_is_Some. Qed.

Lemma recursivelyLoadRoleFromJSON_clash r :
  ∀ w id, id ∈ role_ids r → is_Some (roles (engine w) !! id) →
  ∃ e, (recursivelyLoadRoleFromJSON malformed r w).1 = Err e.
Proof.
  assert (∀ w id, id ∈ role_ids r → is_Some (roles (engine w) !! id) →
            wp (recursivelyLoadRoleFromJSON malformed r) w
              (λ res _, ∀ p, res ≠ Ok p)) as Hno.
  { induction r as [ID tags perms subroles IH] using RoleJSON_ind.
    intros w id Hin Hid. rewrite role_ids_unfold in Hin.
    rewrite recursivelyLoadRoleFromJSON_unfold.
    apply wp_bind. unfold wp at 1, get_engine. simpl.
    destruct (roles (engine w) !! ID) eqn:HID; [done|].
    apply elem_of_cons in Hin as [->|Hin]; [by destruct Hid; simplify_eq|].
    apply wp_bind. unfold NewRole. destruct (_ || _); [done|].
    unfold wp at 1, alloc_role. simpl. set (n := length (role_heap (heap w))).
    apply wp_bind. apply wp_modify_role; [intros _ _|done].
    set (w1 := on_heap _ (on_heap _ w)).
    assert (is_Some (roles (engine w1) !! id)) as H1 by done.
    clearbody w1 n.
    (* the permissions: they fail, or leave the clashing name registered *)
    apply wp_bind.
    apply (wp_for_each (λ w', is_Some (roles (engine w') !! id))); [done| |].
    { intros p w2 _ H2. apply wp_bind.
      eapply wp_mono; [apply LoadPermissionFromJSON_extends|].
      intros [q|e|x] w3 [H3 Hx]; [|done..].
      apply wp_modify_role; [intros _ _|done].
      simpl. by eapply extends_roles_is_Some. }
    clear w1 H1. intros w1 H1.
    (* the subroles: the loop stops at the clashing one at the latest *)
    apply wp_bind.
    apply (wp_for_each_prefix (λ pre w',
      is_Some (roles (engine w') !! id) ∧ id ∉ flat_map role_ids pre)).
    { split; [done|]. by intros ?%elem_of_nil. }
    { intros pre s post w2 Hsplit [H2 Hpre]. apply wp_bind.
      assert (s ∈ subroles) as Hs.
      { rewrite Hsplit. apply elem_of_app. right. left. }
      rewrite Forall_forall in IH.
      pose proof (recursivelyLoadRoleFromJSON_spec s w2) as [Hext _].
      destruct (decide (id ∈ role_ids s)) as [Hids|Hids].
      - eapply wp_mono; [apply (IH s Hs w2 id Hids H2)|].
        intros [q|e|x] w3 Hq; [by destruct (Hq q)|done..].
      - unfold wp at 1.
        destruct (recursivelyLoadRoleFromJSON malformed s w2) as [[q|e|x] w3];
          simpl in *; [|done..].
        apply wp_modify_role; [intros _ _|done]. simpl.
        split; [by eapply extends_roles_is_Some|].
        rewrite flat_map_app. simpl. rewrite app_nil_r.
        by intros [?|?]%elem_of_app. }
    intros w2 [_ Hnot]. done. }
  intros w id Hin Hid.
  pose proof (recursivelyLoadRoleFromJSON_spec r w) as [_ Hp].
  specialize (Hno w id Hin Hid). unfold wp in Hno.
  destruct (recursivelyLoadRoleFromJSON malformed r w) as [[q|e|x] w'];
    simpl in *; [by destruct (Hno q)|by eexists|done].
Qed.

Lemma LoadPermissionFromJSON_valid p w :
  valid_action (PermissionJSON_Action p) = true →
  ∀ e, (LoadPermissionFromJSON p w).1 ≠ Err e.
Proof.
  unfold valid_action. intros Hv%negb_true_iff e.
  unfold LoadPermissionFromJSON, newPermission, actionFromJSON, validateFields.
  rewrite Hv. unfold bind, alloc_perm, ret. simpl.
  pose proof (findOrCreateService_extends
    (ActionJSON_Service (PermissionJSON_Action p))
    (on_heap (set_perm_heap (λ l, l ++ [mkPermission (PermissionJSON_ID p)
       newAction ∅ ∅])) w)) as [_ [s Hs]].
  destruct (findOrCreateService _ _) as [r1 w1]. simpl in Hs. subst r1.
  pose proof (findOrCreateResource_extends
    (ActionJSON_Resource (PermissionJSON_Action p)) w1) as [_ [r Hr]].
  destruct (findOrCreateResource _ _) as [r2 w2]. simpl in Hr. subst r2.
  unfold modify_perm. by destruct (perm_heap (heap w2) !! _).
Qed.

Lemma recursivelyLoadRoleFromJSON_valid r :
  valid_description malformed r = true →
  ∀ w, wp (recursivelyLoadRoleFromJSON malformed r) w
         (λ r _, ∀ e, r = Err e → e = RoleAlreadyExists).
Proof.
  induction r as [ID tags perms subroles IH] using RoleJSON_ind.
  intros Hv w. simpl in Hv.
  apply andb_true_iff in Hv as [[HID Hperms]%andb_true_iff Hsubs].
  rewrite recursivelyLoadRoleFromJSON_unfold.
  apply wp_bind. unfold wp at 1, get_engine. simpl.
  destruct (roles (engine w) !! ID); [by intros ? [=]|].
  apply wp_bind. unfold NewRole.
  apply negb_true_iff in HID. rewrite HID.
  unfold wp at 1, alloc_role. simpl.
  apply wp_bind. apply wp_modify_role; [intros _ _|done].
  apply wp_bind. apply (wp_for_each (λ _, True)); [done| |].
  { intros p w2 Hp _. apply wp_bind.
    rewrite forallb_forall in Hperms.
    pose proof (LoadPermissionFromJSON_valid p w2
                  (Hperms p (proj1 (list_elem_of_In _ _) Hp))) as Hne.
    unfold wp at 1. destruct (LoadPermissionFromJSON p w2) as [[q|e|x] w3];
      simpl in *; [|by destruct (Hne e)|done].
    by apply wp_modify_role. }
  intros w1 _.
  apply wp_bind. apply (wp_for_each (λ _, True)); [done| |].
  { intros s w2 Hs _. apply wp_bind.
    rewrite Forall_forall in IH. rewrite forallb_forall in Hsubs.
    eapply wp_mono;
      [apply (IH s Hs (Hsubs s (proj1 (list_elem_of_In _ _) Hs)) w2)|].
    intros [q|e|x] w3 H; simpl; [by apply wp_modify_role| |done].
    intros e' [= <-]. by apply H. }
  intros w2 _.
  apply wp_bind. unfold wp at 1, read_role.
  destruct (role_heap (heap w2) !! _); simpl; [|done].
  apply wp_bind. apply (wp_for_each (λ _, True)); [done| |].
  { intros s w3 _ _. by apply wp_modify_role. }
  intros w3 _. done.
Qed.

(** ** The names a load registers *)

(* [set_solver] clears hypotheses that its own steps have already consumed *)
#[local] Set Warnings "-clear-no-such-hyp".

Lemma LoadPermissionFromJSON_roles pj w :
  roles (engine (LoadPermissionFromJSON pj w).2) = roles (engine w).
Proof.
  unfold LoadPermissionFromJSON, newPermission, actionFromJSON, validateFields,
    findOrCreateService, findOrCreateResource, NewService, NewResource, bind,
    alloc_perm, alloc_svc, alloc_res, modify_perm, modify_engine, get_engine, ret.
  simpl. destruct (_ || _); simpl; [done|].
  destruct (services (engine w) !! _); simpl;
    destruct (resources (engine w) !! _); simpl;
    by destruct (_ !! length (perm_heap (heap w))).
Qed.

Lemma flat_map_snoc {A B} (f : A → list B) (l : list A) (x : A) :
  flat_map f (l ++ [x]) = flat_map f l ++ f x.
Proof. rewrite flat_map_app. simpl. by rewrite app_nil_r. Qed.

(** The name index after a load holds the names it held and names of the
    description, all of them when the load succeeded. *)
Lemma recursivelyLoadRoleFromJSON_names r : ∀ w,
  wp (recursivelyLoadRoleFromJSON malformed r) w (λ res w',
    dom (roles (engine w')) ⊆ dom (roles (engine w)) ∪ list_to_set (role_ids r)
    ∧ ∀ p, res = Ok p →
        dom (roles (engine w')) = dom (roles (engine w)) ∪ list_to_set (role_ids r)).
Proof.
  induction r as [ID tags perms subroles IH] using RoleJSON_ind. intros w.
  rewrite recursivelyLoadRoleFromJSON_unfold, role_ids_unfold.
  apply wp_bind. unfold wp at 1, get_engine. simpl.
  destruct (roles (engine w) !! ID) eqn:HID.
  { split; [|done]. unfold wp, fail; simpl. set_solver. }
  apply wp_bind. unfold NewRole. destruct (_ || _).
  { split; [|done]. unfold wp, fail; simpl. set_solver. }
  unfold wp at 1, alloc_role. simpl.
  apply wp_bind. unfold wp at 1. rewrite modify_new_role. simpl.
  set (w1 := on_heap _ (on_heap _ w)).
  assert (roles (engine w1) = roles (engine w)) as H1 by done.
  clearbody w1.
  apply wp_bind.
  apply (wp_for_each (λ w2, roles (engine w2) = roles (engine w))); [done| |].
  { intros pj w2 _ H2. apply wp_bind. unfold wp at 1.
    pose proof (LoadPermissionFromJSON_roles pj w2) as H3.
    destruct (LoadPermissionFromJSON pj w2) as [[q|e|x] w3]; simpl in *.
    - apply wp_modify_role; [intros _ _; simpl; congruence|].
      intros _. rewrite H3, H2. split; [set_solver|done].
    - rewrite H3, H2. split; [set_solver|done].
    - rewrite H3, H2. split; [set_solver|done]. }
  clear w1 H1. intros w1 H1.
  apply wp_bind.
  apply (wp_for_each_prefix (λ pre w2,
    dom (roles (engine w2))
    = dom (roles (engine w)) ∪ list_to_set (flat_map role_ids pre))).
  { rewrite H1. simpl. set_solver. }
  { intros pre sj post w2 Hsplit H2. apply wp_bind.
    assert (sj ∈ subroles) as Hin.
    { rewrite Hsplit. apply elem_of_app. right. left. }
    rewrite Forall_forall in IH. pose proof (IH sj Hin w2) as [Hsub Heq].
    assert (list_to_set (role_ids sj) ⊆@{gset string}
            list_to_set (flat_map role_ids subroles)) as Hsj.
    { rewrite Hsplit, flat_map_app. simpl. set_solver. }
    assert (list_to_set (flat_map role_ids pre) ⊆@{gset string}
            list_to_set (flat_map role_ids subroles)) as Hpre.
    { rewrite Hsplit, flat_map_app. set_solver. }
    unfold wp at 1.
    destruct (recursivelyLoadRoleFromJSON malformed sj w2) as [[q|e|x] w3];
      simpl in *.
    - apply wp_modify_role; [|intros _; split; [set_solver|done]].
      intros _ _. simpl. rewrite (Heq q eq_refl), H2, flat_map_snoc.
      set_solver.
    - split; [set_solver|done].
    - split; [set_solver|done]. }
  intros w2 H2.
  apply wp_bind. unfold wp at 1, read_role.
  destruct (role_heap (heap w2) !! _); simpl; [|split; [set_solver|done]].
  apply wp_bind.
  apply (wp_for_each (λ w3, roles (engine w3) = roles (engine w2))); [done| |].
  { intros x w3 _ H3. apply wp_modify_role; [by intros _ _|].
    intros _. rewrite H3, H2. split; [set_solver|done]. }
  intros w3 H3. apply wp_bind. unfold wp at 1, modify_engine. simpl.
  unfold wp, ret. simpl. rewrite dom_insert_L, H3, H2.
  split; [set_solver|]. intros _ _. set_solver.
Qed.

Lemma LoadPermissionFromJSON_Ok_valid pj w q :
  (LoadPermissionFromJSON pj w).1 = Ok q →
  valid_action (PermissionJSON_Action pj) = true.
Proof.
  unfold LoadPermissionFromJSON, newPermission, actionFromJSON, validateFields,
    valid_action, bind, alloc_perm. simpl.
  by destruct (_ || _).
Qed.


(** ** The first check that fails *)

Lemma first_failure_unfold names ID tags perms subroles :
  first_failure malformed names (mkRoleJSON ID tags perms subroles) =
  if bool_decide (ID ∈ names) then Some RoleAlreadyExists
  else if negb (valid_ID malformed ID) then Some InvalidIdentifier
  else if negb (forallb (λ p, valid_action (PermissionJSON_Action p)) perms)
  then Some InvalidAction
  else siblings_failure (first_failure malformed) subroles names.
Proof. reflexivity. Qed.

Lemma siblings_failure_app f l1 l2 names :
  siblings_failure f (l1 ++ l2) names =
  match siblings_failure f l1 names with
  | Some e => Some e
  | None => siblings_failure f l2 (names ∪ list_to_set (flat_map role_ids l1))
  end.
Proof.
  revert names. induction l1 as [|s l1 IH]; intros names; simpl.
  - by rewrite (right_id_L ∅ (∪)).
  - destruct (f names s); [done|].
    by rewrite IH, list_to_set_app_L, (assoc_L (∪)).
Qed.

Lemma first_failure_range r : ∀ names e,
  first_failure malformed names r = Some e →
  e = RoleAlreadyExists ∨ e = InvalidIdentifier ∨ e = InvalidAction.
Proof.
  induction r as [ID tags perms subroles IH] using RoleJSON_ind.
  intros names e. rewrite first_failure_unfold.
  destruct (bool_decide _); [intros [= <-]; auto|].
  destruct (negb (valid_ID _ _)); [intros [= <-]; auto|].
  destruct (negb (forallb _ _)); [intros [= <-]; auto|].
  revert names. induction IH as [|s l Hs _ IHl]; intros names; simpl; [done|].
  destruct (first_failure malformed names s) eqn:Hf; [|by apply IHl].
  intros [= <-]. by eapply Hs.
Qed.

Lemma LoadPermissionFromJSON_Err pj w e :
  (LoadPermissionFromJSON pj w).1 = Err e →
  e = InvalidAction ∧ valid_action (PermissionJSON_Action pj) = false.
Proof.
  destruct (valid_action (PermissionJSON_Action pj)) eqn:Hv.
  - intros He. by destruct (LoadPermissionFromJSON_valid pj w Hv e).
  - revert Hv.
    unfold valid_action, LoadPermissionFromJSON, newPermission, actionFromJSON,
      validateFields, bind, alloc_perm, fail. simpl.
    intros Hv%negb_false_iff. rewrite Hv. simpl. by intros [= <-].
Qed.

(** The load of a description returns the error of [first_failure], and
    returns a role when there is none. *)
Lemma recursivelyLoadRoleFromJSON_first_failure r : ∀ w,
  wp (recursivelyLoadRoleFromJSON malformed r) w (λ res _,
    match res with
    | Ok _ => first_failure malformed (dom (roles (engine w))) r = None
    | Err e => first_failure malformed (dom (roles (engine w))) r = Some e
    | Panicked _ => True
    end).
Proof.
  induction r as [ID tags perms subroles IH] using RoleJSON_ind. intros w.
  rewrite recursivelyLoadRoleFromJSON_unfold, first_failure_unfold.
  apply wp_bind. unfold wp at 1, get_engine. simpl.
  destruct (roles (engine w) !! ID) eqn:HID.
  { unfold wp, fail. simpl. rewrite bool_decide_eq_true_2; [done|].
    apply elem_of_dom. by eexists. }
  rewrite bool_decide_eq_false_2 by (by apply not_elem_of_dom).
  apply wp_bind. unfold NewRole, valid_ID.
  destruct (bool_decide (ID = EmptyString) || malformed ID) eqn:HvID; [done|].
  cbn [negb].
  unfold wp at 1, alloc_role. simpl.
  apply wp_bind. unfold wp at 1. rewrite modify_new_role. simpl.
  set (w1 := on_heap _ (on_heap _ w)).
  assert (roles (engine w1) = roles (engine w)) as H1 by done.
  clearbody w1.
  apply wp_bind.
  apply (wp_for_each_prefix (λ pre w2,
    roles (engine w2) = roles (engine w)
    ∧ forallb (λ p, valid_action (PermissionJSON_Action p)) pre = true)).
  { by split. }
  { intros pre pj post w2 Hsplit [H2 Hpre]. apply wp_bind. unfold wp at 1.
    pose proof (LoadPermissionFromJSON_Ok_valid pj w2) as Hv.
    pose proof (LoadPermissionFromJSON_Err pj w2) as Herr.
    pose proof (LoadPermissionFromJSON_roles pj w2) as H3.
    destruct (LoadPermissionFromJSON pj w2) as [[q|e|x] w3]; simpl in *; [| |done].
    - apply wp_modify_role; [|done]. intros _ _. simpl. split; [congruence|].
      rewrite forallb_app, Hpre. simpl. by rewrite (Hv q eq_refl).
    - destruct (Herr e eq_refl) as [-> Hf].
      rewrite Hsplit, forallb_app. simpl. by rewrite Hf, andb_false_r. }
  clear w1 H1. intros w1 [H1 Hperms]. rewrite Hperms. cbn [negb].
  apply wp_bind.
  apply (wp_for_each_prefix (λ pre w2,
    dom (roles (engine w2))
    = dom (roles (engine w)) ∪ list_to_set (flat_map role_ids pre)
    ∧ siblings_failure (first_failure malformed) pre (dom (roles (engine w)))
      = None)).
  { split; [|done]. rewrite H1. simpl. by rewrite (right_id_L ∅ (∪)). }
  { intros pre sj post w2 Hsplit [H2 Hnone]. apply wp_bind.
    assert (sj ∈ subroles) as Hin.
    { rewrite Hsplit. apply elem_of_app. right. left. }
    rewrite Forall_forall in IH. pose proof (IH sj Hin w2) as Hsj.
    pose proof (recursivelyLoadRoleFromJSON_names sj w2) as [_ Heq].
    unfold wp in Hsj. unfold wp at 1.
    destruct (recursivelyLoadRoleFromJSON malformed sj w2) as [[q|e|x] w3];
      simpl in *; [| |done].
    - apply wp_modify_role; [|done]. intros _ _. simpl. split.
      + rewrite (Heq q eq_refl), H2, flat_map_snoc, list_to_set_app_L.
        by rewrite (assoc_L (∪)).
      + rewrite siblings_failure_app, Hnone. simpl. by rewrite <- H2, Hsj.
    - rewrite Hsplit, siblings_failure_app, Hnone. simpl. by rewrite <- H2, Hsj. }
  intros w2 [_ Hnone].
  apply wp_bind. unfold wp at 1, read_role.
  destruct (role_heap (heap w2) !! _); simpl; [|done].
  apply wp_bind.
  apply (wp_for_each (λ _, True)); [done| |].
  { intros x w3 _ _. by apply wp_modify_role. }
  intros w3 _. done.
Qed.

(** C5 (amended). A role description with, at any node, an identifier that
    the engine's name index already holds is never loaded: LoadRoleFromJSON
    returns an error, and the error is the one of the first check that
    fails as the description is visited depth first, which [first_failure]
    computes from the description and the names of the index:
    RoleAlreadyExists, InvalidIdentifier or InvalidAction. It is
    RoleAlreadyExists when the clashing identifier is the description's own
    (and then nothing at all is changed), and when every node of the
    description is otherwise valid; an identifier or action that is found
    invalid before the clashing node is visited gives its own error
    instead. *)
Theorem LoadRoleFromJSON_name_clash (roleJSON : RoleJSON) (w : World) (id : string) :
  id ∈ role_ids roleJSON →
  is_Some (roles (engine w) !! id) →
  ∃ e, (LoadRoleFromJSON malformed roleJSON w).1 = Err e
       ∧ first_failure malformed (dom (roles (engine w))) roleJSON = Some e
       ∧ (e = RoleAlreadyExists ∨ e = InvalidIdentifier ∨ e = InvalidAction)
       ∧ (valid_description malformed roleJSON = true → e = RoleAlreadyExists)
       ∧ (id = RoleJSON_ID roleJSON →
          LoadRoleFromJSON malformed roleJSON w = (Err RoleAlreadyExists, w)).
Proof.
  intros Hin Hid.
  destruct (recursivelyLoadRoleFromJSON_clash roleJSON w id Hin Hid) as [e He].
  pose proof (recursivelyLoadRoleFromJSON_first_failure roleJSON w) as Hff.
  unfold wp in Hff.
  exists e. unfold LoadRoleFromJSON, bind.
  destruct (recursivelyLoadRoleFromJSON malformed roleJSON w) as [r w'] eqn:Hload.
  simpl in He, Hff. subst r. split; [done|]. split; [done|].
  split; [by eapply first_failure_range|]. split.
  - intros Hvalid.
    pose proof (recursivelyLoadRoleFromJSON_valid roleJSON Hvalid w) as H.
    unfold wp in H. rewrite Hload in H. by apply H.
  - intros ->. destruct roleJSON as [ID tags perms subroles].
    rewrite recursivelyLoadRoleFromJSON_unfold in Hload.
    unfold bind, get_engine in Hload. simpl in *.
    destruct Hid as [p Hp]. rewrite Hp in Hload.
    unfold fail in Hload. by simplify_eq.
Qed.

(** ** Parsing a request *)

(** C9 (amended). ParseRequest does not look at the error of json.Unmarshal
    before it reads [request.Action.Resource.ID]. When the decoded action
    has no resource (as for the body [{}], and for a body that
    json.Unmarshal rejects before it has written the resource) it
    dereferences the nil pointer, a panic and not an error, whether
    json.Unmarshal returned an error or not; when the decoded action has a
    resource it goes on to the resource lookup and returns the request
    together with whatever error json.Unmarshal gave, also when that error
    is not nil. *)
Theorem ParseRequest_unchecked (body : list byte) (w : World)
    (request : authRequest) (err : option error) (w' : World) :
  Unmarshal body w = ((request, err), w') →
  match Action_Resource (authRequest_Action request) with
  | None => ParseRequest Unmarshal body w = (Panicked NilDereference, w')
  | Some p =>
      ∀ res, res_heap (heap w') !! p = Some res →
        ParseRequest Unmarshal body w =
          (Ok (with_Resource (resources (engine w') !! Resource_ID res) request,
               err), w')
  end.
Proof.
  intros HU. unfold ParseRequest, bind. rewrite HU. simpl.
  destruct (Action_Resource (authRequest_Action request)) as [p|]; [|done].
  intros res Hres. by rewrite Hres.
Qed.

(** C7, on the code: a request whose resource the engine cannot resolve is
    not rejected. ParseRequest returns it with a nil resource, and the
    only error it can return is the one of json.Unmarshal. *)
Theorem ParseRequest_unresolved_resource (body : list byte) (w : World)
    (request : authRequest) (err : option error) (w' : World) (p : res_ptr)
    (res : Resource) :
  Unmarshal body w = ((request, err), w') →
  Action_Resource (authRequest_Action request) = Some p →
  res_heap (heap w') !! p = Some res →
  resources (engine w') !! Resource_ID res = None →
  ParseRequest Unmarshal body w = (Ok (with_Resource None request, err), w').
Proof.
  intros HU Hp Hres Hnone. unfold ParseRequest, bind. rewrite HU. simpl.
  rewrite Hp, Hres. simpl. unfold findResource, bind, get_engine, ret.
  by rewrite Hnone.
Qed.

(** ** CheckAuth *)


Lemma grants_only_init slice : grants_only (CheckAuth_init slice).
Proof.
  split_and!; simpl; [done| |done].
  intros i r [? _]%lookup_replicate. done.
Qed.

Lemma grants_only_set_worker i pc s :
  grants_only s → (∀ r, pc = WSend r → Auth r = true) →
  grants_only (set_worker i pc s).
Proof.
  intros (Hc&Hw&Hm) Hpc. split_and!; simpl; [done| |done].
  intros j r Hj. destruct (decide (i = j)) as [->|Hne].
  - destruct (decide (j < length (workers s))).
    + rewrite list_lookup_insert_eq in Hj by done. apply Hpc. congruence.
    + rewrite list_insert_ge in Hj by lia. by eapply Hw.
  - rewrite list_lookup_insert_ne in Hj by done. by eapply Hw.
Qed.

Lemma worker_validate_grants h request role pc r :
  worker_validate validate_nil h request role = Ok pc →
  pc = WSend r → Auth r = true.
Proof.
  unfold worker_validate. intros H ->.
  destruct (Role_validate _ _ _ _ _) as [response|]; [|done].
  destruct (Auth response); [|done].
  destruct (role ≫= _); by simplify_eq.
Qed.

Lemma main_ok_closed m d : main_ok m d → main_ok m true.
Proof. destruct m as [|r|[r|p]|r|p]; simpl; auto. Qed.

Lemma grants_only_step_main b s : grants_only s → grants_only (step_main b s).
Proof.
  intros (Hc&Hw&Hm). unfold step_main.
  destruct (main s) as [|r|[r|p]|r|p] eqn:Hmain.
  - destruct (response_channel s) as [r|] eqn:Hr, (done_closed s) eqn:Hd;
      try destruct b;
      (split_and!; simpl; rewrite ?Hr, ?Hmain, ?Hd; simpl; try done;
       try (intros Hfalse; by rewrite (Hc r eq_refl) in Hfalse)).
  - simpl in Hm.
    destruct (done_closed s) eqn:Hd;
      (split_and!; simpl; rewrite ?Hmain, ?Hd; simpl; try done).
    destruct (Auth r); [done|]. by specialize (Hm eq_refl).
  - by split_and!.
  - by split_and!.
  - split_and!; try done. by rewrite Hmain.
  - split_and!; try done. by rewrite Hmain.
Qed.

Lemma grants_only_step_waiter s : grants_only s → grants_only (step_waiter s).
Proof.
  intros (Hc&Hw&Hm). unfold step_waiter. destruct (waiter s).
  - destruct (decide _); by split_and!.
  - destruct (done_closed s) eqn:Hd; split_and!; simpl; rewrite ?Hd; try done.
    by eapply main_ok_closed.
  - by split_and!.
Qed.

Lemma grants_only_step_worker h request slice i s :
  grants_only s → grants_only (step_worker validate_nil h request slice i s).
Proof.
  intros Hs. unfold step_worker.
  destruct (workers s !! i) as [[|r|ms|ms| |]|] eqn:Hi; try done.
  - destruct (slice !! i) as [role|]; [|done].
    destruct (worker_validate _ _ _ role) as [pc|e|p] eqn:Hv;
      [|by destruct Hs as (?&?&?); split_and!..].
    apply grants_only_set_worker; [done|].
    intros r. by eapply worker_validate_grants.
  - destruct (response_closed s); [by destruct Hs as (?&?&?); split_and!|].
    destruct (response_channel s) eqn:Hr; [done|].
    apply grants_only_set_worker; [|done].
    destruct Hs as (Hc&Hw&Hm). split_and!; simpl; [|done|done].
    intros r' [= <-]. by eapply Hw.
  - by apply grants_only_set_worker.
  - apply grants_only_set_worker; [|done].
    by destruct Hs as (?&?&?); split_and!.
  - apply grants_only_set_worker; [|done].
    by destruct Hs as (?&?&?); split_and!.
Qed.

Lemma grants_only_step h request slice t s :
  grants_only s → grants_only (step validate_nil h request slice t s).
Proof.
  intros Hs. unfold step. destruct (crashed s); [done|].
  destruct t as [b| |i];
    auto using grants_only_step_main, grants_only_step_waiter,
      grants_only_step_worker.
Qed.

Lemma grants_only_run h request slice sched s :
  grants_only s → grants_only (run validate_nil h request slice sched s).
Proof.
  revert s. unfold run.
  induction sched as [|t sched IH]; intros s Hs; simpl; [done|].
  apply IH. by apply grants_only_step.
Qed.

(** C4, on the code: CheckAuth never hands a denial to its caller. Under
    every schedule, what CheckAuth comes back with is a grant or the panic
    "close of closed channel": on the path of [done_channel] the deferred
    [close(done_channel)] finds the channel closed by the waiting goroutine.
    In the engine with no role at all, every request ends this way. *)
Theorem CheckAuth_never_returns_denial :
  (∀ order sched request w s res,
     CheckAuth validate_nil order sched request w = Some s →
     returned s = Some res →
     match res with
     | Ok r => Auth r = true
     | Panicked p => p = CloseOfClosedChannel
     | Err _ => False
     end)
  ∧ (∀ request,
       returned <$> CheckAuth validate_nil []
                      [TWaiter; TWaiter; TMain false; TMain false; TMain false]
                      request fresh_engine
       = Some (Some (Panicked CloseOfClosedChannel))).
Proof.
  split; [|done].
  intros order sched request w s res Hs Hr. unfold CheckAuth in Hs.
  destruct (role_heap (heap w) !! root_role (engine w)) as [root|];
    simpl in Hs; [|done].
  injection Hs as <-.
  pose proof (grants_only_run (heap w) request
                (CheckAuth_roles (Subroles root) order) sched _
                (grants_only_init (CheckAuth_roles (Subroles root) order)))
    as (_&_&Hm).
  unfold returned in Hr.
  destruct (main (run _ _ _ _ _ _)); by simplify_eq.
Qed.

(** C1, on the code: CheckAuth does not read the roles of the request. Two
    requests that differ only in their roles run alike, and a request
    that names no role at all is granted "read" on "/studies/1" by the
    role "analyst" of the engine. *)
Theorem CheckAuth_ignores_request_roles :
  (∀ order sched roles1 roles2 action constraints w,
     CheckAuth validate_nil order sched (mkAuthRequest roles1 action constraints) w
     = CheckAuth validate_nil order sched (mkAuthRequest roles2 action constraints) w)
  ∧ authRequest_Roles roleless_request = []
  ∧ ((λ root, CheckAuth_roles (Subroles root) (elements (Subroles root)))
       <$> role_heap (heap analyst_engine) !! root_role (engine analyst_engine))
    = Some [None; Some 1]
  ∧ returned <$> CheckAuth validate_nil [1]
                   [TWorker 1; TWorker 1; TMain false; TMain false; TMain false]
                   roleless_request analyst_engine
    = Some (Some (Ok (mkAuthResponse true (Some "analyst"%string) (Some 0) []))).
Proof.
  split; [|split; [reflexivity|split; by vm_compute]].
  (* the steps read the request through its action and constraints only *)
  intros order sched roles1 roles2 action constraints w. reflexivity.
Qed.

(** ** Detaching roles *)

Lemma keeps_permissions_detachRoleRecursively role :
  keeps_permissions (detachRoleRecursively role).
Proof.
  unfold detachRoleRecursively, detachRole.
  apply keeps_permissions_bind; [keeps|intros _].
  apply keeps_permissions_bind; [done|intros subs]. keeps.
Qed.

Lemma dropPermissionIfOrphaned_orphan permission p w :
  perm_heap (heap w) !! permission = Some p →
  rolesGranting p = ∅ →
  dropPermissionIfOrphaned permission w
  = (Ok tt, on_engine (set_permissions (delete (Permission_ID p))) w).
Proof.
  intros Hp Hg. unfold dropPermissionIfOrphaned. rewrite Hp, Hg.
  by rewrite size_empty.
Qed.

(** ** The subtree that a load builds *)

Lemma perm_at_extends h h' q pj :
  perm_heap h `prefix_of` perm_heap h' →
  res_heap h `prefix_of` res_heap h' →
  svc_heap h `prefix_of` svc_heap h' →
  perm_at h q pj → perm_at h' q pj.
Proof.
  intros Hp Hr Hs (perm&s&r&Hq&?&?&?&?&Hsvc&Hres).
  exists perm, s, r. split_and!; try done.
  - by eapply prefix_lookup_Some.
  - destruct (svc_heap h !! s) as [svc|] eqn:E; [|done].
    by rewrite (prefix_lookup_Some _ _ _ _ E Hs).
  - destruct (res_heap h !! r) as [res|] eqn:E; [|done].
    by rewrite (prefix_lookup_Some _ _ _ _ E Hr).
Qed.

Lemma engine_consistent_extends w w' :
  engine_consistent w → heap_extends (heap w) (heap w') →
  engine w' = engine w → engine_consistent w'.
Proof.
  intros (H1&H2&H3&H4) (P1&P2&P3&P4) He. unfold engine_consistent. rewrite He.
  split_and!; intros k p Hk.
  - specialize (H1 k p Hk). destruct (role_heap (heap w) !! p) eqn:E; [|done].
    by rewrite (prefix_lookup_Some _ _ _ _ E P1).
  - specialize (H2 k p Hk). destruct (svc_heap (heap w) !! p) eqn:E; [|done].
    by rewrite (prefix_lookup_Some _ _ _ _ E P4).
  - specialize (H3 k p Hk). destruct (res_heap (heap w) !! p) eqn:E; [|done].
    by rewrite (prefix_lookup_Some _ _ _ _ E P3).
  - specialize (H4 k p Hk). destruct (perm_heap (heap w) !! p) eqn:E; [|done].
    by rewrite (prefix_lookup_Some _ _ _ _ E P2).
Qed.

Lemma engine_consistent_modify_role w p f :
  (∀ r, Role_ID (f r) = Role_ID r) →
  engine_consistent w →
  engine_consistent (on_heap (set_role_heap (alter f p)) w).
Proof.
  intros Hf (H1&H2&H3&H4). split_and!; try done.
  intros k q Hk. specialize (H1 k q Hk). simpl in *.
  destruct (decide (p = q)) as [->|Hne].
  - rewrite list_lookup_alter_eq.
    destruct (role_heap (heap w) !! q); simpl in *; [|done]. by rewrite Hf.
  - by rewrite list_lookup_alter_ne.
Qed.

Lemma lookup_fmap_app_l {A B} (f : A → B) (l l' : list A) p k :
  f <$> l !! p = Some k → f <$> (l ++ l') !! p = Some k.
Proof.
  destruct (l !! p) as [x|] eqn:E; [|done].
  by rewrite (lookup_app_l_Some _ _ _ _ E).
Qed.

Lemma lookup_fmap_alter {A B} (f : A → B) (g : A → A) (l : list A) n p k :
  (∀ x, f (g x) = f x) →
  f <$> l !! p = Some k → f <$> alter g n l !! p = Some k.
Proof.
  intros Hg. destruct (decide (n = p)) as [->|Hne].
  - rewrite list_lookup_alter_eq. destruct (l !! p); simpl; [|done]. by rewrite Hg.
  - by rewrite list_lookup_alter_ne.
Qed.

(** What a permission load returns: a new object that carries the
    description, while the roles are left alone. *)
Lemma LoadPermissionFromJSON_result pj w :
  engine_consistent w →
  wp (LoadPermissionFromJSON pj) w (λ r w',
    engine_consistent w'
    ∧ role_heap (heap w') = role_heap (heap w)
    ∧ roles (engine w') = roles (engine w)
    ∧ ∀ q, r = Ok q →
        q = length (perm_heap (heap w))
        ∧ q < length (perm_heap (heap w'))
        ∧ perm_at (heap w') q pj).
Proof.
  intros Hc. destruct Hc as (H1&H2&H3&H4).
  unfold wp, LoadPermissionFromJSON, newPermission, actionFromJSON, validateFields,
    findOrCreateService, findOrCreateResource, NewService, NewResource, bind,
    alloc_perm, alloc_svc, alloc_res, modify_perm, modify_engine, get_engine, ret.
  simpl.
  destruct (_ || _); simpl.
  { split_and!; try done.
    apply (engine_consistent_extends w); [by split_and!| |done].
    unfold heap_extends. simpl. split_and!; auto using prefix_app_r. }
  destruct (services (engine w) !! _) as [s|] eqn:Hs; simpl;
    (destruct (resources (engine w) !! _) as [x|] eqn:Hx; simpl).
  all: rewrite list_lookup_middle by done; simpl.
  all: split_and!; [| done | done |
    intros q [= <-]; split; [done|]; split;
      [rewrite length_alter, length_app; simpl; lia|];
      unfold perm_at; simpl;
      rewrite list_lookup_alter_eq, list_lookup_middle by done; simpl ].
  all: try (eexists _, _, _; split_and!; try reflexivity).
  all: try by (eauto using lookup_fmap_app_l).
  all: try by rewrite list_lookup_middle.
  all: unfold engine_consistent; simpl; split_and!; intros k p Hk;
       try by (eauto using lookup_fmap_app_l, lookup_fmap_alter).
  all: try by (apply lookup_fmap_alter; [done|]; eauto using lookup_fmap_app_l).
  all: apply lookup_insert_Some in Hk as [[<- <-]|[? Hk]];
       [by rewrite list_lookup_middle | eauto using lookup_fmap_app_l].
Qed.

Lemma tree_in_unfold h ID tags perms subroles p hi :
  tree_in h (mkRoleJSON ID tags perms subroles) p hi ↔
  ∃ r ps ss,
    role_heap h !! p = Some r
    ∧ Role_ID r = ID
    ∧ Tags r = tags
    ∧ Permissions r = list_to_set ps
    ∧ NoDup ps
    ∧ Forall2 (perm_at h) ps perms
    ∧ Subroles r = list_to_set ss
    ∧ Forall (λ s, Parent <$> role_heap h !! s = Some (Some p)) ss
    ∧ children_in h subroles ss (S p) hi.
Proof.
  assert (∀ ss lo,
    (fix children (subroles : list RoleJSON) (ss : list nat) (lo : nat) : Prop :=
       match subroles, ss with
       | [], [] => lo = hi
       | subroleJSON :: subroles', s :: ss' =>
           s = lo ∧ ∃ mid, tree_in h subroleJSON s mid ∧ children subroles' ss' mid
       | _, _ => False
       end) subroles ss lo ↔ children_in h subroles ss lo hi) as Hfix.
  { induction subroles as [|s l IH]; intros [|x ss] lo; simpl; try done.
    split; intros (->&mid&Ht&Hch); (split; [done|]); exists mid;
      (split; [done|]); by apply IH. }
  simpl. split; intros (r&ps&ss&?&?&?&?&?&?&?&?&Hch); exists r, ps, ss;
    split_and!; try done; by apply Hfix.
Qed.

Lemma tree_in_lt r : ∀ h p hi, tree_in h r p hi → p < hi.
Proof.
  induction r as [ID tags perms subroles IH] using RoleJSON_ind.
  intros h p hi (r&ps&ss&_&_&_&_&_&_&_&_&Hch)%tree_in_unfold.
  cut (S p ≤ hi); [lia|]. revert ss Hch. generalize (S p).
  induction IH as [|s l Hs _ IHl]; intros lo [|x ss] Hch; simpl in Hch;
    try done; [lia|].
  destruct Hch as (->&mid&Ht&Hch). apply Hs in Ht. apply IHl in Hch. lia.
Qed.

Lemma children_in_le h subroles : ∀ ss lo hi,
  children_in h subroles ss lo hi → lo ≤ hi.
Proof.
  induction subroles as [|s l IH]; intros [|x ss] lo hi Hch; simpl in Hch;
    try done; [lia|].
  destruct Hch as (->&mid&Ht%tree_in_lt&Hch%IH). lia.
Qed.

Lemma children_in_tops h subroles : ∀ ss lo hi,
  children_in h subroles ss lo hi → ∀ s, s ∈ ss → lo ≤ s < hi.
Proof.
  induction subroles as [|s l IH]; intros [|x ss] lo hi Hch; simpl in Hch;
    try done; [by intros ? ?%elem_of_nil|].
  destruct Hch as (->&mid&Ht&Hch). intros s' [->|Hs']%elem_of_cons.
  - apply tree_in_lt in Ht. apply children_in_le in Hch. lia.
  - apply tree_in_lt in Ht. specialize (IH _ _ _ Hch s' Hs'). lia.
Qed.

Lemma children_in_NoDup h subroles : ∀ ss lo hi,
  children_in h subroles ss lo hi → NoDup ss.
Proof.
  induction subroles as [|s l IH]; intros [|x ss] lo hi Hch; simpl in Hch;
    try done; [constructor|].
  destruct Hch as (->&mid&Ht%tree_in_lt&Hch). constructor; [|by eapply IH].
  intros Hin. pose proof (children_in_tops _ _ _ _ _ Hch _ Hin). lia.
Qed.

Lemma set_Parent_same r : set_Parent (Parent r) r = r.
Proof. by destruct r. Qed.

Lemma subtree_kept_inside p hi q hi' h h' :
  p < q → q < hi' → hi' ≤ hi → subtree_kept p hi h h' → subtree_kept q hi' h h'.
Proof.
  intros Hq Hlt Hhi (Hin&_&?&?&?). split_and!; try done.
  - intros x Hx. apply Hin. lia.
  - intros r Hr. exists (Parent r). rewrite set_Parent_same.
    rewrite Hin; [done|lia].
Qed.

Lemma tree_in_kept r : ∀ h h' p hi,
  subtree_kept p hi h h' → tree_in h r p hi → tree_in h' r p hi.
Proof.
  induction r as [ID tags perms subroles IH] using RoleJSON_ind.
  intros h h' p hi Hk (r&ps&ss&Hr&?&?&?&?&Hps&?&Hpar&Hch)%tree_in_unfold.
  apply tree_in_unfold. pose proof Hk as (Hin&Htop&Hp&Hres&Hsvc).
  destruct (Htop r Hr) as [x Hx].
  exists (set_Parent x r), ps, ss. split_and!; try done.
  - eapply Forall2_impl; [done|]. intros q pj. by apply perm_at_extends.
  - apply Forall_forall. intros s Hs. rewrite Forall_forall in Hpar.
    pose proof (children_in_tops _ _ _ _ _ Hch s Hs).
    rewrite Hin; [by apply Hpar | lia].
  - assert (∀ ss lo, S p ≤ lo → children_in h subroles ss lo hi →
                     children_in h' subroles ss lo hi) as Hgen; [|by apply Hgen].
    clear -IH Hk.
    induction IH as [|s l Hs _ IHl]; intros [|y ss] lo Hlo Hch; simpl in *;
      try done.
    destruct Hch as (->&mid&Ht&Hch). split; [done|]. exists mid.
    pose proof (tree_in_lt _ _ _ _ Ht). pose proof (children_in_le _ _ _ _ _ Hch).
    split.
    + eapply Hs; [|done]. eapply subtree_kept_inside; [| | |done]; lia.
    + apply IHl; [lia|done].
Qed.

Lemma children_in_kept h h' subroles : ∀ ss lo hi,
  (∀ q, lo ≤ q < hi → q ∉ ss → role_heap h' !! q = role_heap h !! q) →
  (∀ q r, q ∈ ss → role_heap h !! q = Some r →
          ∃ x, role_heap h' !! q = Some (set_Parent x r)) →
  perm_heap h `prefix_of` perm_heap h' →
  res_heap h `prefix_of` res_heap h' →
  svc_heap h `prefix_of` svc_heap h' →
  children_in h subroles ss lo hi → children_in h' subroles ss lo hi.
Proof.
  induction subroles as [|s l IH]; intros [|y ss] lo hi Hin Htop Hp Hr Hs Hch;
    simpl in *; try done.
  destruct Hch as (->&mid&Ht&Hch). split; [done|]. exists mid.
  pose proof (tree_in_lt _ _ _ _ Ht) as Hlt.
  pose proof (children_in_le _ _ _ _ _ Hch) as Hle.
  pose proof (children_in_tops _ _ _ _ _ Hch) as Htops.
  split.
  - eapply tree_in_kept; [|done]. split_and!; try done.
    + intros q Hq. apply Hin; [lia|].
      intros [->|Hq']%elem_of_cons; [lia|]. apply Htops in Hq'. lia.
    + intros r Hlo. apply Htop; [left|done].
  - apply IH; try done.
    + intros q Hq Hnot. apply Hin; [lia|].
      intros [->|Hq']%elem_of_cons; [lia|done].
    + intros q r Hq. apply Htop. by right.
Qed.

Lemma children_in_snoc h subroles x : ∀ ss lo mid hi,
  children_in h subroles ss lo mid → tree_in h x mid hi →
  children_in h (subroles ++ [x]) (ss ++ [mid]) lo hi.
Proof.
  induction subroles as [|s l IH]; intros [|y ss] lo mid hi Hch Ht;
    simpl in *; try done.
  - subst. split; [done|]. by exists hi.
  - destruct Hch as (->&mid'&Ht'&Hch). split; [done|]. exists mid'.
    split; [done|]. by apply IH.
Qed.

Lemma map_fold_insert_all (tags : gmap string string) :
  map_fold (λ tag value t, <[tag := value]> t) ∅ tags = tags.
Proof.
  induction tags as [|k v m Hk IH] using map_ind; [by rewrite map_fold_empty|].
  rewrite map_fold_insert_L; [by rewrite IH| |done].
  intros j1 j2 z1 z2 y Hne _ _. by apply insert_insert_ne.
Qed.

Lemma children_in_alter_outside h (f : Role → Role) n subroles ss lo hi :
  n < lo → children_in h subroles ss lo hi →
  children_in (set_role_heap (alter f n) h) subroles ss lo hi.
Proof.
  intros Hn Hch. eapply children_in_kept; [| | | | |done]; simpl; try done.
  - intros q Hq _. rewrite list_lookup_alter_ne; [done|lia].
  - intros q r Hq Hr. exists (Parent r). rewrite set_Parent_same.
    pose proof (children_in_tops _ _ _ _ _ Hch q Hq).
    rewrite list_lookup_alter_ne; [done|lia].
Qed.

Lemma children_in_extends h h' subroles ss lo hi :
  heap_extends h h' → hi ≤ length (role_heap h) →
  children_in h subroles ss lo hi → children_in h' subroles ss lo hi.
Proof.
  intros (Hr&Hp&Hres&Hs) Hhi Hch. eapply children_in_kept; [| | | | |done]; try done.
  - intros q Hq _.
    destruct (lookup_lt_is_Some_2 (role_heap h) q) as [r Hq']; [lia|].
    rewrite Hq'. by eapply prefix_lookup_Some.
  - intros q r Hq Hr'. exists (Parent r). rewrite set_Parent_same.
    by eapply prefix_lookup_Some.
Qed.

Lemma tree_in_alter_outside h (f : Role → Role) n r p hi :
  n < p → tree_in h r p hi → tree_in (set_role_heap (alter f n) h) r p hi.
Proof.
  intros Hn Ht. eapply tree_in_kept; [|done]. split_and!; simpl; try done.
  - intros q Hq. rewrite list_lookup_alter_ne; [done|lia].
  - intros r' Hr. exists (Parent r').
    rewrite set_Parent_same, list_lookup_alter_ne; [done|lia].
Qed.

Lemma children_in_link h n x subroles ss lo hi :
  x ∈ ss → children_in h subroles ss lo hi →
  children_in (set_role_heap (alter (set_Parent (Some n)) x) h) subroles ss lo hi.
Proof.
  intros Hx Hch. eapply children_in_kept; [| | | | |done]; simpl; try done.
  - intros q Hq Hnot. rewrite list_lookup_alter_ne; [done|]. by intros ->.
  - intros q r Hq Hr. destruct (decide (x = q)) as [->|Hne].
    + exists (Some n). by rewrite list_lookup_alter_eq, Hr.
    + exists (Parent r). by rewrite set_Parent_same, list_lookup_alter_ne.
Qed.

Lemma node_at_extends h h' n ID tags ps ss :
  heap_extends h h' → node_at h n ID tags ps ss → node_at h' n ID tags ps ss.
Proof.
  intros (Hp&_) (r&Hr&?). exists r. split; [|done]. by eapply prefix_lookup_Some.
Qed.

Lemma list_to_set_snoc (l : list nat) (x : nat) :
  list_to_set (l ++ [x]) =@{gset nat} {[x]} ∪ list_to_set l.
Proof.
  rewrite list_to_set_app_L. simpl. rewrite (right_id_L ∅ (∪)).
  apply (comm_L (∪)).
Qed.

(** The subtree a successful load has built. *)
Lemma recursivelyLoadRoleFromJSON_tree r : ∀ w,
  engine_consistent w →
  wp (recursivelyLoadRoleFromJSON malformed r) w (λ res w',
    engine_consistent w'
    ∧ ∀ p, res = Ok p →
        p = length (role_heap (heap w))
        ∧ tree_in (heap w') r p (length (role_heap (heap w')))
        ∧ Parent <$> role_heap (heap w') !! p = Some None).
Proof.
  induction r as [ID tags perms subroles IH] using RoleJSON_ind. intros w Hc.
  rewrite recursivelyLoadRoleFromJSON_unfold.
  apply wp_bind. unfold wp at 1, get_engine. simpl.
  destruct (roles (engine w) !! ID) eqn:HID.
  { by split. }
  apply wp_bind. unfold NewRole. destruct (_ || _).
  { by split. }
  unfold wp at 1, alloc_role. simpl.
  apply wp_bind. unfold wp at 1. rewrite modify_new_role. simpl.
  set (n := length (role_heap (heap w))).
  set (w1 := on_heap _ (on_heap _ w)).
  assert (engine_consistent w1) as Hc1.
  { apply engine_consistent_modify_role; [done|].
    apply (engine_consistent_extends w); [done| |done].
    unfold heap_extends. simpl. split_and!; auto using prefix_app_r. }
  assert (length (role_heap (heap w1)) = S n) as Hlen1.
  { unfold w1. simpl. rewrite length_alter, length_app. simpl. lia. }
  assert (node_at (heap w1) n ID tags [] []) as Hnode1.
  { unfold node_at, w1. cbn [heap role_heap on_heap set_role_heap].
    eexists. split.
    { rewrite list_lookup_alter_eq, list_lookup_middle by done. done. }
    split_and!; try done. simpl. apply map_fold_insert_all. }
  clearbody w1.
  (* the permissions *)
  apply wp_bind.
  apply (wp_for_each_prefix (λ pre w2,
    engine_consistent w2 ∧ length (role_heap (heap w2)) = S n
    ∧ ∃ ps, node_at (heap w2) n ID tags ps []
            ∧ Forall2 (perm_at (heap w2)) ps pre
            ∧ NoDup ps
            ∧ Forall (λ q, q < length (perm_heap (heap w2))) ps)).
  { split_and!; try done. exists []. split_and!; try done; constructor. }
  { intros pre pj post w2 _ (Hc2&Hlen2&ps&Hnode&Hps&Hnd&Hlt).
    apply wp_bind.
    pose proof (LoadPermissionFromJSON_result pj w2 Hc2) as Hres.
    pose proof (LoadPermissionFromJSON_extends pj w2) as Hext.
    unfold wp in Hres, Hext |- *.
    destruct (LoadPermissionFromJSON pj w2) as [[q|e|x] w3]; simpl in *;
      destruct Hres as (Hc3&Hrole&_&Hq); [|done..].
    destruct (Hq q eq_refl) as (->&Hqlt&Hat). clear Hq.
    destruct Hext as [[(_&Hpp&Hpr&Hpsv) _] _].
    pose proof Hnode as (rn&Hrn&_).
    rewrite (modify_role_Some _ _ _ rn) by (by rewrite Hrole). simpl.
    split_and!.
    - by apply engine_consistent_modify_role.
    - rewrite length_alter. congruence.
    - exists (ps ++ [length (perm_heap (heap w2))]). split_and!.
      + destruct Hnode as (r&Hr&?&?&?&HP&?).
        exists (set_Permissions (λ s, {[length (perm_heap (heap w2))]} ∪ s) r).
        split; [simpl; by rewrite list_lookup_alter_eq, Hrole, Hr|].
        split_and!; try done.
        simpl. by rewrite HP, list_to_set_snoc.
      + apply Forall2_app; [|by repeat constructor].
        eapply Forall2_impl; [done|]. intros a b. by apply perm_at_extends.
      + apply NoDup_app. split_and!; [done| |apply NoDup_singleton].
        intros a Ha ->%list_elem_of_singleton.
        rewrite Forall_forall in Hlt. apply Hlt in Ha. lia.
      + apply Forall_app. split; [|by repeat constructor].
        eapply Forall_impl; [done|]. simpl. intros a ?. lia. }
  clear w1 Hc1 Hlen1 Hnode1. intros w1 (Hc1&Hlen1&ps&Hnode1&Hps&Hnd&_).
  (* the subroles *)
  apply wp_bind.
  apply (wp_for_each_prefix (λ pre w2,
    engine_consistent w2
    ∧ Forall2 (perm_at (heap w2)) ps perms
    ∧ ∃ ss, node_at (heap w2) n ID tags ps ss
            ∧ children_in (heap w2) pre ss (S n) (length (role_heap (heap w2)))
            ∧ Forall (λ s, Parent <$> role_heap (heap w2) !! s = Some None) ss)).
  { split_and!; try done. exists []. by split_and!. }
  { intros pre sj post w2 Hsplit (Hc2&Hps2&ss&Hnode&Hch&Hpar).
    apply wp_bind.
    assert (sj ∈ subroles) as Hin.
    { rewrite Hsplit. apply elem_of_app. right. left. }
    rewrite Forall_forall in IH.
    pose proof (IH sj Hin w2 Hc2) as Hres.
    pose proof (recursivelyLoadRoleFromJSON_spec sj w2) as [Hext Hp].
    unfold wp in Hres |- *.
    destruct (recursivelyLoadRoleFromJSON malformed sj w2) as [[q|e|x] w3];
      simpl in *; destruct Hres as (Hc3&Hq); [|done..].
    destruct (Hq q eq_refl) as (->&Ht&Hqpar). clear Hq.
    destruct Hext as [Hh _]. pose proof Hh as (Hpr&Hpp&Hpres&Hpsv).
    pose proof Hnode as (r&Hr&_).
    rewrite (modify_role_Some _ _ _ r)
      by (by apply (prefix_lookup_Some _ _ _ _ Hr Hpr)).
    simpl. apply lookup_lt_Some in Hr.
    split_and!.
    - by apply engine_consistent_modify_role.
    - eapply Forall2_impl; [done|]. intros a b. by apply perm_at_extends.
    - exists (ss ++ [length (role_heap (heap w2))]). split_and!.
      + apply (node_at_extends _ _ _ _ _ _ _ Hh) in Hnode.
        destruct Hnode as (r'&Hr'&?&?&?&?&HS).
        exists (set_Subroles (λ s, {[length (role_heap (heap w2))]} ∪ s) r').
        split; [simpl; by rewrite list_lookup_alter_eq, Hr'|].
        split_and!; try done.
        simpl. by rewrite HS, list_to_set_snoc.
      + rewrite length_alter.
        apply (children_in_alter_outside (heap w3)); [lia|].
        apply children_in_snoc; [|done].
        by apply (children_in_extends (heap w2)).
      + apply Forall_app. split.
        * apply Forall_forall. intros s Hs. rewrite Forall_forall in Hpar.
          pose proof (children_in_tops _ _ _ _ _ Hch s Hs).
          rewrite list_lookup_alter_ne by lia.
          specialize (Hpar s Hs).
          destruct (role_heap (heap w2) !! s) as [rs|] eqn:E; [|done].
          by rewrite (prefix_lookup_Some _ _ _ _ E Hpr).
        * repeat constructor. rewrite list_lookup_alter_ne by lia. done. }
  clear w1 Hc1 Hlen1 Hnode1 Hps. intros w1 (Hc1&Hps&ss&Hnode1&Hch&Hpar).
  (* linking the subroles to the node *)
  pose proof Hnode1 as (r&Hr&HrID&Htags&HrP&HP&HS).
  apply wp_bind. unfold wp at 1, read_role. rewrite Hr. simpl.
  pose proof (children_in_NoDup _ _ _ _ _ Hch) as Hndss.
  pose proof (children_in_tops _ _ _ _ _ Hch) as Htops.
  assert (elements (Subroles r) ≡ₚ ss) as Hperm.
  { rewrite HS. by apply elements_list_to_set. }
  set (hi := length (role_heap (heap w1))) in *.
  apply wp_bind.
  apply (wp_for_each_prefix (λ pre w2,
    engine_consistent w2
    ∧ length (role_heap (heap w2)) = hi
    ∧ Forall2 (perm_at (heap w2)) ps perms
    ∧ node_at (heap w2) n ID tags ps ss
    ∧ children_in (heap w2) subroles ss (S n) hi
    ∧ Forall (λ s, Parent <$> role_heap (heap w2) !! s = Some (Some n)) pre)).
  { by split_and!. }
  { intros pre x post w2 Hsplit (Hc2&Hlen2&Hps2&Hnode2&Hch2&Hpre).
    assert (x ∈ ss) as Hx.
    { rewrite <- Hperm, Hsplit. apply elem_of_app. right. left. }
    pose proof (Htops x Hx) as Hxr.
    destruct (lookup_lt_is_Some_2 (role_heap (heap w2)) x) as [rx Hrx]; [lia|].
    unfold wp. rewrite (modify_role_Some _ _ _ rx Hrx). simpl. split_and!.
    - by apply engine_consistent_modify_role.
    - by rewrite length_alter.
    - done.
    - destruct Hnode2 as (r2&Hr2&?). exists r2. split; [|done].
      simpl. rewrite list_lookup_alter_ne; [done|lia].
    - by apply children_in_link.
    - assert (∀ s, s = x ∨ Parent <$> role_heap (heap w2) !! s = Some (Some n) →
                   Parent <$> alter (set_Parent (Some n)) x (role_heap (heap w2)) !! s
                   = Some (Some n)) as Hset.
      { intros s Hs. destruct (decide (x = s)) as [->|Hne].
        - rewrite list_lookup_alter_eq.
          destruct (lookup_lt_is_Some_2 (role_heap (heap w2)) s) as [rs Hrs]; [lia|].
          by rewrite Hrs.
        - rewrite list_lookup_alter_ne by done. by destruct Hs. }
      apply Forall_app. split; [|repeat constructor; apply Hset; by left].
      eapply Forall_impl; [done|]. intros s ?. apply Hset. by right. }
  intros w2 (Hc2&Hlen2&Hps2&Hnode2&Hch2&Hall).
  (* the name index *)
  apply wp_bind. unfold wp at 1, modify_engine. simpl.
  unfold wp, ret. simpl.
  destruct Hnode2 as (r2&Hr2&?&?&?&?&?).
  split.
  - destruct Hc2 as (Hcr&Hcs&Hcx&Hcp). unfold engine_consistent. simpl.
    split_and!; try done.
    intros k p [[<- <-]|[? Hk]]%lookup_insert_Some; [|by apply Hcr].
    rewrite Hr2. simpl. congruence.
  - intros p [= <-]. split; [done|]. rewrite Hlen2. split; [|by rewrite Hr2; simpl; congruence].
    apply tree_in_unfold. exists r2, ps, ss. split_and!; try done.
    apply Forall_forall. intros s Hs. rewrite <- Hperm in Hs.
    rewrite Forall_forall in Hall. by apply Hall.
Qed.

(** ** The subtree under the root *)

Lemma LoadRoleFromJSON_tree roleJSON w w' :
  engine_consistent w →
  root_role (engine w) < length (role_heap (heap w)) →
  LoadRoleFromJSON malformed roleJSON w = (Ok tt, w') →
  tree_in (heap w') roleJSON (length (role_heap (heap w)))
    (length (role_heap (heap w')))
  ∧ Parent <$> role_heap (heap w') !! length (role_heap (heap w)) = Some None
  ∧ engine_consistent w'
  ∧ root_role (engine w') = root_role (engine w)
  ∧ ∃ root, role_heap (heap w') !! root_role (engine w') = Some root
            ∧ length (role_heap (heap w)) ∈ Subroles root.
Proof.
  intros Hc Hroot. unfold LoadRoleFromJSON, bind.
  pose proof (recursivelyLoadRoleFromJSON_spec roleJSON w) as [Hext _].
  pose proof (recursivelyLoadRoleFromJSON_tree roleJSON w Hc) as [Hc1 Ht].
  destruct (recursivelyLoadRoleFromJSON malformed roleJSON w) as [[p|e|x] w1];
    simpl in *; [|done..].
  destruct (Ht p eq_refl) as (->&Htree&Hpar). clear Ht.
  destruct Hext as [(Hpre&_) (Hr&_)].
  destruct (lookup_lt_is_Some_2 _ _ Hroot) as [root Hlook].
  rewrite addNewRootNode_unfold, Hr, (prefix_lookup_Some _ _ _ _ Hlook Hpre).
  intros [= <-]. simpl. rewrite Hr.
  rewrite length_alter. split_and!.
  - by apply tree_in_alter_outside.
  - rewrite list_lookup_alter_ne; [done|lia].
  - by apply engine_consistent_modify_role.
  - done.
  - eexists. rewrite list_lookup_alter_eq.
    rewrite (prefix_lookup_Some _ _ _ _ Hlook Hpre). simpl.
    split; [done|]. simpl. apply elem_of_union. left. by apply elem_of_singleton.
Qed.

(** A role description loaded without error is on the heap as one subtree
    of new role objects: node for node the identifiers, tags and
    permissions of the description, the subroles of every node linked to
    it as their parent, and the top node left without a parent. *)
Theorem LoadRoleFromJSON_builds_tree (roleJSON : RoleJSON) (w w' : World) :
  engine_consistent w →
  root_role (engine w) < length (role_heap (heap w)) →
  LoadRoleFromJSON malformed roleJSON w = (Ok tt, w') →
  tree_in (heap w') roleJSON (length (role_heap (heap w)))
    (length (role_heap (heap w')))
  ∧ Parent <$> role_heap (heap w') !! length (role_heap (heap w)) = Some None.
Proof.
  intros Hc Hroot Hload.
  destruct (LoadRoleFromJSON_tree _ _ _ Hc Hroot Hload) as (?&?&_). by split.
Qed.

(** ** Every operation keeps the engine well formed *)

Lemma keeps_ok_bind {A B} (m : M A) (k : A → M B) :
  keeps_ok m → (∀ a, keeps_ok (k a)) → keeps_ok (bind m k).
Proof.
  intros Hm Hk w Hw. unfold bind. specialize (Hm w Hw).
  destruct (m w) as [[a|e|p] w']; simpl in *; auto.
  by apply Hk.
Qed.

Lemma keeps_ok_for_each {A} (l : list A) (body : A → M unit) :
  (∀ x, keeps_ok (body x)) → keeps_ok (for_each l body).
Proof.
  intros Hbody. induction l as [|x l IH]; [by intros w Hw|].
  change (for_each (x :: l) body) with (bind (body x) (λ _, for_each l body)).
  apply keeps_ok_bind; auto.
Qed.

Lemma keeps_ok_ret {A} (a : A) : keeps_ok (ret a).
Proof. by intros w Hw. Qed.
Lemma keeps_ok_raise {A} p : keeps_ok (@raise A p).
Proof. by intros w Hw. Qed.
Lemma keeps_ok_get_engine : keeps_ok get_engine.
Proof. by intros w Hw. Qed.
Lemma keeps_ok_read_role p : keeps_ok (read_role p).
Proof. intros w Hw. unfold read_role. by destruct (_ !! _). Qed.

Lemma keeps_ok_modify_role p f :
  (∀ r, Role_ID (f r) = Role_ID r) → keeps_ok (modify_role p f).
Proof.
  intros Hf w [Hc Hroot].
  destruct (modify_role_world p f w) as [->| ->]; [done|].
  split; [by apply engine_consistent_modify_role|].
  simpl. by rewrite length_alter.
Qed.

Lemma keeps_ok_modify_perm q f :
  (∀ p, Permission_ID (f p) = Permission_ID p) → keeps_ok (modify_perm q f).
Proof.
  intros Hf w [(H1&H2&H3&H4) Hroot].
  destruct (modify_perm_world q f w) as [->| ->]; [done|].
  split; [|done]. split_and!; try done.
  intros k x Hk. simpl. apply lookup_fmap_alter; [done|]. by apply H4.
Qed.

Lemma engine_consistent_modify_svc w p f :
  (∀ s, Service_ID (f s) = Service_ID s) →
  engine_consistent w →
  engine_consistent (on_heap (set_svc_heap (alter f p)) w).
Proof.
  intros Hf (H1&H2&H3&H4). split_and!; try done.
  intros k q Hk. simpl. apply lookup_fmap_alter; [done|]. by apply H2.
Qed.

Lemma keeps_ok_alloc_res r : keeps_ok (alloc_res r).
Proof.
  intros w [Hc Hroot]. split; [|done].
  apply (engine_consistent_extends w); [done| |done].
  unfold heap_extends. simpl. split_and!; auto using prefix_app_r.
Qed.

Lemma keeps_ok_delete_role k : keeps_ok (modify_engine (set_roles (delete k))).
Proof.
  intros w [(H1&H2&H3&H4) Hroot]. split; [|done]. split_and!; try done.
  simpl. intros k' p [_ Hk]%lookup_delete_Some. by apply H1.
Qed.

Lemma keeps_ok_delete_permission k :
  keeps_ok (modify_engine (set_permissions (delete k))).
Proof.
  intros w [(H1&H2&H3&H4) Hroot]. split; [|done]. split_and!; try done.
  simpl. intros k' p [_ Hk]%lookup_delete_Some. by apply H4.
Qed.

Lemma keeps_ok_recursivelyLoadRoleFromJSON r :
  keeps_ok (recursivelyLoadRoleFromJSON malformed r).
Proof.
  intros w [Hc Hroot].
  pose proof (recursivelyLoadRoleFromJSON_spec r w) as [Hext _].
  pose proof (recursivelyLoadRoleFromJSON_tree r w Hc) as [Hc1 _].
  split; [done|]. destruct Hext as [(Hp&_) (Hr&_)].
  apply prefix_length in Hp. rewrite Hr. lia.
Qed.

Lemma keeps_ok_LoadPermissionFromJSON pj : keeps_ok (LoadPermissionFromJSON pj).
Proof.
  intros w [Hc Hroot].
  pose proof (LoadPermissionFromJSON_extends pj w) as [Hext _].
  pose proof (LoadPermissionFromJSON_result pj w Hc) as (Hc1&Hh&_).
  split; [done|]. destruct Hext as [_ (Hr&_)]. rewrite Hr, Hh. done.
Qed.

Lemma keeps_ok_LoadRoleFromJSON r : keeps_ok (LoadRoleFromJSON malformed r).
Proof.
  unfold LoadRoleFromJSON, addNewRootNode.
  apply keeps_ok_bind; [apply keeps_ok_recursivelyLoadRoleFromJSON|]. intros p.
  apply keeps_ok_bind; [apply keeps_ok_get_engine|]. intros e.
  by apply keeps_ok_modify_role.
Qed.

Lemma keeps_ok_updateRoleWithJSON roleID r :
  keeps_ok (updateRoleWithJSON malformed roleID r).
Proof.
  unfold updateRoleWithJSON, FindRoleNamed, update.
  apply keeps_ok_bind.
  { apply keeps_ok_bind; [apply keeps_ok_get_engine|]. intros e. apply keeps_ok_ret. }
  intros role.
  apply keeps_ok_bind; [apply keeps_ok_recursivelyLoadRoleFromJSON|]. intros p.
  destruct role as [role|]; [|apply keeps_ok_raise].
  apply keeps_ok_bind; [apply keeps_ok_read_role|]. intros o.
  apply keeps_ok_bind; [by apply keeps_ok_modify_role|]. intros _.
  apply keeps_ok_bind.
  { apply keeps_ok_for_each. intros q. by apply keeps_ok_modify_perm. }
  intros _. apply keeps_ok_for_each. intros s. by apply keeps_ok_modify_role.
Qed.

Lemma keeps_ok_detachRole role : keeps_ok (detachRole role).
Proof.
  unfold detachRole.
  apply keeps_ok_bind; [apply keeps_ok_read_role|]. intros r.
  destruct (Parent r); [|apply keeps_ok_raise].
  apply keeps_ok_bind; [by apply keeps_ok_modify_role|]. intros _.
  apply keeps_ok_delete_role.
Qed.

Lemma keeps_ok_detachRoleRecursively role : keeps_ok (detachRoleRecursively role).
Proof.
  unfold detachRoleRecursively, allSubroles.
  apply keeps_ok_bind; [apply keeps_ok_detachRole|]. intros _.
  apply keeps_ok_bind; [by intros w Hw|]. intros subs.
  apply keeps_ok_for_each. intros s.
  apply keeps_ok_bind; [apply keeps_ok_read_role|]. intros r.
  apply keeps_ok_delete_role.
Qed.

Lemma keeps_ok_dropPermissionIfOrphaned q : keeps_ok (dropPermissionIfOrphaned q).
Proof.
  intros w Hw. unfold dropPermissionIfOrphaned.
  destruct (perm_heap (heap w) !! q) as [p|]; [|done].
  destruct (decide _); [|done]. by apply keeps_ok_delete_permission.
Qed.

(** What a service load leaves behind: a new service object under the
    description's identifier, registered in place of any service of that
    name, whose alias table resolves every URI of the description to a
    resource object of the described name, and no other URI. *)
Lemma LoadServiceFromJSON_spec sj w :
  engine_consistent w →
  wp (LoadServiceFromJSON sj) w (λ r w',
    r = Ok (length (svc_heap (heap w)))
    ∧ engine_consistent w'
    ∧ engine w' = set_services (<[ServiceJSON_ID sj := length (svc_heap (heap w))]>)
                    (engine w)
    ∧ role_heap (heap w') = role_heap (heap w)
    ∧ perm_heap (heap w') = perm_heap (heap w)
    ∧ svc_heap (heap w) `prefix_of` svc_heap (heap w')
    ∧ res_heap (heap w) `prefix_of` res_heap (heap w')
    ∧ ∃ svc, svc_heap (heap w') !! length (svc_heap (heap w)) = Some svc
        ∧ Service_ID svc = ServiceJSON_ID sj
        ∧ (∀ uri name, URIsToResources sj !! uri = Some name →
             ∃ x, uriToResource svc !! uri = Some x
                  ∧ Resource_ID <$> res_heap (heap w') !! x = Some name)
        ∧ (∀ uri, URIsToResources sj !! uri = None →
             uriToResource svc !! uri = None)).
Proof.
  intros Hok. unfold LoadServiceFromJSON, NewService.
  apply wp_bind. unfold wp at 1, alloc_svc. simpl.
  set (s := length (svc_heap (heap w))).
  set (ID := ServiceJSON_ID sj).
  set (w1 := on_heap _ w).
  apply wp_bind.
  pose proof (NoDup_fst_map_to_list (URIsToResources sj)) as Hnd.
  apply (wp_for_each_prefix (λ pre w2,
    engine_consistent w2
    ∧ engine w2 = engine w
    ∧ role_heap (heap w2) = role_heap (heap w)
    ∧ perm_heap (heap w2) = perm_heap (heap w)
    ∧ svc_heap (heap w) `prefix_of` svc_heap (heap w2)
    ∧ res_heap (heap w) `prefix_of` res_heap (heap w2)
    ∧ ∃ svc, svc_heap (heap w2) !! s = Some svc
        ∧ Service_ID svc = ID
        ∧ (∀ uri name, (uri, name) ∈ pre →
             ∃ x, uriToResource svc !! uri = Some x
                  ∧ Resource_ID <$> res_heap (heap w2) !! x = Some name)
        ∧ (∀ uri, uri ∉ pre.*1 → uriToResource svc !! uri = None))).
  { split_and!; try done.
    - apply (engine_consistent_extends w); [done| |done].
      unfold heap_extends. simpl. split_and!; auto using prefix_app_r.
    - simpl. by apply prefix_app_r.
    - eexists. split; [by apply list_lookup_middle|]. split; [done|].
      split; [by intros ?? ?%elem_of_nil|done]. }
  { intros pre [uri name] post w2 Hsplit (Hok2&He&Hrh&Hph&Hsh&Hxh&svc&Hsvc&HsID&Hin&Hout).
    rewrite Hsplit, fmap_app, fmap_cons in Hnd.
    apply NoDup_app in Hnd as (_&Hnot&_). 
    assert (uri ∉ pre.*1) as Hfresh.
    { intros Hu. apply (Hnot uri Hu). left. }
    apply wp_bind. simpl.
    assert (∃ x w3, findOrCreateResource name w2 = (Ok x, w3)
              ∧ engine_consistent w3
              ∧ engine w3 = engine w2
              ∧ role_heap (heap w3) = role_heap (heap w2)
              ∧ perm_heap (heap w3) = perm_heap (heap w2)
              ∧ svc_heap (heap w3) = svc_heap (heap w2)
              ∧ res_heap (heap w2) `prefix_of` res_heap (heap w3)
              ∧ Resource_ID <$> res_heap (heap w3) !! x = Some name)
      as (x&w3&Hf&Hok3&He3&Hrh3&Hph3&Hsh3&Hxh3&Hx).
    { unfold findOrCreateResource, bind, get_engine, NewResource, alloc_res, ret.
      simpl. destruct (resources (engine w2) !! name) as [x|] eqn:Hx.
      - exists x, w2. split_and!; try done.
        destruct Hok2 as (_&_&H3&_). by apply H3.
      - eexists _, _. split; [done|]. simpl. split_and!; try done.
        + apply (engine_consistent_extends w2); [done| |done].
          unfold heap_extends. simpl. split_and!; auto using prefix_app_r.
        + by apply prefix_app_r.
        + by rewrite list_lookup_middle. }
    unfold wp at 1. rewrite Hf. simpl in *.
    unfold wp. rewrite (modify_svc_Some _ _ _ svc) by (by rewrite Hsh3).
    simpl. split_and!; try congruence.
    - by apply engine_consistent_modify_svc.
    - rewrite <- Hsh3 in Hsh. destruct Hsh as [k Hk]. rewrite Hk.
      rewrite alter_app_r_alt by (unfold s; lia).
      by apply prefix_app_r.
    - by etrans.
    - eexists. rewrite list_lookup_alter_eq, Hsh3, Hsvc. simpl.
      split; [done|]. split; [done|]. simpl. split.
      + intros uri' name' [Hpre|[= -> ->]%list_elem_of_singleton]%elem_of_app.
        * destruct (Hin _ _ Hpre) as (y&Hy&Hyn).
          assert (uri' ≠ uri) as Hne.
          { intros ->. apply Hfresh. apply list_elem_of_fmap. by exists (uri, name'). }
          exists y. rewrite lookup_insert_ne by done. split; [done|].
          destruct (res_heap (heap w2) !! y) as [ry|] eqn:E; [|done].
          by rewrite (prefix_lookup_Some _ _ _ _ E Hxh3).
        * exists x. by rewrite lookup_insert_eq.
      + intros uri' Hno. rewrite fmap_app in Hno.
        apply not_elem_of_app in Hno as [Hno1 Hno2].
        rewrite lookup_insert_ne; [by apply Hout|].
        intros <-. apply Hno2. simpl. left. }
  intros w2 (Hok2&He&Hrh&Hph&Hsh&Hxh&svc&Hsvc&HsID&Hin&Hout).
  apply wp_bind. unfold wp at 1, modify_engine. simpl.
  unfold wp, ret. simpl. split_and!; try done.
  - destruct Hok2 as (H1&H2&H3&H4).
    unfold engine_consistent. simpl. split_and!; try done.
    intros k q [[<- <-]|[? Hk]]%lookup_insert_Some; [|by apply H2].
    fold s. by rewrite Hsvc; simpl; f_equal.
  - by rewrite He.
  - exists svc. split_and!; try done.
    + intros uri name Hu. apply Hin. by apply elem_of_map_to_list.
    + intros uri Hu. apply Hout. intros ([u n]&->&Hun)%list_elem_of_fmap.
      apply elem_of_map_to_list in Hun. simpl in Hu. congruence.
Qed.

Lemma keeps_ok_LoadServiceFromJSON sj : keeps_ok (LoadServiceFromJSON sj).
Proof.
  intros w [Hc Hroot].
  destruct (LoadServiceFromJSON_spec sj w Hc) as (_&Hc'&He&Hh&_).
  split; [done|]. by rewrite He, Hh.
Qed.

Lemma keeps_ok_run_op op : ∀ w, engine_ok w → engine_ok (run_op malformed op w).
Proof.
  destruct op as [[r|roleID r|s|p]|role|role|q]; simpl.
  - apply keeps_ok_LoadRoleFromJSON.
  - apply keeps_ok_updateRoleWithJSON.
  - apply keeps_ok_LoadServiceFromJSON.
  - apply keeps_ok_LoadPermissionFromJSON.
  - apply keeps_ok_detachRole.
  - apply keeps_ok_detachRoleRecursively.
  - apply keeps_ok_dropPermissionIfOrphaned.
Qed.

Lemma engine_ok_NewAuthEngine w0 : NewAuthEngine malformed = Ok w0 → engine_ok w0.
Proof.
  unfold NewAuthEngine, NewRole. destruct (_ || _); simpl; [done|].
  intros [= <-]. split; [|simpl; lia].
  unfold engine_consistent. simpl. split_and!; try done.
  by intros k p [<- <-]%lookup_singleton_Some.
Qed.

Lemma engine_ok_run_ops ops : ∀ w, engine_ok w → engine_ok (run_ops malformed ops w).
Proof.
  unfold run_ops. induction ops as [|op ops IH]; intros w Hw; simpl; [done|].
  by apply IH, keeps_ok_run_op.
Qed.

(** In an engine made by NewAuthEngine and worked on by any sequence of
    load, update, detach and drop operations, whatever they returned, the
    name indexes are right: a role, service, resource or permission found
    under a name is an object with that name as its identifier, and the
    root pointer is a role object. *)
Theorem name_indexes_stay_consistent (w0 : World) (ops : list engine_op) :
  NewAuthEngine malformed = Ok w0 →
  engine_consistent (run_ops malformed ops w0)
  ∧ is_Some (role_heap (heap (run_ops malformed ops w0))
               !! root_role (engine (run_ops malformed ops w0))).
Proof.
  intros Hnew.
  destruct (engine_ok_run_ops ops w0 (engine_ok_NewAuthEngine _ Hnew)) as [Hc Hr].
  split; [done|]. by apply lookup_lt_is_Some_2.
Qed.

(** ** The resource registry is never written *)

Lemma keeps_resources_bind {A B} (m : M A) (k : A → M B) :
  keeps_resources m → (∀ a, keeps_resources (k a)) → keeps_resources (bind m k).
Proof.
  intros Hm Hk w. unfold bind. specialize (Hm w).
  destruct (m w) as [[a|e|p] w']; simpl in *; auto.
  by rewrite Hk.
Qed.

Lemma keeps_resources_for_each {A} (l : list A) (body : A → M unit) :
  (∀ x, keeps_resources (body x)) → keeps_resources (for_each l body).
Proof.
  intros Hbody. induction l as [|x l IH]; [done|].
  change (for_each (x :: l) body) with (bind (body x) (λ _, for_each l body)).
  apply keeps_resources_bind; auto.
Qed.

Lemma keeps_resources_read_role p : keeps_resources (read_role p).
Proof. intros w. unfold read_role. by destruct (_ !! _). Qed.

Lemma keeps_resources_modify_role p f : keeps_resources (modify_role p f).
Proof. intros w. unfold modify_role. by destruct (_ !! _). Qed.
Lemma keeps_resources_modify_perm p f : keeps_resources (modify_perm p f).
Proof. intros w. unfold modify_perm. by destruct (_ !! _). Qed.
Lemma keeps_resources_modify_svc p f : keeps_resources (modify_svc p f).
Proof. intros w. unfold modify_svc. by destruct (_ !! _). Qed.

(** Walks down a call as [keeps] does; the writes to the other registries
    are immediate. *)
Ltac keeps_resources :=
  repeat first
    [ apply keeps_resources_read_role
    | apply keeps_resources_modify_role
    | apply keeps_resources_modify_perm
    | apply keeps_resources_modify_svc
    | apply keeps_resources_bind; [|intros ?]
    | apply keeps_resources_for_each; intros ?
    | match goal with
      | |- keeps_resources (match ?x with _ => _ end) => destruct x
      | |- keeps_resources (if ?x then _ else _) => destruct x
      end
    | by intros ? ].

Lemma keeps_resources_LoadPermissionFromJSON p :
  keeps_resources (LoadPermissionFromJSON p).
Proof.
  unfold LoadPermissionFromJSON, newPermission, actionFromJSON, validateFields,
    findOrCreateService, findOrCreateResource, NewService, NewResource.
  keeps_resources.
Qed.

Lemma keeps_resources_recursivelyLoadRoleFromJSON r :
  keeps_resources (recursivelyLoadRoleFromJSON malformed r).
Proof.
  intros w. by destruct (recursivelyLoadRoleFromJSON_spec r w) as [[_ (_&_&?&_)] _].
Qed.

Lemma keeps_resources_detachRole role : keeps_resources (detachRole role).
Proof. unfold detachRole. keeps_resources. Qed.

Lemma keeps_resources_run_op op w :
  resources (engine (run_op malformed op w)) = resources (engine w).
Proof.
  destruct op as [[r|roleID r|s|p]|role|role|q]; simpl.
  - assert (keeps_resources (LoadRoleFromJSON malformed r)) as H; [|apply H].
    unfold LoadRoleFromJSON, addNewRootNode.
    apply keeps_resources_bind; [apply keeps_resources_recursivelyLoadRoleFromJSON|].
    intros ?. keeps_resources.
  - assert (keeps_resources (updateRoleWithJSON malformed roleID r)) as H; [|apply H].
    unfold updateRoleWithJSON, FindRoleNamed, update.
    apply keeps_resources_bind; [keeps_resources|]. intros ?.
    apply keeps_resources_bind; [apply keeps_resources_recursivelyLoadRoleFromJSON|].
    intros ?. keeps_resources.
  - assert (keeps_resources (LoadServiceFromJSON s)) as H; [|apply H].
    unfold LoadServiceFromJSON, NewService, findOrCreateResource, NewResource.
    keeps_resources.
  - apply keeps_resources_LoadPermissionFromJSON.
  - apply keeps_resources_detachRole.
  - assert (keeps_resources (detachRoleRecursively role)) as H; [|apply H].
    unfold detachRoleRecursively, allSubroles.
    apply keeps_resources_bind; [apply keeps_resources_detachRole|].
    intros ?. keeps_resources.
  - unfold dropPermissionIfOrphaned.
    destruct (perm_heap (heap w) !! q) as [p|]; [|done]. by destruct (decide _).
Qed.

Lemma resources_run_ops ops : ∀ w,
  resources (engine (run_ops malformed ops w)) = resources (engine w).
Proof.
  unfold run_ops. induction ops as [|op ops IH]; intros w; simpl; [done|].
  by rewrite IH, keeps_resources_run_op.
Qed.

(** No engine operation ever registers a resource: in an engine made by
    NewAuthEngine and worked on by any sequence of operations the resource
    registry is empty, nothing is listed by ListResourceNames and
    allResources, and every request that ParseRequest returns has a nil
    resource, whatever resource its body named. *)
Theorem ParseRequest_never_resolves (w0 : World) (ops : list engine_op)
    (body : list byte) :
  NewAuthEngine malformed = Ok w0 →
  (∀ w, resources (engine (Unmarshal body w).2) = resources (engine w)) →
  let w := run_ops malformed ops w0 in
  resources (engine w) = ∅
  ∧ (∀ order, order ≡ₚ map_to_list (resources (engine w)) →
       ListResourceNames order w = (Ok [], w) ∧ allResources order w = (Ok [], w))
  ∧ ∀ request err w',
      ParseRequest Unmarshal body w = (Ok (request, err), w') →
      Action_Resource (authRequest_Action request) = None.
Proof.
  intros Hnew HU w.
  assert (resources (engine w) = ∅) as Hempty.
  { unfold w. rewrite resources_run_ops.
    unfold NewAuthEngine, NewRole in Hnew.
    destruct (_ || _); simpl in Hnew; [done|]. by simplify_eq. }
  split; [done|]. split.
  - intros order Ho. rewrite Hempty, map_to_list_empty in Ho.
    apply Permutation_nil_r in Ho. by subst order.
  - intros request err w'. unfold ParseRequest, bind.
    specialize (HU w). destruct (Unmarshal body w) as [[req e] w1]. simpl in *.
    destruct (Action_Resource (authRequest_Action req)) as [p|]; [|done].
    destruct (res_heap (heap w1) !! p) as [res|]; [|done].
    unfold findResource, bind, get_engine, ret. simpl.
    rewrite HU, Hempty, lookup_empty. by intros [= <- <- <-].
Qed.

(** ** Which descriptions are accepted *)

Lemma distinct_siblings_unfold ID tags perms subroles :
  distinct_siblings (mkRoleJSON ID tags perms subroles) = true ↔
  Forall (λ s, distinct_siblings s = true) subroles ∧ fresh_siblings subroles.
Proof.
  simpl.
  assert (∀ seen,
    (fix go (subroles : list RoleJSON) (seen : list string) : bool :=
       match subroles with
       | [] => true
       | subroleJSON :: subroles' =>
           distinct_siblings subroleJSON
           && forallb (λ id, bool_decide (id ∉ seen)) (role_ids subroleJSON)
           && go subroles' (seen ++ role_ids subroleJSON)
       end) subroles seen = true ↔
    Forall (λ s, distinct_siblings s = true) subroles
    ∧ ∀ pre sj post, subroles = pre ++ sj :: post →
        ∀ id, id ∈ role_ids sj → id ∉ seen ++ flat_map role_ids pre) as Hgen.
  { induction subroles as [|s l IH]; intros seen.
    - split; [|done]. intros _. split; [constructor|].
      intros pre sj post Heq. by destruct pre.
    - rewrite !andb_true_iff, IH, forallb_forall. split.
      + intros [[Hs Hfresh] [Hl Hrest]]. split; [by constructor|].
        intros [|s' pre] sj post [= <- Heq] id Hid.
        * simpl. rewrite app_nil_r.
          apply list_elem_of_In, Hfresh, bool_decide_eq_true in Hid. done.
        * subst l. simpl. rewrite app_assoc. by eapply Hrest.
      + intros [[Hs Hl]%Forall_cons Hfresh]. split_and!; try done.
        * intros id Hid%list_elem_of_In. apply bool_decide_eq_true.
          specialize (Hfresh [] s l eq_refl id Hid). simpl in Hfresh.
          by rewrite app_nil_r in Hfresh.
        * intros pre sj post -> id Hid. rewrite <- app_assoc.
          by apply (Hfresh (s :: pre) sj post eq_refl id Hid). }
  rewrite Hgen. unfold fresh_siblings. simpl. done.
Qed.

Lemma recursivelyLoadRoleFromJSON_accepts r : ∀ w,
  valid_description malformed r = true →
  distinct_siblings r = true →
  (∀ id, id ∈ role_ids r → roles (engine w) !! id = None) →
  ∃ p, (recursivelyLoadRoleFromJSON malformed r w).1 = Ok p.
Proof.
  induction r as [ID tags perms subroles IH] using RoleJSON_ind.
  intros w Hv Hnd Hfree.
  assert (wp (recursivelyLoadRoleFromJSON malformed (mkRoleJSON ID tags perms subroles)) w
            (λ res _, ∀ e, res ≠ Err e)) as Hwp.
  2:{ pose proof (recursivelyLoadRoleFromJSON_spec
                    (mkRoleJSON ID tags perms subroles) w) as [_ Hp].
      unfold wp in Hwp.
      destruct (recursivelyLoadRoleFromJSON malformed _ w) as [[p|e|x] w'];
        [by eexists|by destruct (Hwp e)|done]. }
  simpl in Hv.
  apply andb_true_iff in Hv as [[HID Hperms]%andb_true_iff Hsubs].
  rewrite role_ids_unfold in Hfree.
  apply distinct_siblings_unfold in Hnd as [Hds Hfresh].
  rewrite recursivelyLoadRoleFromJSON_unfold.
  apply wp_bind. unfold wp at 1, get_engine. simpl.
  rewrite (Hfree ID) by left.
  apply wp_bind. unfold NewRole.
  apply negb_true_iff in HID. rewrite HID.
  unfold wp at 1, alloc_role. simpl.
  apply wp_bind. unfold wp at 1. rewrite modify_new_role. simpl.
  set (n := length (role_heap (heap w))).
  set (w1 := on_heap _ (on_heap _ w)).
  assert (roles (engine w1) = roles (engine w)
          ∧ n < length (role_heap (heap w1))) as H1.
  { split; [done|]. unfold w1. simpl. rewrite length_alter, length_app. simpl. lia. }
  clearbody w1.
  apply wp_bind.
  apply (wp_for_each (λ w2, roles (engine w2) = roles (engine w)
                            ∧ n < length (role_heap (heap w2)))); [done| |].
  { intros pj w2 Hp [H2 Hn2]. apply wp_bind. unfold wp at 1.
    rewrite forallb_forall in Hperms.
    pose proof (LoadPermissionFromJSON_valid pj w2
                  (Hperms pj (proj1 (list_elem_of_In _ _) Hp))) as Hne.
    pose proof (LoadPermissionFromJSON_extends pj w2) as [[(Hpre&_) _] Hnp].
    pose proof (LoadPermissionFromJSON_roles pj w2) as H3.
    apply prefix_length in Hpre.
    destruct (LoadPermissionFromJSON pj w2) as [[q|e|x] w3]; simpl in *.
    - apply wp_modify_role; [|done]. intros _ _. simpl. rewrite length_alter.
      split; [congruence|lia].
    - by destruct (Hne e).
    - by destruct (Hnp x). }
  clear w1 H1. intros w1 [H1 Hn1].
  apply wp_bind.
  apply (wp_for_each_prefix (λ pre w2,
    dom (roles (engine w2))
    = dom (roles (engine w)) ∪ list_to_set (flat_map role_ids pre)
    ∧ n < length (role_heap (heap w2)))).
  { split; [|done]. rewrite H1. simpl. set_solver. }
  { intros pre sj post w2 Hsplit [H2 Hn2]. apply wp_bind.
    assert (sj ∈ subroles) as Hin.
    { rewrite Hsplit. apply elem_of_app. right. left. }
    rewrite Forall_forall in IH, Hds. rewrite forallb_forall in Hsubs.
    destruct (IH sj Hin w2 (Hsubs sj (proj1 (list_elem_of_In _ _) Hin))
                (Hds sj Hin)) as [q Hq].
    { intros id Hid. apply not_elem_of_dom. rewrite H2.
      apply not_elem_of_union. split.
      - apply not_elem_of_dom, Hfree. right. rewrite Hsplit, flat_map_app. simpl.
        apply elem_of_app. right. apply elem_of_app. by left.
      - rewrite elem_of_list_to_set. by apply (Hfresh pre sj post). }
    pose proof (recursivelyLoadRoleFromJSON_names sj w2) as [_ Heq].
    pose proof (recursivelyLoadRoleFromJSON_spec sj w2) as [[(Hpre&_) _] _].
    apply prefix_length in Hpre.
    unfold wp at 1.
    destruct (recursivelyLoadRoleFromJSON malformed sj w2) as [[q'|e|x] w3];
      simpl in *; [|done..].
    apply wp_modify_role; [|done]. intros _ _. simpl. rewrite length_alter.
    split; [|lia]. rewrite (Heq q' eq_refl), H2, flat_map_snoc.
    set_solver. }
  intros w2 [_ Hn2].
  apply wp_bind. unfold wp at 1, read_role.
  destruct (lookup_lt_is_Some_2 (role_heap (heap w2)) n Hn2) as [rn Hrn].
  fold n. rewrite Hrn. simpl.
  apply wp_bind.
  apply (wp_for_each (λ _, True)); [done| |].
  { intros x w3 _ _. by apply wp_modify_role. }
  intros w3 _. by unfold wp.
Qed.

Lemma fresh_siblings_snoc pre sj :
  fresh_siblings pre →
  (∀ id, id ∈ role_ids sj → id ∉ flat_map role_ids pre) →
  fresh_siblings (pre ++ [sj]).
Proof.
  intros Hpre Hsj pre' s' post' Heq.
  destruct post' as [|x post' _] using rev_ind.
  - apply app_inj_tail in Heq as [-> ->]. done.
  - rewrite app_comm_cons, app_assoc in Heq.
    apply app_inj_tail in Heq as [-> _]. by eapply Hpre.
Qed.

(** What a load that succeeded tells about the description. *)
Lemma recursivelyLoadRoleFromJSON_accepted r : ∀ w,
  wp (recursivelyLoadRoleFromJSON malformed r) w (λ res _,
    ∀ p, res = Ok p →
      valid_description malformed r = true ∧ distinct_siblings r = true).
Proof.
  induction r as [ID tags perms subroles IH] using RoleJSON_ind. intros w.
  rewrite recursivelyLoadRoleFromJSON_unfold.
  apply wp_bind. unfold wp at 1, get_engine. simpl.
  destruct (roles (engine w) !! ID) eqn:HID; [done|].
  apply wp_bind. unfold NewRole.
  destruct (bool_decide (ID = EmptyString) || malformed ID) eqn:HvID; [done|].
  unfold wp at 1, alloc_role. simpl.
  apply wp_bind. unfold wp at 1. rewrite modify_new_role. simpl.
  set (w1 := on_heap _ (on_heap _ w)).
  assert (roles (engine w1) = roles (engine w)) as H1 by done.
  clearbody w1.
  apply wp_bind.
  apply (wp_for_each_prefix (λ pre w2,
    roles (engine w2) = roles (engine w)
    ∧ Forall (λ pj, valid_action (PermissionJSON_Action pj) = true) pre)).
  { by split. }
  { intros pre pj post w2 _ [H2 Hpre]. apply wp_bind. unfold wp at 1.
    pose proof (LoadPermissionFromJSON_Ok_valid pj w2) as Hv.
    pose proof (LoadPermissionFromJSON_roles pj w2) as H3.
    destruct (LoadPermissionFromJSON pj w2) as [[q|e|x] w3]; simpl in *;
      [|done..].
    apply wp_modify_role; [|done]. intros _ _. simpl. split; [congruence|].
    apply Forall_app. split; [done|]. repeat constructor. by eapply Hv. }
  clear w1 H1. intros w1 [H1 Hperms].
  apply wp_bind.
  apply (wp_for_each_prefix (λ pre w2,
    dom (roles (engine w2))
    = dom (roles (engine w)) ∪ list_to_set (flat_map role_ids pre)
    ∧ Forall (λ s, valid_description malformed s = true) pre
    ∧ Forall (λ s, distinct_siblings s = true) pre
    ∧ fresh_siblings pre)).
  { split_and!; try done.
    - rewrite H1. simpl. set_solver.
    - intros pre sj post Heq. by destruct pre. }
  { intros pre sj post w2 Hsplit (H2&Hv&Hd&Hf). apply wp_bind.
    assert (sj ∈ subroles) as Hin.
    { rewrite Hsplit. apply elem_of_app. right. left. }
    rewrite Forall_forall in IH.
    pose proof (IH sj Hin w2) as Hsj.
    pose proof (recursivelyLoadRoleFromJSON_names sj w2) as [_ Heq].
    pose proof (recursivelyLoadRoleFromJSON_clash sj w2) as Hclash.
    unfold wp in Hsj. unfold wp at 1.
    destruct (recursivelyLoadRoleFromJSON malformed sj w2) as [[q|e|x] w3];
      simpl in *; [|done..].
    destruct (Hsj q eq_refl) as [Hvsj Hdsj].
    apply wp_modify_role; [|done]. intros _ _. simpl. split_and!.
    - rewrite (Heq q eq_refl), H2, flat_map_snoc. set_solver.
    - apply Forall_app. split; [done|]. by repeat constructor.
    - apply Forall_app. split; [done|]. by repeat constructor.
    - apply fresh_siblings_snoc; [done|]. intros id Hid Hpre.
      destruct (Hclash id Hid) as [e He]; [|done].
      apply elem_of_dom. rewrite H2. apply elem_of_union. right.
      by apply elem_of_list_to_set. }
  intros w2 (_&Hv&Hd&Hf).
  apply wp_bind. unfold wp at 1, read_role.
  destruct (role_heap (heap w2) !! _); simpl; [|done].
  apply wp_bind.
  apply (wp_for_each (λ _, True)); [done| |].
  { intros x w3 _ _. by apply wp_modify_role. }
  intros w3 _. unfold wp. simpl. intros p _. split.
  - unfold valid_ID. rewrite HvID. simpl. apply andb_true_iff. split.
    + apply forallb_forall. intros pj Hpj%list_elem_of_In.
      rewrite Forall_forall in Hperms. by apply Hperms.
    + apply forallb_forall. intros s Hs%list_elem_of_In.
      rewrite Forall_forall in Hv. by apply Hv.
  - by apply (proj2 (distinct_siblings_unfold ID tags perms subroles)).
Qed.

(** LoadRoleFromJSON accepts exactly the descriptions that pass the field
    checks at every node, use no name that the name index holds, and give
    no two subroles of one node a common name in their subtrees; a node
    with the name of a node above it is accepted. *)
Theorem LoadRoleFromJSON_accepts_iff (roleJSON : RoleJSON) (w : World) :
  is_Some (role_heap (heap w) !! root_role (engine w)) →
  (LoadRoleFromJSON malformed roleJSON w).1 = Ok tt ↔
  valid_description malformed roleJSON = true
  ∧ distinct_siblings roleJSON = true
  ∧ ∀ id, id ∈ role_ids roleJSON → roles (engine w) !! id = None.
Proof.
  intros [root Hroot]. unfold LoadRoleFromJSON, bind. split.
  - intros Hok.
    pose proof (recursivelyLoadRoleFromJSON_accepted roleJSON w) as Hacc.
    pose proof (recursivelyLoadRoleFromJSON_clash roleJSON w) as Hclash.
    unfold wp in Hacc.
    destruct (recursivelyLoadRoleFromJSON malformed roleJSON w) as [[p|e|x] w1];
      simpl in *; [|done..].
    destruct (Hacc p eq_refl) as [Hv Hd]. split_and!; try done.
    intros id Hid. destruct (roles (engine w) !! id) eqn:E; [|done].
    by destruct (Hclash id Hid) as [e He].
  - intros (Hv&Hd&Hfree).
    destruct (recursivelyLoadRoleFromJSON_accepts roleJSON w Hv Hd Hfree) as [p Hp].
    pose proof (recursivelyLoadRoleFromJSON_spec roleJSON w) as [[(Hpre&_) (Hr&_)] _].
    destruct (recursivelyLoadRoleFromJSON malformed roleJSON w) as [res w1].
    simpl in Hp, Hpre, Hr. subst res.
    rewrite addNewRootNode_unfold, Hr, (prefix_lookup_Some _ _ _ _ Hroot Hpre).
    done.
Qed.

(** LoadRoleFromJSON fails exactly when one of the checks fails on the way
    through the description, and then with the error of the first one that
    does: [first_failure], on the description and the names the index
    holds, tells whether a load will fail and with which error. *)
Theorem LoadRoleFromJSON_fails_iff (roleJSON : RoleJSON) (w : World) (e : error) :
  (LoadRoleFromJSON malformed roleJSON w).1 = Err e ↔
  first_failure malformed (dom (roles (engine w))) roleJSON = Some e.
Proof.
  pose proof (recursivelyLoadRoleFromJSON_first_failure roleJSON w) as Hff.
  pose proof (recursivelyLoadRoleFromJSON_spec roleJSON w) as [_ Hp].
  unfold wp in Hff. unfold LoadRoleFromJSON, bind.
  destruct (recursivelyLoadRoleFromJSON malformed roleJSON w) as [[p|e'|x] w1];
    simpl in Hff, Hp |- *; [| |done]; rewrite Hff.
  - split; [|done]. rewrite addNewRootNode_unfold. by destruct (_ !! _).
  - split; congruence.
Qed.

(** ** Looking roles up *)

Lemma findRole_loop_spec (predicate : Role → bool) w : ∀ l : list role_ptr,
  (∀ p, p ∈ l → is_Some (role_heap (heap w) !! p)) →
  ∃ res, findRole_loop predicate l w = (Ok res, w)
    ∧ match res with
      | Some p =>
          ∃ pre post r, l = pre ++ p :: post
            ∧ role_heap (heap w) !! p = Some r ∧ predicate r = true
            ∧ ∀ q rq, q ∈ pre → role_heap (heap w) !! q = Some rq →
                predicate rq = false
      | None =>
          ∀ q rq, q ∈ l → role_heap (heap w) !! q = Some rq → predicate rq = false
      end.
Proof.
  induction l as [|p l IH]; intros Hl.
  - exists None. split; [done|]. by intros q rq ?%elem_of_nil.
  - destruct (Hl p) as [r Hr]; [left|].
    simpl. unfold bind, read_role. rewrite Hr.
    destruct (predicate r) eqn:Hp.
    + exists (Some p). split; [done|]. exists [], l, r. split_and!; try done.
      by intros q rq ?%elem_of_nil.
    + destruct IH as [res [Hres Hspec]].
      { intros q Hq. apply Hl. by right. }
      exists res. split; [done|]. destruct res as [q|].
      * destruct Hspec as (pre&post&rq&->&Hq&Hpq&Hbefore).
        exists (p :: pre), post, rq. split_and!; try done.
        intros q' rq' [->|Hq']%elem_of_cons Hrq'; [congruence|by eapply Hbefore].
      * intros q rq [->|Hq]%elem_of_cons Hrq; [congruence|by eapply Hspec].
Qed.

(** In a consistent engine findRole returns, without error or panic and
    whatever the order in which the name index is ranged over: a
    registered role that satisfies the predicate, or nil when no
    registered role satisfies it. *)
Theorem findRole_finds (predicate : Role → bool)
    (order : list (string * role_ptr)) (w : World) :
  engine_consistent w →
  order ≡ₚ map_to_list (roles (engine w)) →
  ∃ res, findRole predicate order w = (Ok res, w)
    ∧ match res with
      | Some p =>
          ∃ k r, roles (engine w) !! k = Some p
            ∧ role_heap (heap w) !! p = Some r ∧ predicate r = true
      | None =>
          ∀ k p r, roles (engine w) !! k = Some p →
            role_heap (heap w) !! p = Some r → predicate r = false
      end.
Proof.
  intros (Hc&_) Ho. unfold findRole, allRoles, bind, ret.
  assert (∀ k p, (k, p) ∈ order ↔ roles (engine w) !! k = Some p) as Hin.
  { intros k p. by rewrite Ho, elem_of_map_to_list. }
  destruct (findRole_loop_spec predicate w (order.*2)) as [res [Hres Hspec]].
  { intros p ([k p']&->&Hkp)%list_elem_of_fmap. simpl.
    apply Hin, Hc in Hkp. destruct (role_heap (heap w) !! p'); [by eexists|done]. }
  exists res. split; [done|]. destruct res as [p|].
  - destruct Hspec as (pre&post&r&Heq&Hr&Hp&_).
    assert (p ∈ order.*2) as ([k p']&->&Hkp)%list_elem_of_fmap.
    { rewrite Heq. apply elem_of_app. right. left. }
    exists k, r. split_and!; try done. by apply Hin.
  - intros k p r Hk Hr. eapply Hspec; [|done].
    apply list_elem_of_fmap. exists (k, p). split; [done|]. by apply Hin.
Qed.

(** FindRoleNamed is the special case of findRole that its comment says
    it is: in a consistent engine, looking for the role whose identifier is
    the name gives what the name index holds under the name, whatever the
    order in which the index is ranged over. *)
Theorem findRole_by_name (ID : string) (order : list (string * role_ptr))
    (w : World) :
  engine_consistent w →
  order ≡ₚ map_to_list (roles (engine w)) →
  findRole (λ r, bool_decide (Role_ID r = ID)) order w = FindRoleNamed ID w.
Proof.
  intros Hc Ho. pose proof Hc as (Hroles&_).
  assert (∀ k p, (k, p) ∈ order ↔ roles (engine w) !! k = Some p) as Hin.
  { intros k p. by rewrite Ho, elem_of_map_to_list. }
  unfold FindRoleNamed, findRole, allRoles, get_engine, bind, ret.
  destruct (findRole_loop_spec (λ r, bool_decide (Role_ID r = ID)) w (order.*2))
    as [res [Hres Hspec]].
  { intros p ([k p']&->&Hkp)%list_elem_of_fmap. simpl.
    apply Hin, Hroles in Hkp. destruct (role_heap (heap w) !! p'); [by eexists|done]. }
  rewrite Hres. f_equal. f_equal. destruct res as [p|].
  - destruct Hspec as (pre&post&r&Heq&Hr&Hp%bool_decide_eq_true&_).
    assert (p ∈ order.*2) as ([k p']&->&Hkp)%list_elem_of_fmap.
    { rewrite Heq. apply elem_of_app. right. left. }
    simpl in *. apply Hin in Hkp. pose proof (Hroles _ _ Hkp) as Hk.
    rewrite Hr in Hk. simpl in Hk. by simplify_eq.
  - destruct (roles (engine w) !! ID) as [p|] eqn:E; [|done].
    pose proof (Hroles _ _ E) as Hk.
    destruct (role_heap (heap w) !! p) as [r|] eqn:Hr; [|done].
    simpl in Hk. injection Hk as Hk.
    assert (bool_decide (Role_ID r = ID) = false) as Hf.
    { eapply (Hspec p r); [|done]. apply list_elem_of_fmap. exists (ID, p).
      split; [done|]. by apply Hin. }
    by apply bool_decide_eq_false in Hf.
Qed.

(** ** Updating and detaching *)

Lemma engine_bind {A B} (m : M A) (k : A → M B) :
  (∀ w, engine (m w).2 = engine w) → (∀ a w, engine (k a w).2 = engine w) →
  ∀ w, engine (bind m k w).2 = engine w.
Proof.
  intros Hm Hk w. unfold bind. specialize (Hm w).
  destruct (m w) as [[a|e|p] w']; simpl in *; auto. by rewrite Hk.
Qed.

Lemma engine_for_each {A} (l : list A) (body : A → M unit) :
  (∀ x w, engine (body x w).2 = engine w) →
  ∀ w, engine (for_each l body w).2 = engine w.
Proof.
  intros Hbody. induction l as [|x l IH]; [done|].
  change (for_each (x :: l) body) with (bind (body x) (λ _, for_each l body)).
  apply engine_bind; auto.
Qed.

Lemma engine_modify_role p f w : engine (modify_role p f w).2 = engine w.
Proof. unfold modify_role. by destruct (_ !! _). Qed.

Lemma engine_modify_perm p f w : engine (modify_perm p f w).2 = engine w.
Proof. unfold modify_perm. by destruct (_ !! _). Qed.

Lemma update_engine role other w : engine (update role other w).2 = engine w.
Proof.
  unfold update. destruct role as [role|]; [|done]. revert w.
  apply engine_bind; [intros w; unfold read_role; by destruct (_ !! _)|]. intros o.
  apply engine_bind; [apply engine_modify_role|]. intros _.
  apply engine_bind.
  { apply engine_for_each. intros. apply engine_modify_perm. }
  intros _. apply engine_for_each. intros. apply engine_modify_role.
Qed.

(** An update that succeeds leaves the top node of the addition in the
    name index: the addition is loaded as a role of its own first, so its
    name must be new to the index, in particular not the name of the role
    that is updated, and it stays registered, bound to the object that was
    built for the addition, next to the names of all its nodes. *)
Theorem updateRoleWithJSON_registers_addition (roleID : string)
    (additionJSON : RoleJSON) (w w' : World) :
  updateRoleWithJSON malformed roleID additionJSON w = (Ok tt, w') →
  roles (engine w) !! RoleJSON_ID additionJSON = None
  ∧ (∃ p, roles (engine w') !! RoleJSON_ID additionJSON = Some p
          ∧ length (role_heap (heap w)) ≤ p)
  ∧ dom (roles (engine w'))
    = dom (roles (engine w)) ∪ list_to_set (role_ids additionJSON)
  ∧ is_Some (roles (engine w) !! roleID)
  ∧ RoleJSON_ID additionJSON ≠ roleID.
Proof.
  unfold updateRoleWithJSON, FindRoleNamed, bind, get_engine, ret. simpl.
  pose proof (recursivelyLoadRoleFromJSON_spec additionJSON w) as [_ Hp].
  pose proof (recursivelyLoadRoleFromJSON_registers additionJSON w) as Hreg.
  pose proof (recursivelyLoadRoleFromJSON_names additionJSON w) as [_ Hdom].
  pose proof (recursivelyLoadRoleFromJSON_clash additionJSON w
                (RoleJSON_ID additionJSON)) as Hclash.
  unfold wp in Hreg.
  destruct (recursivelyLoadRoleFromJSON malformed additionJSON w) as [[p|e|x] w1];
    simpl in *; [|done..].
  intros Hupd.
  pose proof (update_engine (roles (engine w) !! roleID) p w1) as He.
  rewrite Hupd in He. simpl in He.
  assert (roles (engine w) !! RoleJSON_ID additionJSON = None) as Hnew.
  { destruct (roles (engine w) !! RoleJSON_ID additionJSON) eqn:E; [|done].
    destruct Hclash as [e He']; [|by eexists|done].
    destruct additionJSON. rewrite role_ids_unfold. left. }
  assert (is_Some (roles (engine w) !! roleID)) as Hrole.
  { destruct (roles (engine w) !! roleID); [by eexists|done]. }
  split_and!; try done.
  - exists p. rewrite He. split; [exact (Hreg p eq_refl)|lia].
  - rewrite He. exact (Hdom p eq_refl).
  - intros Heq. rewrite Heq in Hnew. rewrite Hnew in Hrole. by destruct Hrole.
Qed.

(** The top role of a loaded description cannot be detached: it was put
    under the root without the root becoming its parent, so detachRole
    and detachRoleRecursively on it dereference the nil parent and panic,
    the engine left as it was. *)
Theorem detachRole_of_new_root_node (roleJSON : RoleJSON) (w w' : World) :
  engine_consistent w →
  root_role (engine w) < length (role_heap (heap w)) →
  LoadRoleFromJSON malformed roleJSON w = (Ok tt, w') →
  (∃ root, role_heap (heap w') !! root_role (engine w') = Some root
           ∧ length (role_heap (heap w)) ∈ Subroles root)
  ∧ detachRole (length (role_heap (heap w))) w' = (Panicked NilDereference, w')
  ∧ detachRoleRecursively (length (role_heap (heap w))) w'
    = (Panicked NilDereference, w').
Proof.
  intros Hc Hroot Hload.
  destruct (LoadRoleFromJSON_tree _ _ _ Hc Hroot Hload) as (_&Hpar&_&Hr&Hunder).
  assert (detachRole (length (role_heap (heap w))) w' = (Panicked NilDereference, w'))
    as Hdetach.
  { unfold detachRole, bind, read_role.
    destruct (role_heap (heap w') !! length (role_heap (heap w))) as [r|]; [|done].
    simpl in Hpar. injection Hpar as Hpar. by rewrite Hpar. }
  split_and!; [done|done|].
  unfold detachRoleRecursively, bind. by rewrite Hdetach.
Qed.

(** ** The wait group and the two closes of [done_channel] *)

Lemma pending_insert ws i old new :
  ws !! i = Some old →
  pending (<[i := new]> ws) + (if exited old then 0 else 1)
  = pending ws + (if exited new then 0 else 1).
Proof.
  revert i. induction ws as [|pc ws IH]; intros [|i] Hi; simpl in *; try done.
  - injection Hi as ->. lia.
  - specialize (IH i Hi). lia.
Qed.

Lemma pending_0 ws i pc : pending ws = 0 → ws !! i = Some pc → pc = WExit.
Proof.
  revert i. induction ws as [|x ws IH]; intros [|i] H0 Hi; simpl in *; try done.
  - injection Hi as ->. by destruct pc.
  - apply (IH i); [lia|done].
Qed.

Lemma barrier_init slice : barrier slice (CheckAuth_init slice).
Proof.
  unfold barrier. simpl. split_and!; try done.
  - by rewrite length_replicate.
  - induction (length slice) as [|n IH]; simpl; [done|]. by rewrite <- IH.
Qed.

(** A step of a role goroutine that keeps the goroutine running. *)
Lemma barrier_set_worker slice i old new s :
  workers s !! i = Some old → exited old = false → exited new = false →
  barrier slice s → barrier slice (set_worker i new s).
Proof.
  intros Hi Ho Hn (Hlen&Hwg&Hw&Hx&Hm&Hr&Hsel).
  unfold barrier. simpl. rewrite length_insert. split_and!; try done.
  pose proof (pending_insert _ _ _ new Hi) as Hp.
  rewrite Ho, Hn in Hp. lia.
Qed.

Lemma barrier_step_worker h request slice i s :
  barrier slice s → barrier slice (step_worker validate_nil h request slice i s).
Proof.
  intros Hs. unfold step_worker.
  destruct (workers s !! i) as [[|r|ms|ms| |]|] eqn:Hi; try done.
  - destruct (slice !! i) as [role|]; [|done].
    unfold worker_validate.
    destruct role as [p|].
    + unfold Role_validate. destruct (Auth (validate _ _ _ _)).
      * simpl. destruct (role_heap h !! p); [|done].
        by eapply barrier_set_worker.
      * by eapply barrier_set_worker.
    + unfold Role_validate. destruct validate_nil as [x|]; [|done].
      destruct (Auth x); [done|]. by eapply barrier_set_worker.
  - destruct (response_closed s); [done|].
    destruct (response_channel s); [done|].
    by apply (barrier_set_worker slice i (WSend r) WDone
                (set_response_channel (Some r) s)).
  - by eapply barrier_set_worker.
  - by apply (barrier_set_worker slice i (WStore ms) WDone
                (set_default_mismatching ms s)).
  - destruct Hs as (Hlen&Hwg&Hw&Hx&Hm&Hr&Hsel).
    unfold barrier. simpl. rewrite length_insert. split_and!; try done.
    + pose proof (pending_insert _ _ _ WExit Hi) as Hp. simpl in Hp. lia.
    + intros Hne. rewrite (Hw Hne). done.
Qed.

Lemma barrier_step_waiter slice s :
  barrier slice s → barrier slice (step_waiter s).
Proof.
  intros (Hlen&Hwg&Hw&Hx&Hm&Hr&Hsel). unfold step_waiter.
  destruct (waiter s) eqn:Hwaiter.
  - destruct (decide (wg s = 0)) as [H0|]; [|by unfold barrier; rewrite Hwaiter].
    unfold barrier. simpl. split_and!; try done.
    intros Hmain Hd. by specialize (Hsel Hmain Hd).
  - destruct (done_closed s) eqn:Hd.
    + unfold barrier. simpl. by rewrite Hwaiter, Hd.
    + unfold barrier. simpl. split_and!; try done.
      * by intros _; apply Hw.
      * intros _. split; [done|].
        destruct (main_closed_done (main s)); [|done]. by specialize (Hm eq_refl).
  - by unfold barrier; rewrite Hwaiter.
Qed.

Lemma barrier_step_main slice b s :
  barrier slice s → barrier slice (step_main b s).
Proof.
  intros (Hlen&Hwg&Hw&Hx&Hm&Hr&Hsel). unfold step_main.
  destruct (main s) as [|r|[r|p]|r|p] eqn:Hmain.
  - assert (∀ r s', workers s' = workers s → wg s' = wg s →
              waiter s' = waiter s → done_closed s' = done_closed s →
              main s' = MDeferDone r → barrier slice s') as Hgo.
    { intros r s' Hws Hwgs Hwa Hdc Hma. unfold barrier.
      rewrite Hws, Hwgs, Hwa, Hdc, Hma. simpl. by split_and!. }
    destruct (response_channel s) as [r|], (done_closed s) eqn:Hd;
      try destruct b; try (by eapply Hgo).
    all: unfold barrier; by rewrite Hmain, Hd.
  - destruct (done_closed s) eqn:Hd.
    + unfold barrier. simpl. rewrite Hd. by split_and!.
    + unfold barrier. simpl. split_and!; try done.
      intros Hex. destruct (Hx Hex). congruence.
  - unfold barrier. simpl. split_and!; try done.
  - unfold barrier. simpl. split_and!; try done.
  - unfold barrier. by rewrite Hmain.
  - unfold barrier. by rewrite Hmain.
Qed.

Lemma barrier_run h request slice sched : ∀ s,
  barrier slice s → barrier slice (run validate_nil h request slice sched s).
Proof.
  unfold run. induction sched as [|t sched IH]; intros s Hs; simpl; [done|].
  apply IH. unfold step. destruct (crashed s); [done|].
  destruct t as [b| |i];
    auto using barrier_step_main, barrier_step_waiter, barrier_step_worker.
Qed.

(** The wait group is a barrier: under every schedule, once the waiting
    goroutine is past [wg.Wait()] every role goroutine has finished, and
    when [CheckAuth] sits at its select with [done_channel] closed it was
    the waiting goroutine that closed it, after every role goroutine had
    finished. *)
Theorem CheckAuth_waits_for_all_roles :
  ∀ order sched request w s,
    CheckAuth validate_nil order sched request w = Some s →
    wg s = pending (workers s)
    ∧ (waiter s ≠ WaitAll ∨ (main s = MSelect ∧ done_closed s = true) →
       ∀ i pc, workers s !! i = Some pc → pc = WExit).
Proof.
  intros order sched request w s Hs. unfold CheckAuth in Hs.
  destruct (role_heap (heap w) !! root_role (engine w)) as [root|];
    simpl in Hs; [|done].
  injection Hs as <-.
  pose proof (barrier_run (heap w) request
                (CheckAuth_roles (Subroles root) order) sched _
                (barrier_init (CheckAuth_roles (Subroles root) order)))
    as (Hlen&Hwg&Hw&Hx&Hm&Hr&Hsel).
  split; [done|]. intros Hpast i pc Hi.
  eapply pending_0; [|exact Hi]. rewrite <- Hwg. apply Hw.
  destruct Hpast as [?|[Hmain Hd]]; [done|]. by rewrite (Hsel Hmain Hd).
Qed.

Lemma set_worker_changes i old new s s' :
  workers s' = workers s →
  workers s !! i = Some old →
  (∀ x, new = x → old = x → False) →
  set_worker i new s' ≠ s.
Proof.
  intros Hws Hi Hne Heq. apply (f_equal workers) in Heq. simpl in Heq.
  apply (f_equal (.!! i)) in Heq. rewrite Hws in Heq.
  rewrite list_lookup_insert_eq in Heq by (by eapply lookup_lt_Some).
  rewrite Hi in Heq. injection Heq as Heq. by eapply Hne.
Qed.

(** A role goroutine that has not finished can take a step, unless it
    waits for room in [response_channel]. *)
Lemma step_worker_moves h request slice i pc s :
  length (workers s) = length slice →
  crashed s = None →
  workers s !! i = Some pc → exited pc = false →
  step_worker validate_nil h request slice i s = s →
  ∃ r, pc = WSend r ∧ response_closed s = false ∧ is_Some (response_channel s).
Proof.
  intros Hlen Hc Hi Hex. unfold step_worker. rewrite Hi.
  destruct pc as [|r|ms|ms| |]; try done.
  - destruct (lookup_lt_is_Some_2 slice i) as [role Hrole].
    { rewrite <- Hlen. by eapply lookup_lt_Some. }
    rewrite Hrole.
    destruct (worker_validate validate_nil h request role) as [pc|e|p] eqn:Hv.
    + intros Heq. exfalso. revert Heq.
      apply (set_worker_changes i WValidate pc s s); [done..|].
      intros x -> <-. unfold worker_validate, Role_validate in Hv.
      destruct role as [p|]; simpl in Hv.
      * destruct (Auth (validate _ _ _ _)); [|done].
        by destruct (role_heap h !! p).
      * destruct validate_nil as [y|]; [|done]. by destruct (Auth y).
    + intros Heq. apply (f_equal crashed) in Heq. simpl in Heq. congruence.
    + intros Heq. apply (f_equal crashed) in Heq. simpl in Heq. congruence.
  - destruct (response_closed s) eqn:Hrc.
    { intros Heq. apply (f_equal crashed) in Heq. simpl in Heq. congruence. }
    destruct (response_channel s) eqn:Hch; [by eexists|].
    intros Heq. exfalso. revert Heq.
    apply (set_worker_changes i (WSend r) WDone s); [done..|]. by intros x <- [=].
  - intros Heq. exfalso. revert Heq.
    apply (set_worker_changes i (WLoad ms) _ s s); [done..|]. by intros x <- [=].
  - intros Heq. exfalso. revert Heq.
    apply (set_worker_changes i (WStore ms) WDone s); [done..|]. by intros x <- [=].
  - intros Heq. exfalso. revert Heq.
    apply (set_worker_changes i WDone WExit s); [done..|]. by intros x <- [=].
Qed.

Lemma pending_pos ws : pending ws ≠ 0 → ∃ i pc, ws !! i = Some pc ∧ exited pc = false.
Proof.
  induction ws as [|x ws IH]; simpl; [done|]. intros Hp.
  destruct (exited x) eqn:Hx.
  - destruct IH as (i&pc&Hi&Hpc); [lia|]. by exists (S i), pc.
  - by exists 0, x.
Qed.

(** No run of CheckAuth ends well. Under every schedule, when no goroutine
    can move any more, either a spawned goroutine has panicked, which ends
    the process whatever CheckAuth itself had reached by then, or CheckAuth
    itself has panicked on its deferred [close(done_channel)]: at rest, in
    a process that no goroutine's panic has ended, the caller of CheckAuth
    has got that panic and not a response. *)
Theorem CheckAuth_always_ends_in_a_panic :
  ∀ order sched request w s,
    CheckAuth validate_nil order sched request w = Some s →
    (∀ root, role_heap (heap w) !! root_role (engine w) = Some root →
       quiescent validate_nil (heap w) request
         (CheckAuth_roles (Subroles root) order) s) →
    (is_Some (crashed s) ∨ main s = MPanicked CloseOfClosedChannel)
    ∧ (crashed s = None → returned s = Some (Panicked CloseOfClosedChannel)).
Proof.
  intros order sched request w s Hs Hq.
  cut (is_Some (crashed s) ∨ main s = MPanicked CloseOfClosedChannel).
  { intros H. split; [done|]. intros Hc. destruct H as [[p Hp]|Hm]; [congruence|].
    unfold returned. by rewrite Hm. }
  unfold CheckAuth in Hs.
  destruct (role_heap (heap w) !! root_role (engine w)) as [root|];
    simpl in Hs; [|done].
  specialize (Hq root eq_refl). injection Hs as Hs.
  set (slice := CheckAuth_roles (Subroles root) order) in *.
  pose proof (barrier_run (heap w) request slice sched _ (barrier_init slice))
    as (Hlen&Hwg&Hw&Hx&Hm&Hr&Hsel).
  pose proof (grants_only_run (heap w) request slice sched _ (grants_only_init slice))
    as (_&_&Hmain).
  rewrite Hs in Hlen, Hwg, Hw, Hx, Hm, Hr, Hsel, Hmain. clear Hs.
  destruct (crashed s) as [p|] eqn:Hc; [left; by eexists|]. right.
  assert (∀ t, match t with
               | TMain b => step_main b s
               | TWaiter => step_waiter s
               | TWorker i => step_worker validate_nil (heap w) request slice i s
               end = s) as Hq'.
  { intros t. specialize (Hq t). unfold step in Hq. by rewrite Hc in Hq. }
  (* the waiting goroutine is at rest: it has closed, or role goroutines
     are still running *)
  assert (waiter s = WaitExit
          ∨ ∃ i r, workers s !! i = Some (WSend r) ∧ response_closed s = false
                   ∧ is_Some (response_channel s)) as Hrest.
  { pose proof (Hq' TWaiter) as Hwt. simpl in Hwt. unfold step_waiter in Hwt.
    destruct (waiter s) eqn:Hwaiter; [| |by left].
    - right. destruct (decide (wg s = 0)) as [H0|Hn0].
      { apply (f_equal waiter) in Hwt. simpl in Hwt. congruence. }
      rewrite Hwg in Hn0. destruct (pending_pos _ Hn0) as (i&pc&Hi&Hpc).
      destruct (step_worker_moves (heap w) request slice i pc s Hlen Hc Hi Hpc
                  (Hq' (TWorker i))) as (r&->&?&?).
      by exists i, r.
    - destruct (done_closed s).
      + apply (f_equal crashed) in Hwt. simpl in Hwt. congruence.
      + apply (f_equal waiter) in Hwt. simpl in Hwt. congruence. }
  pose proof (Hq' (TMain false)) as Hmt. simpl in Hmt. unfold step_main in Hmt.
  destruct (main s) as [|r|[r|p]|r|p] eqn:Hmn.
  - (* at the select: something is ready *)
    exfalso. destruct Hrest as [Hex|(i&r&_&_&[r' Hch])].
    + destruct (Hx Hex) as [Hd _]. rewrite Hd in Hmt.
      destruct (response_channel s);
        apply (f_equal main) in Hmt; simpl in Hmt; congruence.
    + rewrite Hch in Hmt.
      destruct (done_closed s);
        apply (f_equal main) in Hmt; simpl in Hmt; congruence.
  - exfalso. destruct (done_closed s);
      apply (f_equal main) in Hmt; simpl in Hmt; congruence.
  - exfalso. apply (f_equal main) in Hmt. simpl in Hmt. congruence.
  - exfalso. apply (f_equal main) in Hmt. simpl in Hmt. congruence.
  - (* returned: the waiting goroutine cannot have closed, and a sender
       would find [response_channel] closed *)
    exfalso. destruct Hrest as [Hex|(i&r'&_&Hrc&_)].
    + by destruct (Hx Hex) as [_ Hf].
    + rewrite (Hr r eq_refl) in Hrc. done.
  - simpl in Hmain. by rewrite Hmain.
Qed.

(** ** Services, permissions and the listing of names *)

(** LoadServiceFromJSON always makes a new service object and registers it
    under the description's identifier, in place of a service that was
    registered under it (that object stays on the heap, no longer
    registered); the alias table of the new service resolves every URI of
    the description to a resource object of the described name, and no
    other URI. *)
Theorem LoadServiceFromJSON_replaces (serviceJSON : ServiceJSON) (w : World) :
  engine_consistent w →
  ∃ w' svc,
    LoadServiceFromJSON serviceJSON w = (Ok (length (svc_heap (heap w))), w')
    ∧ engine w'
      = set_services (<[ServiceJSON_ID serviceJSON := length (svc_heap (heap w))]>)
          (engine w)
    ∧ svc_heap (heap w) `prefix_of` svc_heap (heap w')
    ∧ svc_heap (heap w') !! length (svc_heap (heap w)) = Some svc
    ∧ Service_ID svc = ServiceJSON_ID serviceJSON
    ∧ (∀ uri name, URIsToResources serviceJSON !! uri = Some name →
         ∃ x, uriToResource svc !! uri = Some x
              ∧ Resource_ID <$> res_heap (heap w') !! x = Some name)
    ∧ (∀ uri, URIsToResources serviceJSON !! uri = None →
         uriToResource svc !! uri = None)
    ∧ engine_consistent w'.
Proof.
  intros Hc.
  pose proof (LoadServiceFromJSON_spec serviceJSON w Hc) as Hspec.
  unfold wp in Hspec.
  destruct (LoadServiceFromJSON serviceJSON w) as [r w']. simpl in Hspec.
  destruct Hspec as (->&Hc'&He&_&_&Hpre&_&svc&Hsvc&HID&Hin&Hout).
  exists w', svc. by split_and!.
Qed.

(** LoadPermissionFromJSON makes the permission object before it checks
    the action: a description whose action passes the field check gives a
    new permission that carries the description, its service found or
    made and registered; one whose action fails the check is refused with
    InvalidAction, and the permission object made for it is left on the
    heap. *)
Theorem LoadPermissionFromJSON_loads (permissionJSON : PermissionJSON) (w : World) :
  engine_consistent w →
  if valid_action (PermissionJSON_Action permissionJSON) then
    ∃ w', LoadPermissionFromJSON permissionJSON w
          = (Ok (length (perm_heap (heap w))), w')
      ∧ perm_at (heap w') (length (perm_heap (heap w))) permissionJSON
      ∧ is_Some (services (engine w')
                   !! ActionJSON_Service (PermissionJSON_Action permissionJSON))
      ∧ engine_consistent w'
  else
    LoadPermissionFromJSON permissionJSON w
    = (Err InvalidAction,
       on_heap (set_perm_heap (λ l,
         l ++ [mkPermission (PermissionJSON_ID permissionJSON) newAction ∅ ∅])) w).
Proof.
  intros Hc.
  pose proof (LoadPermissionFromJSON_result permissionJSON w Hc) as Hres.
  unfold wp in Hres. revert Hres.
  unfold valid_action, LoadPermissionFromJSON, newPermission, actionFromJSON,
    validateFields, bind, alloc_perm, fail. simpl.
  destruct (_ || _); simpl; [done|].
  unfold findOrCreateService, findOrCreateResource, NewService, NewResource, bind,
    alloc_svc, alloc_res, modify_perm, modify_engine, get_engine, ret. simpl.
  destruct (services (engine w) !! _) as [s|] eqn:Hs; simpl;
    (destruct (resources (engine w) !! _) as [x|] eqn:Hx; simpl);
    rewrite list_lookup_middle by done; simpl;
    intros (Hc'&_&_&Hq); destruct (Hq _ eq_refl) as (_&_&Hat);
    eexists; (split; [done|]); simpl; split_and!; try done;
    by rewrite ?Hs, ?lookup_insert_eq.
Qed.

(** The names ListRoleNames lists after a load that succeeded are, without
    repetition, the names it listed before and the names of the nodes of
    the description, in whatever order the name index is ranged over. *)
Theorem ListRoleNames_after_load (roleJSON : RoleJSON) (w w' : World)
    (order order' : list (string * role_ptr)) :
  LoadRoleFromJSON malformed roleJSON w = (Ok tt, w') →
  order ≡ₚ map_to_list (roles (engine w)) →
  order' ≡ₚ map_to_list (roles (engine w')) →
  ∃ names names',
    ListRoleNames order w = (Ok names, w)
    ∧ ListRoleNames order' w' = (Ok names', w')
    ∧ NoDup names'
    ∧ ∀ name, name ∈ names' ↔ name ∈ names ∨ name ∈ role_ids roleJSON.
Proof.
  intros Hload Ho Ho'. exists (order.*1), (order'.*1).
  split; [done|]. split; [done|].
  assert (∀ (o : list (string * role_ptr)) m name,
            o ≡ₚ map_to_list m → name ∈ o.*1 ↔ name ∈ dom m) as Hnames.
  { intros o m name ->. rewrite elem_of_dom, list_elem_of_fmap. split.
    - intros ([k p]&->&Hkp). apply elem_of_map_to_list in Hkp. by eexists.
    - intros [p Hp]. exists (name, p). split; [done|]. by apply elem_of_map_to_list. }
  split.
  { rewrite Ho'. apply NoDup_fst_map_to_list. }
  intros name. rewrite (Hnames _ _ _ Ho), (Hnames _ _ _ Ho').
  revert Hload. unfold LoadRoleFromJSON, bind.
  pose proof (recursivelyLoadRoleFromJSON_names roleJSON w) as [_ Hdom].
  destruct (recursivelyLoadRoleFromJSON malformed roleJSON w) as [[p|e|x] w1];
    simpl in *; [|done..].
  rewrite addNewRootNode_unfold.
  destruct (role_heap (heap w1) !! _); [|done].
  intros [= <-]. simpl. rewrite (Hdom p eq_refl). set_solver.
Qed.

(** ** Detaching a loaded subtree *)

Lemma children_in_lookup h subroles : ∀ ss lo hi i sj,
  children_in h subroles ss lo hi → subroles !! i = Some sj →
  ∃ s mid, ss !! i = Some s ∧ lo ≤ s ∧ mid ≤ hi ∧ tree_in h sj s mid.
Proof.
  induction subroles as [|x l IH]; intros [|y ss] lo hi [|i] sj Hch Hi;
    simpl in *; try done.
  - injection Hi as ->. destruct Hch as (->&mid&Ht&Hch).
    exists lo, mid. split_and!; try done. by eapply children_in_le.
  - destruct Hch as (->&mid&Ht&Hch).
    destruct (IH _ _ _ _ _ Hch Hi) as (s&mid'&?&?&?&?).
    exists s, mid'. split_and!; try done. apply tree_in_lt in Ht. lia.
Qed.

(** The objects of a subtree are role objects with the names of the
    description, and every name of the description is the name of one. *)
Lemma tree_in_ids r : ∀ h p hi,
  tree_in h r p hi →
  (∀ q, p ≤ q < hi →
     ∃ rq, role_heap h !! q = Some rq ∧ Role_ID rq ∈ role_ids r)
  ∧ (∀ id, id ∈ role_ids r →
       ∃ q rq, p ≤ q < hi ∧ role_heap h !! q = Some rq ∧ Role_ID rq = id).
Proof.
  induction r as [ID tags perms subroles IH] using RoleJSON_ind.
  intros h p hi (r&ps&ss&Hr&HID&_&_&_&_&_&_&Hch)%tree_in_unfold.
  rewrite role_ids_unfold.
  assert (∀ ss lo, children_in h subroles ss lo hi →
    (∀ q, lo ≤ q < hi →
       ∃ rq, role_heap h !! q = Some rq
             ∧ Role_ID rq ∈ flat_map role_ids subroles)
    ∧ (∀ id, id ∈ flat_map role_ids subroles →
         ∃ q rq, lo ≤ q < hi ∧ role_heap h !! q = Some rq ∧ Role_ID rq = id))
    as Hgen.
  { clear -IH. induction IH as [|s l Hs _ IHl]; intros [|y ss] lo Hch;
      simpl in *; try done.
    { subst. split; [intros q ?; lia|by intros id ?%elem_of_nil]. }
    destruct Hch as (->&mid&Ht&Hch).
    pose proof (tree_in_lt _ _ _ _ Ht). pose proof (children_in_le _ _ _ _ _ Hch).
    destruct (Hs _ _ _ Ht) as [Hs1 Hs2]. destruct (IHl _ _ Hch) as [Hl1 Hl2].
    split.
    - intros q Hq. destruct (decide (q < mid)).
      + destruct (Hs1 q) as (rq&?&?); [lia|]. exists rq. split; [done|].
        apply elem_of_app. by left.
      + destruct (Hl1 q) as (rq&?&?); [lia|]. exists rq. split; [done|].
        apply elem_of_app. by right.
    - intros id [Hid|Hid]%elem_of_app.
      + destruct (Hs2 id Hid) as (q&rq&?&?&?). exists q, rq. split_and!; try done; lia.
      + destruct (Hl2 id Hid) as (q&rq&?&?&?). exists q, rq. split_and!; try done; lia. }
  destruct (Hgen _ _ Hch) as [Hc1 Hc2].
  pose proof (children_in_le _ _ _ _ _ Hch).
  split.
  - intros q Hq. destruct (decide (q = p)) as [->|].
    + exists r. split; [done|]. rewrite HID. left.
    + destruct (Hc1 q) as (rq&?&?); [lia|]. exists rq. split; [done|]. by right.
  - intros id [->|Hid]%elem_of_cons.
    + exists p, r. split_and!; try done; lia.
    + destruct (Hc2 id Hid) as (q&rq&?&?&?). exists q, rq. split_and!; try done; lia.
Qed.

(** The descendants of the top of a subtree are the objects of the subtree
    below the top, each once. *)
Lemma descendants_tree r : ∀ h p hi fuel,
  tree_in h r p hi → hi - p ≤ fuel →
  descendants fuel (role_heap h) p ≡ₚ seq (S p) (hi - S p).
Proof.
  induction r as [ID tags perms subroles IH] using RoleJSON_ind.
  intros h p hi fuel Ht Hfuel. pose proof (tree_in_lt _ _ _ _ Ht) as Hlt.
  apply tree_in_unfold in Ht as (r&ps&ss&Hr&_&_&_&_&_&HS&_&Hch).
  destruct fuel as [|fuel]; [lia|]. simpl. rewrite Hr.
  assert (elements (Subroles r) ≡ₚ ss) as ->.
  { rewrite HS. apply elements_list_to_set. by eapply children_in_NoDup. }
  assert (∀ ss lo, children_in h subroles ss lo hi → hi - lo ≤ fuel →
            flat_map (λ sub, sub :: descendants fuel (role_heap h) sub) ss
            ≡ₚ seq lo (hi - lo)) as Hgen; [|apply Hgen; [done|lia]].
  clear -IH. induction IH as [|s l Hs _ IHl]; intros [|y ss] lo Hch Hfuel;
    simpl in *; try done.
  { subst. by rewrite Nat.sub_diag. }
  destruct Hch as (->&mid&Ht&Hch).
  pose proof (tree_in_lt _ _ _ _ Ht). pose proof (children_in_le _ _ _ _ _ Hch).
  rewrite (Hs _ _ _ fuel Ht) by lia. rewrite (IHl _ _ Hch) by lia.
  replace (hi - lo) with (S (mid - S lo) + (hi - mid)) by lia.
  rewrite seq_app. simpl. by replace (lo + S (mid - S lo)) with mid by lia.
Qed.

Lemma omap_singleton_Some {A B} (f : A → option B) x y :
  f x = Some y → omap f [x] = [y].
Proof. intros H. simpl. by rewrite H. Qed.

(** Detaching, with its descendants, a subrole of a loaded role: the role
    leaves the subroles of its parent and the names of its whole subtree
    leave the name index, every other entry of the index staying; the role
    objects themselves are not touched. A name of the subtree that the
    parent or another role also had is lost to it. *)
Theorem detachRoleRecursively_of_loaded_subrole (ID : string)
    (tags : gmap string string) (perms : list PermissionJSON)
    (subroles : list RoleJSON) (w w' : World) (i : nat) (sj : RoleJSON) :
  engine_consistent w →
  root_role (engine w) < length (role_heap (heap w)) →
  LoadRoleFromJSON malformed (mkRoleJSON ID tags perms subroles) w = (Ok tt, w') →
  subroles !! i = Some sj →
  ∃ s w'',
    detachRoleRecursively s w' = (Ok tt, w'')
    ∧ length (role_heap (heap w)) < s
    ∧ Role_ID <$> role_heap (heap w') !! s = Some (RoleJSON_ID sj)
    ∧ heap w''
      = set_role_heap (alter (set_Subroles (λ x, x ∖ {[s]}))
                         (length (role_heap (heap w)))) (heap w')
    ∧ dom (roles (engine w''))
      = dom (roles (engine w')) ∖ list_to_set (role_ids sj)
    ∧ roles (engine w'') ⊆ roles (engine w').
Proof.
  intros Hc Hroot Hload Hi.
  destruct (LoadRoleFromJSON_tree _ _ _ Hc Hroot Hload) as (Ht&_&_&_&_).
  set (n := length (role_heap (heap w))) in *.
  apply tree_in_unfold in Ht as (r&ps&ss&Hr&_&_&_&_&_&HS&Hpar&Hch).
  destruct (children_in_lookup _ _ _ _ _ _ _ Hch Hi) as (s&mid&Hs&Hlo&Hhi&Hts).
  rewrite Forall_forall in Hpar.
  assert (s ∈ ss) as Hsin by (by eapply list_elem_of_lookup_2).
  specialize (Hpar s Hsin).
  pose proof Hts as Hts0.
  destruct sj as [sID stags sperms ssubs].
  apply tree_in_unfold in Hts0 as (rs&_&_&Hrs&HsID&_).
  rewrite Hrs in Hpar. simpl in Hpar. injection Hpar as Hpar.
  exists s.
  unfold detachRoleRecursively, detachRole, bind, read_role. rewrite Hrs, Hpar.
  rewrite (modify_role_Some _ _ _ r Hr).
  unfold modify_engine, allSubroles. simpl.
  set (h1 := set_role_heap (alter (set_Subroles (λ x, x ∖ {[s]})) n) (heap w')).
  set (w1 := mkWorld h1 (set_roles (delete (Role_ID rs)) (engine w'))).
  change (on_engine _ (on_heap _ w')) with w1.
  assert (tree_in h1 (mkRoleJSON sID stags sperms ssubs) s mid) as Hts1.
  { apply tree_in_alter_outside; [lia|done]. }
  pose proof (descendants_tree _ _ _ _ (length (role_heap h1)) Hts1) as Hdesc.
  destruct (tree_in_ids _ _ _ _ Hts1) as [Hobj Hname].
  assert (mid ≤ length (role_heap h1)) as Hmid.
  { destruct (Hobj (mid - 1)) as (rq&Hq&_).
    { apply tree_in_lt in Hts1. lia. }
    apply lookup_lt_Some in Hq. lia. }
  specialize (Hdesc ltac:(lia)).
  change (alter (set_Subroles (λ x, x ∖ {[s]})) n (role_heap (heap w')))
    with (role_heap h1).
  revert Hdesc. generalize (descendants (length (role_heap h1)) (role_heap h1) s).
  intros subs Hsubs.
  assert (heap w1 = h1) as Hw1h by done.
  assert (roles (engine w1) = delete (Role_ID rs) (roles (engine w'))) as Hw1r
    by done.
  assert (role_heap h1 !! s = Some rs) as Hs1.
  { simpl. by rewrite list_lookup_alter_ne by lia. }
  assert (h1 = set_role_heap (alter (set_Subroles (λ x, x ∖ {[s]})) n) (heap w'))
    as Hh1 by done.
  clearbody w1. clearbody h1.
  assert (wp (for_each subs (λ subrole,
                let* s0 := λ w0, match role_heap (heap w0) !! subrole with
                                 | Some r0 => (Ok r0, w0)
                                 | None => (Panicked NilDereference, w0)
                                 end in
                λ w0, (Ok tt, on_engine (set_roles (delete (Role_ID s0))) w0))) w1
            (λ res w2, res = Ok tt ∧ heap w2 = h1
               ∧ roles (engine w2) ⊆ roles (engine w1)
               ∧ dom (roles (engine w2))
                 = dom (roles (engine w1))
                   ∖ list_to_set (omap (λ q, Role_ID <$> role_heap h1 !! q) subs)))
    as Hloop.
  { apply (wp_for_each_prefix (λ pre w2,
      heap w2 = h1
      ∧ roles (engine w2) ⊆ roles (engine w1)
      ∧ dom (roles (engine w2))
        = dom (roles (engine w1))
          ∖ list_to_set (omap (λ q, Role_ID <$> role_heap h1 !! q) pre))).
    - split_and!; try done. simpl. set_solver.
    - intros pre q post w2 Hsplit (Hh&Hsub&Hdom).
      assert (q ∈ seq (S s) (mid - S s)) as Hq.
      { rewrite <- Hsubs, Hsplit. apply elem_of_app. right. left. }
      apply elem_of_seq in Hq.
      destruct (Hobj q) as (rq&Hrq&_); [lia|].
      unfold wp, bind. rewrite Hh, Hrq. simpl. split_and!; try done.
      + etrans; [apply delete_subseteq|done].
      + rewrite dom_delete_L, Hdom, omap_app.
        rewrite (omap_singleton_Some _ q (Role_ID rq)) by (cbv beta; by rewrite Hrq).
        rewrite list_to_set_app_L. simpl. set_solver.
    - intros w2 (?&?&?). by split_and!. }
  unfold wp in Hloop.
  destruct (for_each subs _ w1) as [res w2]. simpl in Hloop.
  destruct Hloop as (->&Hh&Hsub&Hdom).
  exists w2. split_and!; try done.
  - by f_equal.
  - change ({[sID]} ∪ list_to_set (flat_map role_ids ssubs) : gset string)
      with (list_to_set (role_ids (mkRoleJSON sID stags sperms ssubs)) : gset string).
    rewrite Hdom, Hw1r, dom_delete_L.
    apply set_eq. intros id. rewrite !elem_of_difference, elem_of_singleton.
    rewrite !elem_of_list_to_set, list_elem_of_omap. split.
    + intros [[Hin Hne] Hnot]. split; [done|]. intros Hid.
      destruct (Hname id Hid) as (q&rq&Hq&Hrq&<-).
      destruct (decide (q = s)) as [->|Hqs].
      * rewrite Hs1 in Hrq. by simplify_eq.
      * apply Hnot. exists q. split; [|by rewrite Hrq].
        rewrite Hsubs. apply elem_of_seq. lia.
    + intros [Hin Hnot]. split_and!; try done.
      * intros ->. apply Hnot. rewrite HsID. simpl. left.
      * intros (q&Hq&Hid). apply Hnot.
        rewrite Hsubs in Hq. apply elem_of_seq in Hq.
        destruct (Hobj q) as (rq&Hrq&Hin'); [lia|].
        rewrite Hrq in Hid. simpl in Hid. by simplify_eq.
  - etrans; [done|]. rewrite Hw1r. apply delete_subseteq.
Qed.

(** ** Listing services, and the server's builder *)

(** The names ListServiceNames lists after LoadServiceFromJSON are the
    description's identifier and the names it listed before, each once, in
    whatever order the registry is ranged over. *)
Theorem ListServiceNames_after_load (serviceJSON : ServiceJSON) (w w' : World)
    (s : svc_ptr) (order order' : list (string * svc_ptr)) :
  engine_consistent w →
  LoadServiceFromJSON serviceJSON w = (Ok s, w') →
  order ≡ₚ map_to_list (services (engine w)) →
  order' ≡ₚ map_to_list (services (engine w')) →
  ∃ names names',
    ListServiceNames order w = (Ok names, w)
    ∧ ListServiceNames order' w' = (Ok names', w')
    ∧ NoDup names'
    ∧ (∀ name, name ∈ names' ↔ name = ServiceJSON_ID serviceJSON ∨ name ∈ names)
    ∧ FindServiceNamed (ServiceJSON_ID serviceJSON) w' = (Ok (Some s), w').
Proof.
  intros Hc Hload Ho Ho'. exists (order.*1), (order'.*1).
  split; [done|]. split; [done|].
  pose proof (LoadServiceFromJSON_spec serviceJSON w Hc) as Hspec.
  unfold wp in Hspec. rewrite Hload in Hspec. simpl in Hspec.
  destruct Hspec as ([= ->]&_&He&_).
  assert (∀ (o : list (string * svc_ptr)) m name,
            o ≡ₚ map_to_list m → name ∈ o.*1 ↔ name ∈ dom m) as Hnames.
  { intros o m name ->. rewrite elem_of_dom, list_elem_of_fmap. split.
    - intros ([k p]&->&Hkp). apply elem_of_map_to_list in Hkp. by eexists.
    - intros [p Hp]. exists (name, p). split; [done|]. by apply elem_of_map_to_list. }
  split_and!.
  - rewrite Ho'. apply NoDup_fst_map_to_list.
  - intros name. rewrite (Hnames _ _ _ Ho), (Hnames _ _ _ Ho'), He. simpl.
    by rewrite dom_insert_L, elem_of_union, elem_of_singleton.
  - unfold FindServiceNamed, bind, get_engine, ret. rewrite He. simpl.
    by rewrite lookup_insert_eq.
Qed.

Lemma build_snoc calls c : build (calls ++ [c]) = call c (build calls).
Proof. unfold build. by rewrite foldl_app. Qed.

Lemma last_arg_snoc sel calls c :
  last_arg sel (calls ++ [c])
  = match sel c with Some x => x | None => last_arg sel calls end.
Proof.
  unfold last_arg. rewrite omap_app. simpl. destruct (sel c) as [x|]; simpl.
  - by rewrite last_snoc.
  - by rewrite app_nil_r.
Qed.

Lemma build_fields calls :
  db (build calls) = last_arg db_arg calls
  ∧ jwtApp (build calls) = last_arg jwtApp_arg calls
  ∧ (is_Some (logger (build calls)) ↔ existsb logger_called calls = true).
Proof.
  induction calls as [|c calls IH] using rev_ind.
  - split_and!; try done. split; [by intros [? ?]|done].
  - destruct IH as (Hdb&Hjwt&Hlog).
    rewrite build_snoc, !last_arg_snoc, existsb_app. simpl.
    destruct c as [l|j|d]; simpl; rewrite ?orb_false_r, ?orb_true_r;
      by split_and!.
Qed.

(** Whatever chain of builder calls made the server, Init hands it back
    exactly when the last database given and the last JWT application
    given are not nil and WithLogger was called, with any logger, nil
    included; otherwise it fails on the first of the three that is missing,
    in the order database, JWT application, logger. *)
Theorem Init_after_build (calls : list builder_call) :
  Init (build calls)
  = match last_arg db_arg calls, last_arg jwtApp_arg calls with
    | None, _ => inr "arborist server initialized without database"%string
    | Some _, None => inr "arborist server initialized without JWT app"%string
    | Some _, Some _ =>
        if existsb logger_called calls then inl (build calls)
        else inr "arborist server initialized without logger"%string
    end.
Proof.
  destruct (build_fields calls) as (Hdb&Hjwt&Hlog).
  unfold Init. rewrite Hdb, Hjwt.
  destruct (last_arg db_arg calls); [|done].
  destruct (last_arg jwtApp_arg calls); [|done].
  destruct (logger (build calls)) as [l|] eqn:Hl.
  - destruct Hlog as [Hlog _]. by rewrite Hlog by (by eexists).
  - destruct (existsb logger_called calls); [|done].
    destruct Hlog as [_ Hlog]. by destruct (Hlog eq_refl).
Qed.

(** ** Permissions are never owned *)

Lemma keeps_inv_bind {A B} (I : World → Prop) (m : M A) (k : A → M B) :
  keeps_inv I m → (∀ a, keeps_inv I (k a)) → keeps_inv I (bind m k).
Proof.
  intros Hm Hk w Hw. unfold bind. specialize (Hm w Hw).
  destruct (m w) as [[a|e|p] w']; simpl in *; auto.
  by apply Hk.
Qed.

Lemma keeps_inv_for_each {A} (I : World → Prop) (l : list A) (body : A → M unit) :
  (∀ x, keeps_inv I (body x)) → keeps_inv I (for_each l body).
Proof.
  intros Hbody. induction l as [|x l IH]; [by intros w Hw|].
  change (for_each (x :: l) body) with (bind (body x) (λ _, for_each l body)).
  apply keeps_inv_bind; auto.
Qed.

Lemma unowned_read_role p : keeps_inv unowned (read_role p).
Proof. intros w Hw. unfold read_role. by destruct (_ !! _). Qed.

Lemma unowned_alloc_perm p :
  rolesGranting p = ∅ → keeps_inv unowned (alloc_perm p).
Proof.
  intros Hp w [? ?]. split; [done|]. simpl. apply Forall_app. split; [done|].
  by repeat constructor.
Qed.

Lemma unowned_modify_perm q f :
  (∀ p, rolesGranting (f p) = rolesGranting p) → keeps_inv unowned (modify_perm q f).
Proof.
  intros Hf w [? Hall].
  destruct (modify_perm_world q f w) as [->| ->]; [done|].
  split; [done|]. simpl.
  apply Forall_alter; [done|]. intros p _ Hp. by rewrite Hf.
Qed.

Lemma unowned_modify_role p f : keeps_inv unowned (modify_role p f).
Proof. intros w Hw. by destruct (modify_role_world p f w) as [->| ->]. Qed.

Lemma unowned_modify_svc p f : keeps_inv unowned (modify_svc p f).
Proof. intros w Hw. by destruct (modify_svc_world p f w) as [->| ->]. Qed.

Lemma unowned_delete_permission k :
  keeps_inv unowned (modify_engine (set_permissions (delete k))).
Proof. intros w [He ?]. split; [|done]. simpl. by rewrite He, delete_empty. Qed.

(** Walks down a call; every step that is left writes neither the
    permission objects nor the permission registry. *)
Ltac unowned :=
  repeat first
    [ apply unowned_read_role
    | apply unowned_delete_permission
    | apply unowned_alloc_perm; reflexivity
    | apply unowned_modify_perm; reflexivity
    | apply unowned_modify_role
    | apply unowned_modify_svc
    | apply keeps_inv_bind; [|intros ?]
    | apply keeps_inv_for_each; intros ?
    | match goal with
      | |- keeps_inv _ (match ?x with _ => _ end) => destruct x
      | |- keeps_inv _ (if ?x then _ else _) => destruct x
      end
    | by intros ? [? ?] ].

Lemma unowned_LoadPermissionFromJSON pj :
  keeps_inv unowned (LoadPermissionFromJSON pj).
Proof.
  unfold LoadPermissionFromJSON, newPermission, actionFromJSON, validateFields,
    findOrCreateService, findOrCreateResource, NewService, NewResource.
  unowned.
Qed.

Lemma unowned_recursivelyLoadRoleFromJSON r :
  keeps_inv unowned (recursivelyLoadRoleFromJSON malformed r).
Proof.
  induction r as [ID tags perms subroles IH] using RoleJSON_ind.
  rewrite recursivelyLoadRoleFromJSON_unfold.
  apply keeps_inv_bind; [unowned|intros e].
  destruct (roles e !! ID); [unowned|].
  apply keeps_inv_bind; [unfold NewRole; unowned|intros role].
  apply keeps_inv_bind; [unowned|intros _].
  apply keeps_inv_bind.
  { apply keeps_inv_for_each. intros pj.
    apply keeps_inv_bind; [apply unowned_LoadPermissionFromJSON|intros ?]. unowned. }
  intros _.
  apply keeps_inv_bind; [|intros _; unowned].
  clear -IH. induction IH as [|s l Hs _ IHl]; [by intros w Hw|].
  change (for_each (s :: l) ?body) with (bind (body s) (λ _, for_each l body)).
  apply keeps_inv_bind; [|intros _; exact IHl].
  apply keeps_inv_bind; [exact Hs|intros ?]. unowned.
Qed.

Lemma unowned_detachRole role : keeps_inv unowned (detachRole role).
Proof. unfold detachRole. unowned. Qed.

Lemma unowned_dropPermissionIfOrphaned q :
  keeps_inv unowned (dropPermissionIfOrphaned q).
Proof.
  intros w Hw. unfold dropPermissionIfOrphaned.
  destruct (perm_heap (heap w) !! q) as [p|]; [|done].
  destruct (decide _); [|done]. by apply unowned_delete_permission.
Qed.

Lemma unowned_run_op op :
  updates op = false → ∀ w, unowned w → unowned (run_op malformed op w).
Proof.
  destruct op as [[r|roleID r|s|p]|role|role|q]; simpl; intros Hop; [|done|..].
  - assert (keeps_inv unowned (LoadRoleFromJSON malformed r)) as H; [|apply H].
    unfold LoadRoleFromJSON, addNewRootNode.
    apply keeps_inv_bind; [apply unowned_recursivelyLoadRoleFromJSON|].
    intros ?. unowned.
  - assert (keeps_inv unowned (LoadServiceFromJSON s)) as H; [|apply H].
    unfold LoadServiceFromJSON, NewService, findOrCreateResource, NewResource.
    unowned.
  - apply unowned_LoadPermissionFromJSON.
  - apply unowned_detachRole.
  - assert (keeps_inv unowned (detachRoleRecursively role)) as H; [|apply H].
    unfold detachRoleRecursively, allSubroles.
    apply keeps_inv_bind; [apply unowned_detachRole|].
    intros ?. unowned.
  - apply unowned_dropPermissionIfOrphaned.
Qed.

Lemma unowned_run_ops ops :
  forallb (λ op, negb (updates op)) ops = true →
  ∀ w, unowned w → unowned (run_ops malformed ops w).
Proof.
  unfold run_ops. induction ops as [|op ops IH]; simpl; intros Hops w Hw; [done|].
  apply andb_true_iff in Hops as [Hop%negb_true_iff Hops].
  by apply IH, unowned_run_op.
Qed.

(** No engine operation of the sources gives a permission a granting role
    or registers one. Role.update, which updateRoleWithJSON calls, is
    missing from the sources, so sequences with an update are left out: in
    an engine made by NewAuthEngine and worked on by any sequence of loads
    of roles, services and permissions, detaches and drops, every
    permission object is an orphan and the permission registry is empty,
    so dropPermissionIfOrphaned, on any permission object, finds an orphan,
    deletes its name from the empty registry and leaves the engine exactly
    as it was. *)
Theorem permissions_are_never_owned (w0 : World) (ops : list engine_op) :
  NewAuthEngine malformed = Ok w0 →
  forallb (λ op, negb (updates op)) ops = true →
  let w := run_ops malformed ops w0 in
  permissions (engine w) = ∅
  ∧ (∀ q p, perm_heap (heap w) !! q = Some p → rolesGranting p = ∅)
  ∧ ∀ q, is_Some (perm_heap (heap w) !! q) →
      dropPermissionIfOrphaned q w = (Ok tt, w).
Proof.
  intros Hnew Hops w.
  assert (unowned w) as [He Hall].
  { apply unowned_run_ops; [done|]. unfold NewAuthEngine, NewRole in Hnew.
    destruct (_ || _); simpl in Hnew; [done|]. simplify_eq. by split. }
  rewrite Forall_lookup in Hall. split; [done|]. split; [exact Hall|].
  intros q [p Hp]. unfold dropPermissionIfOrphaned. rewrite Hp.
  rewrite (Hall q p Hp), size_empty. simpl.
  unfold modify_engine. f_equal.
  destruct w as [h [root rs res ps ss]]. simpl in *. subst ps.
  unfold on_engine, set_permissions. simpl. by rewrite delete_empty.
Qed.

End Properties.

(** * The theorems at concrete engines *)

Lemma permissions_registry_stays_empty_witness :
  NewAuthEngine no_malformed = Ok fresh_engine
  ∧ permissions (engine (apply_ops no_malformed
        [OpLoadRole analyst_JSON; OpLoadPermission p1_JSON;
         OpUpdateRole "analyst" clashing_JSON] fresh_engine)) = ∅.
Proof.
  split; [reflexivity|].
  exact (proj1 (permissions_registry_stays_empty no_malformed fresh_engine
                  _ eq_refl)).
Defined.

Lemma findOrCreateResource_not_shared_witness :
  resources (engine fresh_engine) !! "/studies/1"%string = None
  ∧ ∃ r1 w1 r2 w2,
      findOrCreateResource "/studies/1" fresh_engine = (Ok r1, w1)
      ∧ findOrCreateResource "/studies/1" w1 = (Ok r2, w2)
      ∧ r1 ≠ r2
      ∧ resources (engine w2) = resources (engine fresh_engine).
Proof.
  split; [reflexivity|].
  apply (findOrCreateResource_not_shared "/studies/1" fresh_engine). reflexivity.
Defined.

(** C2 as stated fails: the load of [clashing_JSON] into a fresh engine
    fails at its second subrole, and the first subrole "b" and the service
    "data" of its permission stay registered. *)
Lemma LoadRoleFromJSON_not_atomic :
  let w' := (LoadRoleFromJSON no_malformed clashing_JSON fresh_engine).2 in
  (LoadRoleFromJSON no_malformed clashing_JSON fresh_engine).1 = Err RoleAlreadyExists
  ∧ roles (engine fresh_engine) !! "b"%string = None
  ∧ roles (engine w') !! "b"%string = Some 2
  ∧ services (engine fresh_engine) !! "data"%string = None
  ∧ services (engine w') !! "data"%string = Some 0
  ∧ engine w' ≠ engine fresh_engine.
Proof.
  cbv zeta. split_and!; by vm_compute.
Qed.

Lemma LoadRoleFromJSON_failure_keeps_witness :
  let w' := (LoadRoleFromJSON no_malformed clashing_JSON fresh_engine).2 in
  LoadRoleFromJSON no_malformed clashing_JSON fresh_engine
  = (Err RoleAlreadyExists, w')
  ∧ root_role (engine w') = root_role (engine fresh_engine)
  ∧ role_heap (heap fresh_engine) `prefix_of` role_heap (heap w')
  ∧ permissions (engine w') = permissions (engine fresh_engine)
  ∧ resources (engine w') = resources (engine fresh_engine)
  ∧ roles (engine fresh_engine) ⊆ roles (engine w')
  ∧ services (engine fresh_engine) ⊆ services (engine w')
  ∧ perm_heap (heap fresh_engine) `prefix_of` perm_heap (heap w')
  ∧ res_heap (heap fresh_engine) `prefix_of` res_heap (heap w')
  ∧ svc_heap (heap fresh_engine) `prefix_of` svc_heap (heap w').
Proof.
  cbv zeta.
  assert (LoadRoleFromJSON no_malformed clashing_JSON fresh_engine
          = (Err RoleAlreadyExists,
             (LoadRoleFromJSON no_malformed clashing_JSON fresh_engine).2)) as H.
  { by vm_compute. }
  split; [exact H|].
  exact (LoadRoleFromJSON_failure_keeps no_malformed clashing_JSON fresh_engine
           RoleAlreadyExists _ H).
Defined.

(** C5 as stated fails: [invalid_action_JSON] holds the name "root", which
    the fresh engine has, and its load fails with InvalidAction. Nor is the
    forest what is looked at: in [twin_detached] the role at pointer 1 is a
    subrole of the root and is named "A", the name index does not hold "A",
    and a role named "A" is loaded without an error. *)
Lemma LoadRoleFromJSON_clash_other_error :
  ("root"%string ∈ role_ids invalid_action_JSON
   ∧ roles (engine fresh_engine) !! "root"%string = Some 0
   ∧ (LoadRoleFromJSON no_malformed invalid_action_JSON fresh_engine).1
     = Err InvalidAction
   ∧ (LoadRoleFromJSON no_malformed invalid_action_JSON fresh_engine).1
     ≠ Err RoleAlreadyExists)
  ∧ ((elements ∘ Subroles <$> role_heap (heap twin_detached) !! 0) = Some [1]
     ∧ (Role_ID <$> role_heap (heap twin_detached) !! 1) = Some "A"%string
     ∧ roles (engine twin_detached) !! "A"%string = None
     ∧ (LoadRoleFromJSON no_malformed (mkRoleJSON "A" ∅ [] []) twin_detached).1
       = Ok tt).
Proof.
  split; [split_and!; [|done|by vm_compute..] | split_and!; by vm_compute].
  unfold invalid_action_JSON. simpl. set_solver.
Qed.

Lemma LoadRoleFromJSON_name_clash_witness :
  "root"%string ∈ role_ids clashing_JSON
  ∧ is_Some (roles (engine fresh_engine) !! "root"%string)
  ∧ ∃ e, (LoadRoleFromJSON no_malformed clashing_JSON fresh_engine).1 = Err e
         ∧ first_failure no_malformed (dom (roles (engine fresh_engine)))
             clashing_JSON = Some e
         ∧ (e = RoleAlreadyExists ∨ e = InvalidIdentifier ∨ e = InvalidAction)
         ∧ (valid_description no_malformed clashing_JSON = true
            → e = RoleAlreadyExists)
         ∧ ("root"%string = RoleJSON_ID clashing_JSON →
            LoadRoleFromJSON no_malformed clashing_JSON fresh_engine
            = (Err RoleAlreadyExists, fresh_engine)).
Proof.
  assert ("root"%string ∈ role_ids clashing_JSON) as Hin.
  { unfold clashing_JSON. simpl. set_solver. }
  assert (is_Some (roles (engine fresh_engine) !! "root"%string)) as Hsome.
  { by eexists. }
  split; [exact Hin|]. split; [exact Hsome|].
  exact (LoadRoleFromJSON_name_clash no_malformed clashing_JSON fresh_engine
           "root" Hin Hsome).
Defined.

Lemma ParseRequest_unchecked_witness :
  toy_Unmarshal [x7b; x7d] fresh_engine = ((zero_request, None), fresh_engine)
  ∧ ParseRequest toy_Unmarshal [x7b; x7d] fresh_engine
    = (Panicked NilDereference, fresh_engine).
Proof.
  split; [reflexivity|].
  exact (ParseRequest_unchecked toy_Unmarshal [x7b; x7d] fresh_engine
           zero_request None fresh_engine eq_refl).
Defined.

(** C9 as stated fails in its second half: json.Unmarshal fails on the
    body [x00], which is not JSON, and leaves the request as it was;
    ParseRequest goes on, dereferences the nil resource and panics: its
    caller gets neither the request nor the error. *)
Lemma ParseRequest_panics_on_rejected_body :
  toy_Unmarshal [x00] fresh_engine
  = ((zero_request, Some UnmarshalError), fresh_engine)
  ∧ ParseRequest toy_Unmarshal [x00] fresh_engine
    = (Panicked NilDereference, fresh_engine)
  ∧ ∀ request err,
      (ParseRequest toy_Unmarshal [x00] fresh_engine).1 ≠ Ok (request, err).
Proof. split_and!; [reflexivity..|done]. Qed.

(** A body on which the decoder fails after it has filled in the resource:
    the request comes back to the caller, next to the error. *)
Example ParseRequest_returns_request_and_error :
  (toy_Unmarshal [x74] fresh_engine).1
  = (with_Resource (Some 0) zero_request, Some UnmarshalError)
  ∧ (ParseRequest toy_Unmarshal [x74] fresh_engine).1
    = Ok (with_Resource None (with_Resource (Some 0) zero_request),
          Some UnmarshalError).
Proof. split; by vm_compute. Qed.

Lemma ParseRequest_unresolved_resource_witness :
  ParseRequest toy_Unmarshal [x72] fresh_engine
  = (Ok (with_Resource None
           (with_Resource (Some 0) zero_request), None),
     on_heap (set_res_heap (λ l, l ++ [mkResource "/nope"])) fresh_engine).
Proof.
  exact (ParseRequest_unresolved_resource toy_Unmarshal [x72] fresh_engine
           _ None _ 0 (mkResource "/nope") eq_refl eq_refl eq_refl eq_refl).
Defined.


(** C6, on the code: after the role "analyst" with its permission "p1" is
    loaded into a fresh engine, the role is registered and holds the
    permission, and the permission registry is empty; the permission
    names no granting role. Detaching a role, with its subroles, never
    changes the permission registry either. *)
Theorem granted_permission_not_registered :
  (LoadRoleFromJSON no_malformed analyst_JSON fresh_engine).1 = Ok tt
  ∧ roles (engine analyst_engine) !! "analyst"%string = Some 1
  ∧ (Role_ID <$> role_heap (heap analyst_engine) !! 1) = Some "analyst"%string
  ∧ (elements ∘ Permissions <$> role_heap (heap analyst_engine) !! 1) = Some [0]
  ∧ (Permission_ID <$> perm_heap (heap analyst_engine) !! 0) = Some "p1"%string
  ∧ (elements ∘ rolesGranting <$> perm_heap (heap analyst_engine) !! 0) = Some []
  ∧ permissions (engine analyst_engine) = ∅
  ∧ ∀ role w, permissions (engine (detachRoleRecursively role w).2)
              = permissions (engine w).
Proof.
  split_and!; try by vm_compute.
  intros role w. apply keeps_permissions_detachRoleRecursively.
Qed.

(** ** Further facts about the engine *)

(** A description whose subrole has the identifier of its parent is
    loaded: the subrole is registered first and the parent then takes its
    place in the name index, so that two roles of the forest are named
    "A". *)
Example LoadRoleFromJSON_twin_names :
  (LoadRoleFromJSON no_malformed twin_JSON fresh_engine).1 = Ok tt
  ∧ ((λ r, (Role_ID r, elements (Subroles r))) <$> role_heap (heap twin_engine))
    = [("root"%string, [1]); ("A"%string, [2]); ("A"%string, [])]
  ∧ roles (engine twin_engine) !! "A"%string = Some 1.
Proof. split_and!; by vm_compute. Qed.

(** [addNewRootNode] puts a loaded role among the subroles of the root and
    leaves its [Parent] nil, so that [detachRole] on a role loaded by
    [LoadRoleFromJSON] dereferences nil. *)
Example detachRole_of_loaded_role :
  roles (engine analyst_engine) !! "analyst"%string = Some 1
  ∧ (Parent <$> role_heap (heap analyst_engine) !! 1) = Some None
  ∧ detachRole 1 analyst_engine = (Panicked NilDereference, analyst_engine).
Proof. split_and!; by vm_compute. Qed.

Lemma LoadRoleFromJSON_success_witness :
  role_heap (heap fresh_engine) !! root_role (engine fresh_engine)
  = Some (mkRole "root" ∅ ∅ ∅ None)
  ∧ LoadRoleFromJSON no_malformed analyst_JSON fresh_engine
    = (Ok tt, analyst_engine)
  ∧ ∃ p, roles (engine analyst_engine) !! RoleJSON_ID analyst_JSON = Some p
         ∧ length (role_heap (heap fresh_engine)) ≤ p
         ∧ root_role (engine analyst_engine) = root_role (engine fresh_engine)
         ∧ (Subroles <$> role_heap (heap analyst_engine)
                           !! root_role (engine analyst_engine))
           = Some ({[p]} ∪ Subroles (mkRole "root" ∅ ∅ ∅ None)).
Proof.
  assert (LoadRoleFromJSON no_malformed analyst_JSON fresh_engine
          = (Ok tt, analyst_engine)) as H by (by vm_compute).
  split; [reflexivity|]. split; [exact H|].
  exact (LoadRoleFromJSON_success no_malformed analyst_JSON fresh_engine
           analyst_engine _ eq_refl H).
Defined.

(** The first failing check of three descriptions in a fresh engine: the
    clash of the second subrole of [clashing_JSON], the action of
    [invalid_action_JSON], which is checked before the clashing subrole is
    visited, and none for [twin_JSON], whose subrole has the name of its
    parent. *)
Example first_failure_in_fresh_engine :
  first_failure no_malformed (dom (roles (engine fresh_engine))) clashing_JSON
  = Some RoleAlreadyExists
  ∧ first_failure no_malformed (dom (roles (engine fresh_engine)))
      invalid_action_JSON = Some InvalidAction
  ∧ first_failure no_malformed (dom (roles (engine fresh_engine))) twin_JSON
    = None.
Proof. split_and!; by vm_compute. Qed.

Lemma LoadRoleFromJSON_returns_witness :
  let res := LoadRoleFromJSON no_malformed clashing_JSON fresh_engine in
  is_Some (role_heap (heap fresh_engine) !! root_role (engine fresh_engine))
  ∧ (res.1 = Ok tt ∨ ∃ e, res.1 = Err e)
  ∧ is_Some (role_heap (heap res.2) !! root_role (engine res.2)).
Proof.
  cbv zeta.
  assert (is_Some (role_heap (heap fresh_engine) !! root_role (engine fresh_engine)))
    as Hroot by (by eexists).
  split; [exact Hroot|].
  exact (LoadRoleFromJSON_returns no_malformed clashing_JSON fresh_engine Hroot).
Defined.

(** ** The further theorems at concrete engines *)

Lemma fresh_engine_ok : engine_ok fresh_engine.
Proof. by apply (engine_ok_NewAuthEngine no_malformed). Qed.

Lemma team_engine_ok : engine_ok team_engine.
Proof. apply (keeps_ok_LoadRoleFromJSON no_malformed), fresh_engine_ok. Qed.

Lemma analyst_engine_ok : engine_ok analyst_engine.
Proof. apply (keeps_ok_LoadRoleFromJSON no_malformed), fresh_engine_ok. Qed.

Lemma LoadRoleFromJSON_builds_tree_witness :
  engine_consistent fresh_engine
  ∧ root_role (engine fresh_engine) < length (role_heap (heap fresh_engine))
  ∧ LoadRoleFromJSON no_malformed team_JSON fresh_engine = (Ok tt, team_engine)
  ∧ tree_in (heap team_engine) team_JSON (length (role_heap (heap fresh_engine)))
      (length (role_heap (heap team_engine)))
  ∧ Parent <$> role_heap (heap team_engine) !! length (role_heap (heap fresh_engine))
    = Some None.
Proof.
  assert (LoadRoleFromJSON no_malformed team_JSON fresh_engine = (Ok tt, team_engine))
    as H by (by vm_compute).
  destruct fresh_engine_ok as [Hc Hroot].
  split; [exact Hc|]. split; [exact Hroot|]. split; [exact H|].
  exact (LoadRoleFromJSON_builds_tree no_malformed team_JSON fresh_engine
           team_engine Hc Hroot H).
Defined.

Lemma name_indexes_stay_consistent_witness :
  let w := run_ops no_malformed
             [OpLoad (OpLoadRole team_JSON); OpDetachRoleRecursively 3;
              OpLoad (OpUpdateRole "lead" extra_JSON);
              OpLoad (OpLoadService data_JSON); OpDropPermissionIfOrphaned 0]
             fresh_engine in
  NewAuthEngine no_malformed = Ok fresh_engine
  ∧ engine_consistent w
  ∧ is_Some (role_heap (heap w) !! root_role (engine w)).
Proof.
  cbv zeta. split; [reflexivity|].
  exact (name_indexes_stay_consistent no_malformed fresh_engine _ eq_refl).
Defined.

Lemma ParseRequest_never_resolves_witness :
  let w := run_ops no_malformed
             [OpLoad (OpLoadRole analyst_JSON); OpLoad (OpLoadService data_JSON)]
             fresh_engine in
  NewAuthEngine no_malformed = Ok fresh_engine
  ∧ (∀ w, resources (engine (toy_Unmarshal [x72] w).2) = resources (engine w))
  ∧ resources (engine w) = ∅
  ∧ (∀ order, order ≡ₚ map_to_list (resources (engine w)) →
       ListResourceNames order w = (Ok [], w) ∧ allResources order w = (Ok [], w))
  ∧ ∀ request err w',
      ParseRequest toy_Unmarshal [x72] w = (Ok (request, err), w') →
      Action_Resource (authRequest_Action request) = None.
Proof.
  cbv zeta.
  assert (∀ w, resources (engine (toy_Unmarshal [x72] w).2) = resources (engine w))
    as HU by (intros w; reflexivity).
  split; [reflexivity|]. split; [exact HU|].
  exact (ParseRequest_never_resolves no_malformed toy_Unmarshal fresh_engine _
           [x72] eq_refl HU).
Defined.

Lemma LoadRoleFromJSON_accepts_iff_witness :
  is_Some (role_heap (heap fresh_engine) !! root_role (engine fresh_engine))
  ∧ ((LoadRoleFromJSON no_malformed team_JSON fresh_engine).1 = Ok tt ↔
     valid_description no_malformed team_JSON = true
     ∧ distinct_siblings team_JSON = true
     ∧ ∀ id, id ∈ role_ids team_JSON → roles (engine fresh_engine) !! id = None).
Proof.
  assert (is_Some (role_heap (heap fresh_engine) !! root_role (engine fresh_engine)))
    as Hroot by (by eexists).
  split; [exact Hroot|].
  exact (LoadRoleFromJSON_accepts_iff no_malformed team_JSON fresh_engine Hroot).
Defined.

Lemma findRole_finds_witness :
  let order := map_to_list (roles (engine team_engine)) in
  engine_consistent team_engine
  ∧ order ≡ₚ map_to_list (roles (engine team_engine))
  ∧ ∃ res, findRole (λ r, bool_decide (Tags r !! "kind"%string = Some "group"%string))
             order team_engine = (Ok res, team_engine)
      ∧ match res with
        | Some p =>
            ∃ k r, roles (engine team_engine) !! k = Some p
              ∧ role_heap (heap team_engine) !! p = Some r
              ∧ bool_decide (Tags r !! "kind"%string = Some "group"%string) = true
        | None =>
            ∀ k p r, roles (engine team_engine) !! k = Some p →
              role_heap (heap team_engine) !! p = Some r →
              bool_decide (Tags r !! "kind"%string = Some "group"%string) = false
        end.
Proof.
  cbv zeta. destruct team_engine_ok as [Hc _].
  split; [exact Hc|]. split; [reflexivity|].
  exact (findRole_finds
           (λ r, bool_decide (Tags r !! "kind"%string = Some "group"%string))
           _ team_engine Hc (reflexivity _)).
Defined.

Lemma findRole_by_name_witness :
  let order := map_to_list (roles (engine team_engine)) in
  engine_consistent team_engine
  ∧ order ≡ₚ map_to_list (roles (engine team_engine))
  ∧ findRole (λ r, bool_decide (Role_ID r = "guest"%string)) order team_engine
    = FindRoleNamed "guest" team_engine.
Proof.
  cbv zeta. destruct team_engine_ok as [Hc _].
  split; [exact Hc|]. split; [reflexivity|].
  exact (findRole_by_name "guest" _ team_engine Hc (reflexivity _)).
Defined.

Lemma updateRoleWithJSON_registers_addition_witness :
  let w' := (updateRoleWithJSON no_malformed "analyst" extra_JSON analyst_engine).2 in
  updateRoleWithJSON no_malformed "analyst" extra_JSON analyst_engine = (Ok tt, w')
  ∧ roles (engine analyst_engine) !! RoleJSON_ID extra_JSON = None
  ∧ (∃ p, roles (engine w') !! RoleJSON_ID extra_JSON = Some p
          ∧ length (role_heap (heap analyst_engine)) ≤ p)
  ∧ dom (roles (engine w'))
    = dom (roles (engine analyst_engine)) ∪ list_to_set (role_ids extra_JSON)
  ∧ is_Some (roles (engine analyst_engine) !! "analyst"%string)
  ∧ RoleJSON_ID extra_JSON ≠ "analyst"%string.
Proof.
  cbv zeta.
  assert (updateRoleWithJSON no_malformed "analyst" extra_JSON analyst_engine
          = (Ok tt, (updateRoleWithJSON no_malformed "analyst" extra_JSON
                       analyst_engine).2)) as H by (by vm_compute).
  split; [exact H|].
  exact (updateRoleWithJSON_registers_addition no_malformed "analyst" extra_JSON
           analyst_engine _ H).
Defined.

Lemma detachRole_of_new_root_node_witness :
  engine_consistent fresh_engine
  ∧ root_role (engine fresh_engine) < length (role_heap (heap fresh_engine))
  ∧ LoadRoleFromJSON no_malformed team_JSON fresh_engine = (Ok tt, team_engine)
  ∧ (∃ root, role_heap (heap team_engine) !! root_role (engine team_engine)
             = Some root
             ∧ length (role_heap (heap fresh_engine)) ∈ Subroles root)
  ∧ detachRole (length (role_heap (heap fresh_engine))) team_engine
    = (Panicked NilDereference, team_engine)
  ∧ detachRoleRecursively (length (role_heap (heap fresh_engine))) team_engine
    = (Panicked NilDereference, team_engine).
Proof.
  assert (LoadRoleFromJSON no_malformed team_JSON fresh_engine = (Ok tt, team_engine))
    as H by (by vm_compute).
  destruct fresh_engine_ok as [Hc Hroot].
  split; [exact Hc|]. split; [exact Hroot|]. split; [exact H|].
  exact (detachRole_of_new_root_node no_malformed team_JSON fresh_engine
           team_engine Hc Hroot H).
Defined.

Lemma detachRoleRecursively_of_loaded_subrole_witness :
  let sj := mkRoleJSON "member" ∅ [p1_JSON] [mkRoleJSON "guest" ∅ [] []] in
  engine_consistent fresh_engine
  ∧ root_role (engine fresh_engine) < length (role_heap (heap fresh_engine))
  ∧ LoadRoleFromJSON no_malformed team_JSON fresh_engine = (Ok tt, team_engine)
  ∧ ∃ s w'',
      detachRoleRecursively s team_engine = (Ok tt, w'')
      ∧ length (role_heap (heap fresh_engine)) < s
      ∧ Role_ID <$> role_heap (heap team_engine) !! s = Some (RoleJSON_ID sj)
      ∧ heap w''
        = set_role_heap (alter (set_Subroles (λ x, x ∖ {[s]}))
                           (length (role_heap (heap fresh_engine))))
            (heap team_engine)
      ∧ dom (roles (engine w''))
        = dom (roles (engine team_engine)) ∖ list_to_set (role_ids sj)
      ∧ roles (engine w'') ⊆ roles (engine team_engine).
Proof.
  cbv zeta.
  assert (LoadRoleFromJSON no_malformed team_JSON fresh_engine = (Ok tt, team_engine))
    as H by (by vm_compute).
  destruct fresh_engine_ok as [Hc Hroot].
  split; [exact Hc|]. split; [exact Hroot|]. split; [exact H|].
  exact (detachRoleRecursively_of_loaded_subrole no_malformed "team" _ _ _
           fresh_engine team_engine 1 _ Hc Hroot H eq_refl).
Defined.

Lemma LoadServiceFromJSON_replaces_witness :
  engine_consistent analyst_engine
  ∧ ∃ w' svc,
      LoadServiceFromJSON data_JSON analyst_engine
      = (Ok (length (svc_heap (heap analyst_engine))), w')
      ∧ engine w'
        = set_services (<[ServiceJSON_ID data_JSON
                          := length (svc_heap (heap analyst_engine))]>)
            (engine analyst_engine)
      ∧ svc_heap (heap analyst_engine) `prefix_of` svc_heap (heap w')
      ∧ svc_heap (heap w') !! length (svc_heap (heap analyst_engine)) = Some svc
      ∧ Service_ID svc = ServiceJSON_ID data_JSON
      ∧ (∀ uri name, URIsToResources data_JSON !! uri = Some name →
           ∃ x, uriToResource svc !! uri = Some x
                ∧ Resource_ID <$> res_heap (heap w') !! x = Some name)
      ∧ (∀ uri, URIsToResources data_JSON !! uri = None →
           uriToResource svc !! uri = None)
      ∧ engine_consistent w'.
Proof.
  destruct analyst_engine_ok as [Hc _]. split; [exact Hc|].
  exact (LoadServiceFromJSON_replaces data_JSON analyst_engine Hc).
Defined.

Lemma LoadPermissionFromJSON_loads_witness :
  engine_consistent analyst_engine
  ∧ ∃ w', LoadPermissionFromJSON p1_JSON analyst_engine
          = (Ok (length (perm_heap (heap analyst_engine))), w')
      ∧ perm_at (heap w') (length (perm_heap (heap analyst_engine))) p1_JSON
      ∧ is_Some (services (engine w')
                   !! ActionJSON_Service (PermissionJSON_Action p1_JSON))
      ∧ engine_consistent w'.
Proof.
  destruct analyst_engine_ok as [Hc _]. split; [exact Hc|].
  exact (LoadPermissionFromJSON_loads p1_JSON analyst_engine Hc).
Defined.

Lemma ListRoleNames_after_load_witness :
  let order := map_to_list (roles (engine fresh_engine)) in
  let order' := map_to_list (roles (engine team_engine)) in
  LoadRoleFromJSON no_malformed team_JSON fresh_engine = (Ok tt, team_engine)
  ∧ order ≡ₚ map_to_list (roles (engine fresh_engine))
  ∧ order' ≡ₚ map_to_list (roles (engine team_engine))
  ∧ ∃ names names',
      ListRoleNames order fresh_engine = (Ok names, fresh_engine)
      ∧ ListRoleNames order' team_engine = (Ok names', team_engine)
      ∧ NoDup names'
      ∧ ∀ name, name ∈ names' ↔ name ∈ names ∨ name ∈ role_ids team_JSON.
Proof.
  cbv zeta.
  assert (LoadRoleFromJSON no_malformed team_JSON fresh_engine = (Ok tt, team_engine))
    as H by (by vm_compute).
  split; [exact H|]. split; [reflexivity|]. split; [reflexivity|].
  exact (ListRoleNames_after_load no_malformed team_JSON fresh_engine team_engine
           _ _ H (reflexivity _) (reflexivity _)).
Defined.

Lemma CheckAuth_waits_for_all_roles_witness :
  CheckAuth (Some (denied [])) [1] busy_schedule zero_request analyst_engine
  = Some busy_run
  ∧ workers busy_run = [WExit; WExit]
  ∧ waiter busy_run = WaitExit
  ∧ crashed busy_run = None
  ∧ wg busy_run = pending (workers busy_run)
  ∧ (waiter busy_run ≠ WaitAll
     ∨ (main busy_run = MSelect ∧ done_closed busy_run = true) →
     ∀ i pc, workers busy_run !! i = Some pc → pc = WExit).
Proof.
  assert (CheckAuth (Some (denied [])) [1] busy_schedule zero_request analyst_engine
          = Some busy_run) as H by (by vm_compute).
  split; [exact H|]. split; [by vm_compute|]. split; [by vm_compute|].
  split; [by vm_compute|].
  exact (CheckAuth_waits_for_all_roles (Some (denied [])) [1] busy_schedule
           zero_request analyst_engine busy_run H).
Defined.

Lemma CheckAuth_always_ends_in_a_panic_witness :
  CheckAuth None [] idle_schedule zero_request fresh_engine = Some idle_run
  ∧ (∀ root, role_heap (heap fresh_engine) !! root_role (engine fresh_engine)
             = Some root →
       quiescent None (heap fresh_engine) zero_request
         (CheckAuth_roles (Subroles root) []) idle_run)
  ∧ (is_Some (crashed idle_run) ∨ main idle_run = MPanicked CloseOfClosedChannel)
  ∧ (crashed idle_run = None
     → returned idle_run = Some (Panicked CloseOfClosedChannel)).
Proof.
  assert (∀ root, role_heap (heap fresh_engine) !! root_role (engine fresh_engine)
                  = Some root →
            quiescent None (heap fresh_engine) zero_request
              (CheckAuth_roles (Subroles root) []) idle_run) as Hq.
  { intros root [= <-] [b| |i]; reflexivity. }
  split; [reflexivity|]. split; [exact Hq|].
  exact (CheckAuth_always_ends_in_a_panic None [] idle_schedule zero_request
           fresh_engine idle_run eq_refl Hq).
Defined.

Lemma ListServiceNames_after_load_witness :
  let w' := (LoadServiceFromJSON data_JSON analyst_engine).2 in
  let order := map_to_list (services (engine analyst_engine)) in
  let order' := map_to_list (services (engine w')) in
  engine_consistent analyst_engine
  ∧ LoadServiceFromJSON data_JSON analyst_engine = (Ok 1, w')
  ∧ order ≡ₚ map_to_list (services (engine analyst_engine))
  ∧ order' ≡ₚ map_to_list (services (engine w'))
  ∧ ∃ names names',
      ListServiceNames order analyst_engine = (Ok names, analyst_engine)
      ∧ ListServiceNames order' w' = (Ok names', w')
      ∧ NoDup names'
      ∧ (∀ name, name ∈ names' ↔ name = ServiceJSON_ID data_JSON ∨ name ∈ names)
      ∧ FindServiceNamed (ServiceJSON_ID data_JSON) w' = (Ok (Some 1), w').
Proof.
  cbv zeta.
  assert (LoadServiceFromJSON data_JSON analyst_engine
          = (Ok 1, (LoadServiceFromJSON data_JSON analyst_engine).2)) as H
    by (by vm_compute).
  destruct analyst_engine_ok as [Hc _].
  split; [exact Hc|]. split; [exact H|]. split; [reflexivity|]. split; [reflexivity|].
  exact (ListServiceNames_after_load data_JSON analyst_engine _ 1 _ _ Hc H
           (reflexivity _) (reflexivity _)).
Defined.

Lemma permissions_are_never_owned_witness :
  let ops := [OpLoad (OpLoadRole team_JSON); OpLoad (OpLoadPermission p1_JSON);
              OpDetachRole 3; OpDropPermissionIfOrphaned 1] in
  let w := run_ops no_malformed ops fresh_engine in
  NewAuthEngine no_malformed = Ok fresh_engine
  ∧ forallb (λ op, negb (updates op)) ops = true
  ∧ permissions (engine w) = ∅
  ∧ (∀ q p, perm_heap (heap w) !! q = Some p → rolesGranting p = ∅)
  ∧ ∀ q, is_Some (perm_heap (heap w) !! q) →
      dropPermissionIfOrphaned q w = (Ok tt, w).
Proof.
  cbv zeta. split; [reflexivity|]. split; [reflexivity|].
  exact (permissions_are_never_owned no_malformed fresh_engine
           [OpLoad (OpLoadRole team_JSON); OpLoad (OpLoadPermission p1_JSON);
            OpDetachRole 3; OpDropPermissionIfOrphaned 1] eq_refl eq_refl).
Defined.
